(** * The aggregation engine of [scripts/attention_weights.py]

    A shallow embedding of the two data-reduction steps of the script:

    - [extract_data], lines 110-151: the per-batch accumulation loop and the
      reduction of the accumulated tensors into the element x element
      attention matrix, the bond-probability matrix and the atom counts;
    - [visualize], lines 212-221: the attention-by-distance curve, a rolling
      mean over the distance-sorted samples of one element pair.

    Tensors are lists.  A [2 x N] integer tensor is the list of its [N]
    columns.  Atomic numbers are only compared and counts only incremented,
    far below the 64-bit range, so both are unbounded integers.  A
    floating-point number is an exact rational when it is finite and [None]
    when it is not (see [Float]); rounding is not modelled, and
    [scatter_mean32] shows on float32 numbers where that matters.

    The forward pass of the model and the collector of the attention weights
    are outside the script's reduction steps: a batch enters with the atomic
    numbers of its atoms, of the end points of its attention edges and of
    the end points of its bonds.  The guessing of bonds for a batch without
    them (lines 51-65), the panels of [visualize] and
    [scripts/check_radius.py] are embedded after the reduction steps. *)

From Stdlib Require Import ZArith QArith Permutation.
From Stdlib Require Import Floats.SpecFloat.
From stdpp Require Import gmap list sorting lexico strings.

(** ** Floating-point values *)

Module Float.
(** [Some q] is the finite value [q]; [None] stands for [nan] and the
    infinities, which is what a division by zero produces, and what pandas
    uses for a missing value. *)
Abbreviation t := (option Q) (only parsing).

Definition zero : t := Some 0%Q.
Definition one : t := Some 1%Q.
Definition of_nat (n : nat) : t := Some (inject_Z (Z.of_nat n)).

Definition add (a b : t) : t :=
  match a, b with
  | Some x, Some y => Some (x + y)%Q
  | _, _ => None
  end.

Definition div (a b : t) : t :=
  match a, b with
  | Some x, Some y => if Qeq_bool y 0 then None else Some (x / y)%Q
  | _, _ => None
  end.

(** [a < b]; a comparison with [nan] is false. *)
Definition ltb (a b : t) : bool :=
  match a, b with
  | Some x, Some y => negb (Qle_bool y x)
  | _, _ => false
  end.

(** [tensor.sum()]: accumulation from the left, starting at zero. *)
Definition sum (l : list t) : t := foldl add zero l.
End Float.

(** Exact sum and arithmetic mean of finite samples, the reference notions
    the aggregates are compared with. *)
Definition Qsum (l : list Q) : Q := foldl Qplus 0%Q l.
Definition Qmean (l : list Q) : Q := (Qsum l / inject_Z (Z.of_nat (length l)))%Q.

(** ** Exceptions and the error monad *)

Inductive Error : Type :=
  | EmptyCat     (* torch.cat of an empty list of tensors *)
  | ShapeError   (* reshape to a shape of a different size *)
  | IndexError   (* index out of bounds *)
  | KeyError.    (* dict lookup of a missing key *)

Inductive result (A : Type) : Type :=
  | Ok (a : A)
  | Raise (e : Error).
Arguments Ok {A} a.
Arguments Raise {A} e.

#[global] Instance result_bind : MBind result := λ A B k r,
  match r with
  | Ok a => k a
  | Raise e => Raise e
  end.

Definition from_option {A} (e : Error) (o : option A) : result A :=
  match o with
  | Some a => Ok a
  | None => Raise e
  end.

(** ** Tensor primitives *)

Section unique.
Context `{Lexico A, !StrictOrder (@lexico A _), !TrichotomyT (@lexico A _)}.
Context `{!EqDecision A}.

(** Insertion into a strictly ascending list; an element already present
    is not repeated. *)
Fixpoint insert_sorted (x : A) (l : list A) : list A :=
  match l with
  | [] => [x]
  | y :: l' =>
      match trichotomyT lexico x y with
      | inleft (left _) => x :: y :: l'
      | inleft (right _) => y :: l'
      | inright _ => y :: insert_sorted x l'
      end
  end.

(** [torch.unique]: the distinct entries in ascending order.  With [dim=1]
    the entries are the columns, ordered lexicographically. *)
Definition torch_unique (l : list A) : list A := foldr insert_sorted [] l.

(** Position of the first occurrence of [x] in [l] ([length l] if none). *)
Fixpoint position (x : A) (l : list A) : nat :=
  match l with
  | [] => 0
  | y :: l' => if decide (x = y) then 0 else S (position x l')
  end.

Definition occurrences (x : A) (l : list A) : nat := length (filter (x =.) l).

(** [torch.unique(.., return_inverse=True)]: for every input entry, its
    index in the unique list. *)
Definition unique_inverse (l : list A) : list A * list nat :=
  let u := torch_unique l in (u, (λ x, position x u) <$> l).

(** [torch.unique(.., return_counts=True)]. *)
Definition unique_counts (l : list A) : list A * list nat :=
  let u := torch_unique l in (u, (λ x, occurrences x l) <$> u).
End unique.

(** [torch.cat]: concatenation; an empty list of tensors is refused. *)
Definition torch_cat {A} (ts : list (list A)) : result (list A) :=
  match ts with
  | [] => Raise EmptyCat
  | _ => Ok (concat ts)
  end.

(** [torch.stack([r0, r1])] of two rows, as the list of columns. *)
Definition torch_stack (r0 r1 : list Z) : list (Z * Z) := zip r0 r1.

(** All entries of a [2 x N] tensor, row 0 then row 1. *)
Definition flatten (t : list (Z * Z)) : list Z := (fst <$> t) ++ (snd <$> t).

(** [tensor.sort().values] on integers. *)
Definition sort_values (l : list Z) : list Z := merge_sort Z.le l.

Fixpoint chunks {A} (rows cols : nat) (t : list A) : list (list A) :=
  match rows with
  | O => []
  | S r => take cols t :: chunks r cols (drop cols t)
  end.

(** [t.reshape(rows, cols)] of a flat tensor, row-major. *)
Definition reshape {A} (rows cols : nat) (t : list A) : result (list (list A)) :=
  if decide (length t = rows * cols) then Ok (chunks rows cols t)
  else Raise ShapeError.

(** [m[i, j]] of a matrix stored as its rows. *)
Definition cell {A} (m : list (list A)) (i j : nat) : option A :=
  m !! i ≫= (.!! j).

(** [mask] selection [t[mask]]. *)
Definition masked {A} (mask : list bool) (t : list A) : list A :=
  snd <$> filter (λ p, p.1 = true) (zip mask t).

(** In-place update of the selected entries, [t[mask] = f(t[mask])]. *)
Definition masked_update {A} (mask : list bool) (f : A → A) (t : list A) : list A :=
  zip_with (λ (b : bool) x, if b then f x else x) mask t.

(** *** torch_scatter *)

(** [scatter_sum]: [out[index[i]] += src[i]] for [i = 0, 1, ..] on a zero
    tensor of [dim_size] entries. *)
Definition scatter_sum (src : list Float.t) (index : list nat) (dim_size : nat)
  : list Float.t :=
  foldl (λ out p, alter (λ acc, Float.add acc p.1) p.2 out)
        (replicate dim_size Float.zero) (zip src index).

(** [scatter(src, index, dim=0, reduce='mean')]: the output has
    [index.max() + 1] entries, the per-index sums divided by the per-index
    counts, a count below one being replaced by one.  Sums and counts are
    exact here; [scatter_mean32] is the same computation on float32. *)
Definition scatter_mean (src : list Float.t) (index : list nat) : list Float.t :=
  let dim_size := match index with [] => 0 | _ => S (max_list index) end in
  let out := scatter_sum src index dim_size in
  let ones := replicate (length index) Float.one in
  let count := scatter_sum ones index dim_size in
  let count := (λ c, if Float.ltb c Float.one then Float.one else c) <$> count in
  zip_with Float.div out count.

(** ** The extraction loop *)

(** One attention edge of the last rollout layer, with the atomic numbers of
    its two end points already gathered ([batch.z[rollout_index[-1][k]]]),
    its rollout weight and the distance of the two atoms. *)
Record Edge : Type := {
  source_element : Z;
  target_element : Z;
  attention_weight : Q;
  distance : Q
}.

(** What one iteration reads from a batch: the atomic numbers [batch.z], the
    attention edges, and the atomic numbers at the end points of the bonds in
    [batch.edge_index]. *)
Record Batch : Type := {
  z : list Z;
  rollout : list Edge;
  edge_index : list (Z * Z)
}.

Record Accum : Type := {
  zs_0 : list (list Z);
  zs_1 : list (list Z);
  zs_0_ref : list (list Z);
  zs_1_ref : list (list Z);
  atoms_per_elem : gmap Z Z;
  distances : list (list Q);
  rollout_weights : list (list Q)
}.

Definition init : Accum :=
  {| zs_0 := []; zs_1 := []; zs_0_ref := []; zs_1_ref := [];
     atoms_per_elem := ∅; distances := []; rollout_weights := [] |}.

(** [(batch.z == elem).sum()]. *)
Definition count_elem (elem : Z) (zb : list Z) : Z := Z.of_nat (occurrences elem zb).

(** Lines 117-119, the body of the loop over the elements of a batch. *)
Definition add_count (zb : list Z) (m : gmap Z Z) (elem : Z) : gmap Z Z :=
  let m := if decide (is_Some (m !! elem)) then m else <[elem := 0%Z]> m in
  <[elem := (m !!! elem + count_elem elem zb)%Z]> m.

(** Lines 116-119. *)
Definition count_atoms (zb : list Z) (m : gmap Z Z) : gmap Z Z :=
  foldl (add_count zb) m (torch_unique zb).

(** Lines 110-121 of the loop body. *)
Definition loop_body (st : Accum) (batch : Batch) : Accum :=
  {| zs_0 := zs_0 st ++ [source_element <$> rollout batch];
     zs_1 := zs_1 st ++ [target_element <$> rollout batch];
     zs_0_ref := zs_0_ref st ++ [fst <$> edge_index batch];
     zs_1_ref := zs_1_ref st ++ [snd <$> edge_index batch];
     atoms_per_elem := count_atoms (z batch) (atoms_per_elem st);
     distances := distances st ++ [distance <$> rollout batch];
     rollout_weights := rollout_weights st ++ [attention_weight <$> rollout batch] |}.

(** ** The reduction, lines 124-145 *)

(** [zs_ref[0] == elem]. *)
Definition source_mask (elem : Z) (zs_ref : list (Z * Z)) : list bool :=
  (λ c : Z * Z, bool_decide (c.1 = elem)) <$> zs_ref.

(** Line 140: the counts of the pairs that start at [elem] are divided by
    their sum. *)
Definition normalize_row (zs_ref : list (Z * Z)) (counts : list Float.t) (elem : Z)
  : list Float.t :=
  let mask := source_mask elem zs_ref in
  masked_update mask (λ x, Float.div x (Float.sum (masked mask counts))) counts.

(** Lines 139-140: the loop over all elements that occur in [zs_ref]. *)
Definition normalize_rows (zs_ref : list (Z * Z)) (counts_ref : list Float.t)
  : list Float.t :=
  foldl (normalize_row zs_ref) counts_ref (torch_unique (flatten zs_ref)).

(** Line 141: [{int(z): i for i, z in enumerate(..)}]. *)
Definition make_z2idx (l : list Z) : gmap Z nat :=
  foldl (λ m p, <[p.2 := p.1]> m) ∅ (zip (seq 0 (length l)) l).

(** Line 142: both rows are mapped through [z2idx]. *)
Definition apply_z2idx (z2idx : gmap Z nat) (t : list (Z * Z)) : result (list (nat * nat)) :=
  from_option KeyError
    (mapM (λ c : Z * Z, i ← z2idx !! c.1; j ← z2idx !! c.2; Some (i, j)) t).

(** One assignment [m[i, j] = v]. *)
Definition put_step (m : list (list Float.t)) (p : nat * nat * Float.t)
  : list (list Float.t) :=
  alter (λ row, <[p.1.2 := p.2]> row) p.1.1 m.

(** Lines 143-144: [square[index[0], index[1]] = values] on a zero matrix. *)
Definition index_put (n : nat) (index : list (nat * nat)) (values : list Float.t)
  : list (list Float.t) :=
  foldl put_step (replicate n (replicate n Float.zero)) (zip index values).

(** The tuple pickled on line 151 ([atoms] is [atoms_per_elem]). *)
Record Snapshot : Type := {
  zs : list Z;
  attn : list (list Float.t);
  zs_ref : list Z;
  counts_ref_square : list (list Float.t);
  atoms : gmap Z Z;
  zs_full : list (Z * Z);
  attn_full : list Float.t;
  dist : list Q
}.

Definition extract_data (data : list Batch) : result Snapshot :=
  let st := foldl loop_body init data in
  (* compute attention weight scatter indices *)
  z0 ← torch_cat (zs_0 st);
  z1 ← torch_cat (zs_1 st);
  let zs_full := torch_stack z0 z1 in
  let n_elements := length (torch_unique (flatten zs_full)) in
  let '(zs, index) := unique_inverse zs_full in
  (* zs.reshape(2, n, n): each of the two rows becomes an n x n matrix;
     zs[1, 0] is the first row of the second one *)
  _ ← reshape n_elements n_elements (fst <$> zs);
  zs1 ← reshape n_elements n_elements (snd <$> zs);
  zs ← from_option IndexError (zs1 !! 0);
  (* reduce attention weights to elemental interactions *)
  w ← torch_cat (rollout_weights st);
  let attn_full := Some <$> w in
  let attn := scatter_mean attn_full index in
  attn ← reshape n_elements n_elements attn;
  (* compute bond probabilities from the data *)
  r0 ← torch_cat (zs_0_ref st);
  r1 ← torch_cat (zs_1_ref st);
  let '(zs_ref, counts_ref) := unique_counts (torch_stack r0 r1) in
  let counts_ref := Float.of_nat <$> counts_ref in
  let counts_ref := normalize_rows zs_ref counts_ref in
  let z2idx := make_z2idx (sort_values (torch_unique (flatten zs_full))) in
  index_ref ← apply_z2idx z2idx zs_ref;
  let counts_ref_square := index_put n_elements index_ref counts_ref in
  let zs_ref := torch_unique (fst <$> zs_ref) in
  d ← torch_cat (distances st);
  Ok {| zs := zs; attn := attn; zs_ref := zs_ref;
        counts_ref_square := counts_ref_square;
        atoms := atoms_per_elem st;
        zs_full := zs_full; attn_full := attn_full; dist := d |}.

(** ** The attention-by-distance curve, lines 212-221 of [visualize] *)

(** [t[mask]] with the shape check of boolean-mask indexing. *)
Definition select {A} (mask : list bool) (t : list A) : result (list A) :=
  if decide (length mask = length t) then Ok (masked mask t)
  else Raise IndexError.

(** [t[index]] for a tensor of indices. *)
Definition gather {A} (t : list A) (index : list nat) : result (list A) :=
  from_option IndexError (mapM (λ i, t !! i) index).

(** Line 214. *)
Definition pair_mask (z1 z2 : Z) (zs_full : list (Z * Z)) : list bool :=
  (λ c : Z * Z,
     (bool_decide (c.1 = z1) && bool_decide (c.2 = z2))
     || (bool_decide (c.1 = z2) && bool_decide (c.2 = z1))) <$> zs_full.

(** Mean of the [window] entries that end just before position [stop];
    missing when fewer than [window] entries are there, or one is missing. *)
Definition window_mean (window : nat) (s : list Float.t) (stop : nat) : Float.t :=
  if decide (0 < window ∧ window ≤ stop)
  then Float.div (Float.sum (take window (drop (stop - window) s))) (Float.of_nat window)
  else None.

(** [Series.rolling(window).mean()]: right-aligned, [min_periods = window]. *)
Definition rolling_mean (window : nat) (s : list Float.t) : list Float.t :=
  (λ k, window_mean window s (S k)) <$> seq 0 (length s).

(** [Series.shift(-periods)]: entry [k] takes the value of entry
    [k + periods]; the vacated tail is missing. *)
Definition shift_left (periods : nat) (s : list Float.t) : list Float.t :=
  drop periods s ++ replicate (length s `min` periods) None.

Section visualize.
(** [torch.sort] is called without [stable=True]; [sort_indices d] is the
    index tensor it returns for [d]. *)
Variable sort_indices : list Q → list nat.

Definition argsort (d : list Q) : list nat := sort_indices d.

Definition sorted_values (d : list Q) : result (list Q) :=
  gather d (sort_indices d).

(** The two coordinates of the scatter plot of line 221, before smoothing:
    [dist[mask].sort().values] and [attn_full[mask][dist[mask].argsort()]]. *)
Definition sorted_samples (z1 z2 : Z) (s : Snapshot)
  : result (list Q * list Float.t) :=
  let mask := pair_mask z1 z2 (zs_full s) in
  a ← select mask (attn_full s);
  d ← select mask (dist s);
  a ← gather a (argsort d);
  d ← sorted_values d;
  Ok (d, a).

Definition smooth (z1 z2 : Z) (ma_width : nat) (s : Snapshot)
  : result (list (Q * Float.t)) :=
  p ← sorted_samples z1 z2 s;
  let averaged := shift_left ma_width (rolling_mean ma_width p.2) in
  Ok (zip p.1 averaged).

(** Lines 212-213: hydrogen-carbon, window 1000. *)
Definition visualize_curve (s : Snapshot) : result (list (Q * Float.t)) :=
  smooth 1 6 1000 s.
End visualize.

(** What [torch.sort] promises when stability is not requested: the indices
    are a permutation of the positions and read the values in ascending
    order. *)
Definition sort_contract (sort_indices : list Q → list nat) : Prop :=
  ∀ d : list Q,
    sort_indices d ≡ₚ seq 0 (length d)
    ∧ Sorted Qle ((λ i, default 0%Q (d !! i)) <$> sort_indices d).

(** Insertion of the positions from the last to the first, a position going
    before the first of the later positions that [before] allows. *)
Fixpoint insert_index (before : Q → Q → bool) (d : list Q) (i : nat) (l : list nat)
  : list nat :=
  match l with
  | [] => [i]
  | j :: l' =>
      if before (default 0%Q (d !! i)) (default 0%Q (d !! j)) then i :: j :: l'
      else j :: insert_index before d i l'
  end.

Definition insertion_argsort (before : Q → Q → bool) (d : list Q) : list nat :=
  foldr (insert_index before d) [] (seq 0 (length d)).

(** The index tensor of a stable sort: ascending, positions of equal value
    in ascending order.  This is what the sort of a CPU tensor returns,
    whether or not [stable=True] is passed: the CPU kernel of [torch.sort]
    sorts values and indices together with a stable merge sort.  The tensors
    of [visualize] are CPU tensors, read back from the pickle. *)
Definition argsort_stable : list Q → list nat := insertion_argsort Qle_bool.

(** *** The smoothing as the specification words it

    The mean of the [window] samples starting at a sample's own position,
    the series then shifted back by [window / 2] positions. *)
Definition forward_mean (window : nat) (s : list Float.t) (start : nat) : Float.t :=
  if decide (0 < window ∧ start + window ≤ length s)
  then Float.div (Float.sum (take window (drop start s))) (Float.of_nat window)
  else None.

Definition centered_mean_spec (window : nat) (s : list Float.t) : list Float.t :=
  (λ k, if decide (window / 2 ≤ k) then forward_mean window s (k - window / 2) else None)
    <$> seq 0 (length s).

(** ** Reference notions for the statements *)

(** [sum(atoms_per_elem.values())]. *)
Definition total_count (m : gmap Z Z) : Z := map_fold (λ _ v acc, (v + acc)%Z) 0%Z m.

(** All atoms, all attention edges and all bonds of a run. *)
Definition all_atoms (data : list Batch) : list Z := data ≫= z.
Definition all_edges (data : list Batch) : list Edge := data ≫= rollout.
Definition all_bonds (data : list Batch) : list (Z * Z) := data ≫= edge_index.

Definition element_pair (e : Edge) : Z * Z := (source_element e, target_element e).

(** The attention weights of the edges from element [a] to element [b], in
    order of occurrence. *)
Definition weights_of (a b : Z) (edges : list Edge) : list Q :=
  attention_weight <$> filter (λ e, element_pair e = (a, b)) edges.

(** Number of bonds that leave an atom of element [a]. *)
Definition bonds_from (a : Z) (bonds : list (Z * Z)) : nat :=
  length (filter (λ c, c.1 = a) bonds).


(** The per-batch counts of element [e], added up over the batches. *)
Definition summed_count (e : Z) (data : list Batch) : Z :=
  foldr (λ b acc, (count_elem e (z b) + acc)%Z) 0%Z data.


(** Sum of the original counts of the pairs that start at [a]. *)
Definition row_total (zs_ref : list (Z * Z)) (orig : list Q) (a : Z) : Q :=
  Qsum (masked (source_mask a zs_ref) orig).

(** A count during the normalisation loop: divided by the total of its row
    once the loop has passed its source element. *)
Definition normalized_entry (total : Z → Q) (done : list Z) (c : Z * Z) (q : Q)
  : Float.t :=
  if decide (c.1 ∈ done) then Float.div (Some q) (Some (total c.1)) else Some q.


(** The element pairs of all attention edges, and the elements that occur
    at an end point of an attention edge. *)
Definition edge_pairs (data : list Batch) : list (Z * Z) :=
  element_pair <$> all_edges data.

Definition observed (a : Z) (data : list Batch) : Prop :=
  ∃ e, e ∈ all_edges data ∧ (a = source_element e ∨ a = target_element e).

(** The elements that occur at an end point of a bond. *)
Definition bonded (a : Z) (data : list Batch) : Prop :=
  ∃ c, c ∈ all_bonds data ∧ (a = c.1 ∨ a = c.2).


(** ** Example runs *)

Definition mk_edge (a b : Z) (w d : Q) : Edge :=
  {| source_element := a; target_element := b;
     attention_weight := w; distance := d |}.

(** The scenario of the specification: three attention edges between
    hydrogen and carbon, three bonds from hydrogen. *)
Definition spec_scenario : list Batch :=
  [ {| z := [1; 1; 6; 8]%Z;
       rollout := [mk_edge 1 6 (2 # 10) 1; mk_edge 1 6 (4 # 10) (12 # 10);
                   mk_edge 6 1 (6 # 10) (12 # 10)];
       edge_index := [(1, 6); (1, 6); (1, 8)]%Z |} ].

(** Two batches in which all four pairs over hydrogen and carbon occur. *)
Definition dense_run : list Batch :=
  [ {| z := [1; 6; 6; 1; 1]%Z;
       rollout := [mk_edge 1 6 (2 # 10) 1; mk_edge 1 6 (4 # 10) (12 # 10);
                   mk_edge 6 1 (6 # 10) (12 # 10); mk_edge 1 1 (1 # 10) 1];
       edge_index := [(1, 6); (1, 6); (1, 1)]%Z |};
    {| z := [6; 6; 1]%Z;
       rollout := [mk_edge 6 6 (2 # 10) 1];
       edge_index := [(1, 6)]%Z |} ].

(** The dense run with a bond to oxygen, which no attention edge touches. *)
Definition oxygen_bond_run : list Batch :=
  dense_run ++ [ {| z := [1; 8]%Z; rollout := []; edge_index := [(1, 8)]%Z |} ].


(** ** Comparing two runs *)

(** Same shape, the same cells missing, and equal numbers in the others. *)
Definition matrix_equiv (m1 m2 : list (list Float.t)) : Prop :=
  Forall2 (Forall2 (option_Forall2 Qeq)) m1 m2.

Definition snapshot_equiv (r1 r2 : Snapshot) : Prop :=
  zs r1 = zs r2
  ∧ matrix_equiv (attn r1) (attn r2)
  ∧ zs_ref r1 = zs_ref r2
  ∧ matrix_equiv (counts_ref_square r1) (counts_ref_square r2)
  ∧ atoms r1 = atoms r2.

Definition result_equiv (x y : result Snapshot) : Prop :=
  match x, y with
  | Ok r1, Ok r2 => snapshot_equiv r1 r2
  | Raise e1, Raise e2 => e1 = e2
  | _, _ => False
  end.


(** ** Reference notions for the curve *)

(** The raw samples of a snapshot: element pair, attention weight and
    distance of every edge. *)
Definition samples (s : Snapshot) : list (Z * Z * Float.t * Q) :=
  zip (zip (zs_full s) (attn_full s)) (dist s).

(** The two elements of [c], regardless of direction, are [z1] and [z2]. *)
Definition same_unordered_pair (z1 z2 : Z) (c : Z * Z) : Prop :=
  ({[ c.1; c.2 ]} : gset Z) = {[ z1; z2 ]}.

#[global] Instance same_unordered_pair_dec (z1 z2 : Z) (c : Z * Z) :
  Decision (same_unordered_pair z1 z2 c).
Proof. unfold same_unordered_pair. apply _. Defined.

(** Distance and attention weight of the samples of the pair [z1], [z2], in
    their original order. *)
Definition selected_samples (z1 z2 : Z) (s : Snapshot) : list (Q * Float.t) :=
  (λ x, (x.2, x.1.2)) <$> filter (λ x, same_unordered_pair z1 z2 x.1.1) (samples s).

(** A run whose hydrogen-carbon samples are those of the smoothing scenario
    of the specification, two of them at the same distance. *)
Definition curve_run : list Batch :=
  [ {| z := [1; 6; 6; 1]%Z;
       rollout := [mk_edge 1 6 (4 # 10) (12 # 10); mk_edge 6 1 (6 # 10) (12 # 10);
                   mk_edge 1 1 (9 # 10) (5 # 10); mk_edge 1 6 (2 # 10) 1;
                   mk_edge 6 6 (3 # 10) (15 # 10)];
       edge_index := [(1, 6); (6, 1)]%Z |} ].


(** All batches of a run put into one batch. *)
Definition merged (data : list Batch) : list Batch :=
  [ {| z := all_atoms data; rollout := all_edges data;
       edge_index := all_bonds data |} ].


(** ** The three panels of [visualize], lines 157-194 *)

(** Lines 19-25. *)
Definition num2elem : gmap Z string :=
  {[ 1%Z := "H"; 6%Z := "C"; 7%Z := "N"; 8%Z := "O"; 9%Z := "F" ]}.

(** [[num2elem[int(num)] for num in zs]]: a number that is not a key of the
    dictionary raises. *)
Definition element_symbols (zs : list Z) : result (list string) :=
  from_option KeyError (mapM (λ num, num2elem !! num) zs).

(** Line 181: [weights / weights.sum(dim=1, keepdim=True)]. *)
Definition normalize_weights (weights : list (list Float.t)) : list (list Float.t) :=
  (λ row, (λ x, Float.div x (Float.sum row)) <$> row) <$> weights.

(** What the three panels are drawn from: tick labels and matrix of the
    bond probabilities, tick labels and matrix of the attention scores, and
    the atom counts of the bars. *)
Record Panels : Type := {
  elements_ref : list string;
  probs_ref : list (list Float.t);
  elements : list string;
  weights : list (list Float.t);
  bars : gmap Z Z
}.

Definition visualize_panels (normalize_attention : bool) (s : Snapshot)
  : result Panels :=
  elements ← element_symbols (zs s);
  elements_ref ← element_symbols (zs_ref s);
  let weights :=
    if normalize_attention then normalize_weights (attn s) else attn s in
  Ok {| elements_ref := elements_ref; probs_ref := counts_ref_square s;
        elements := elements; weights := weights; bars := atoms s |}.


(** The attention edges between hydrogen and carbon, in either direction. *)
Definition hydrogen_carbon_edges (data : list Batch) : list Edge :=
  filter (λ e, same_unordered_pair 1 6 (element_pair e)) (all_edges data).


(** * [scripts/check_radius.py] *)

(** [radius_graph(pos, r, batch=batch, loop=True, max_num_neighbors=k)] of
    torch_cluster links every atom to at most [k] of the atoms of its own
    sample that lie within the cutoff, itself included.  The geometry enters
    as [within]: for every atom of the batch, the atoms within the cutoff.
    The result is the list of the columns [(source, target)] of
    [edge_index]. *)
Definition radius_graph (within : list (list nat)) (max_num_neighbors : nat)
  : list (nat * nat) :=
  concat (imap (λ i ns, (λ j, (j, i)) <$> take max_num_neighbors ns) within).

(** Lines 43-55: [edge_index1.shape != edge_index2.shape]; both shapes are
    [2 x E]. *)
Definition shape_error (within : list (list nat)) : bool :=
  bool_decide (length (radius_graph within 1024) ≠ length (radius_graph within 32)).

(** Lines 41-58: the loop over the batches of the loader. *)
Definition count_errors (dl : list (list (list nat))) : nat :=
  foldl (λ errors within, if shape_error within then errors + 1 else errors) 0 dl.

(** Lines 60-62: the numbers of the report; [errors / len(dl)] raises a
    [ZeroDivisionError], here [None], when the loader has no batch. *)
Definition report (dl : list (list (list nat))) : option (nat * nat * Q) :=
  let errors := count_errors dl in
  if decide (length dl = 0) then None
  else Some (errors, length dl,
             (inject_Z (Z.of_nat errors) / inject_Z (Z.of_nat (length dl)))%Q).

(** A batch in which some atom has more than 32 atoms within the cutoff. *)
Definition crowded (within : list (list nat)) : Prop :=
  Exists (λ ns, 32 < length ns) within.


(** ** Guessed bonds, lines 51-65 *)

(** One atom of a batch: its entries of [batch.batch] (the index of its
    molecule), [batch.z] and [batch.pos]. *)
Record AtomRow (Pos : Type) : Type :=
  { atom_batch : nat; atom_z : Z; atom_pos : Pos }.
Arguments atom_batch {Pos} _.
Arguments atom_z {Pos} _.
Arguments atom_pos {Pos} _.

Section guess_bonds.
Context {Pos : Type}.

(** [Molecule._guessBonds] of moleculekit: from the element symbols and the
    coordinates of the atoms of one molecule, the bonded pairs, as indices
    into that molecule. *)
Variable guessBonds : list (string * Pos) → list (nat * nat).

(** [batch.z[mask]] and [batch.pos[mask]] for [mask = batch.batch == mol_idx]. *)
Definition molecule (atoms : list (AtomRow Pos)) (mol_idx : nat)
  : list (AtomRow Pos) :=
  filter (λ a, atom_batch a = mol_idx) atoms.

(** Lines 59-62: the molecule is filled with the symbols of its atoms, which
    raises for a number outside [num2elem], and its bonds are guessed. *)
Definition molecule_bonds (mol : list (AtomRow Pos)) : result (list (nat * nat)) :=
  names ← element_symbols (atom_z <$> mol);
  Ok (guessBonds (zip names (atom_pos <$> mol))).

(** [bonds + idx_offset] *)
Definition shift_bonds (idx_offset : nat) (bonds : list (nat * nat))
  : list (nat * nat) :=
  (λ b, (b.1 + idx_offset, b.2 + idx_offset)) <$> bonds.

(** Lines 56-64: one round of the loop, on [idx_offset] and [edge_index]. *)
Definition guess_step (atoms : list (AtomRow Pos))
    (st : result (nat * list (list (nat * nat)))) (mol_idx : nat)
  : result (nat * list (list (nat * nat))) :=
  '(idx_offset, edge_index) ← st;
  bonds ← molecule_bonds (molecule atoms mol_idx);
  Ok (idx_offset + length (molecule atoms mol_idx),
      edge_index ++ [shift_bonds idx_offset bonds]).

(** Lines 53-65: the value given to [batch.edge_index], as the list of its
    columns. *)
Definition guess_edge_index (atoms : list (AtomRow Pos))
  : result (list (nat * nat)) :=
  st ← foldl (guess_step atoms) (Ok (0, [])) (torch_unique (atom_batch <$> atoms));
  torch_cat st.2.

(** The molecules of a loop with the value of [idx_offset] at their round. *)
Fixpoint with_offsets (atoms : list (AtomRow Pos)) (idx_offset : nat)
    (mols : list nat) : list (nat * nat) :=
  match mols with
  | [] => []
  | m :: mols' =>
      (m, idx_offset)
      :: with_offsets atoms (idx_offset + length (molecule atoms m)) mols'
  end.
End guess_bonds.

(** The number of atoms of the molecules before [mol_idx]. *)
Definition atoms_before {Pos} (atoms : list (AtomRow Pos)) (mol_idx : nat) : nat :=
  length (filter (λ a, atom_batch a < mol_idx) atoms).

(** A bond guesser for examples: the first two atoms of a molecule are
    bonded, in both directions. *)
Definition first_two_bonded (mol : list (string * unit)) : list (nat * nat) :=
  if decide (2 ≤ length mol) then [(0, 1); (1, 0)] else [].

Definition two_molecules : list (AtomRow unit) :=
  [ {| atom_batch := 0; atom_z := 1; atom_pos := () |};
    {| atom_batch := 0; atom_z := 6; atom_pos := () |};
    {| atom_batch := 1; atom_z := 8; atom_pos := () |};
    {| atom_batch := 1; atom_z := 1; atom_pos := () |};
    {| atom_batch := 1; atom_z := 1; atom_pos := () |} ].


(** Lines 113-114: [batch.z[batch.edge_index[0]]] and
    [batch.z[batch.edge_index[1]]], column by column. *)
Definition bond_elements {Pos} (atoms : list (AtomRow Pos))
    (edge_index : list (nat * nat)) : result (list (Z * Z)) :=
  zs0 ← gather (atom_z <$> atoms) (fst <$> edge_index);
  zs1 ← gather (atom_z <$> atoms) (snd <$> edge_index);
  Ok (zip zs0 zs1).

(** What an iteration reads from a batch that comes without bonds: the bonds
    are guessed first. *)
Definition guessed_batch {Pos} (guessBonds : list (string * Pos) → list (nat * nat))
    (atoms : list (AtomRow Pos)) (edges : list Edge) : result Batch :=
  bonds ← guess_edge_index guessBonds atoms;
  pairs ← bond_elements atoms bonds;
  Ok {| z := atom_z <$> atoms; rollout := edges; edge_index := pairs |}.


(** ** Further inputs and reference notions *)

(** The three attention edges of the specification's scenario, two hydrogen
    atoms and a carbon atom, no bonds. *)
Definition three_edges_run : list Batch :=
  [ {| z := [1; 1; 6]%Z;
       rollout := [mk_edge 1 6 (2 # 10) 1; mk_edge 1 6 (4 # 10) (12 # 10);
                   mk_edge 6 1 (6 # 10) (12 # 10)];
       edge_index := [] |} ].


(** ** The rounding that the exact numbers leave out

    The tensors of the script hold float32 numbers, and torch_scatter adds
    up the weights and counts the samples in that type.  [scatter_mean32] is
    [scatter_mean] on IEEE-754 single precision numbers with rounding to
    nearest; it is used only to show where the exact numbers and the
    rounded ones part. *)
Module Float32.
Definition t : Type := spec_float.
Definition prec : Z := 24.
Definition emax : Z := 128.

Definition zero : t := S754_zero false.
Definition one : t := S754_finite false 8388608 (-23).
Definition add : t → t → t := SFadd prec emax.
Definition div : t → t → t := SFdiv prec emax.
Definition ltb : t → t → bool := SFltb.
End Float32.

Definition scatter_sum32 (src : list Float32.t) (index : list nat) (dim_size : nat)
  : list Float32.t :=
  foldl (λ out p, alter (λ acc, Float32.add acc p.1) p.2 out)
        (replicate dim_size Float32.zero) (zip src index).

Definition scatter_mean32 (src : list Float32.t) (index : list nat)
  : list Float32.t :=
  let dim_size := match index with [] => 0 | _ => S (max_list index) end in
  let out := scatter_sum32 src index dim_size in
  let ones := replicate (length index) Float32.one in
  let count := scatter_sum32 ones index dim_size in
  let count := (λ c, if Float32.ltb c Float32.one then Float32.one else c) <$> count in
  zip_with Float32.div out count.

(** * Properties *)

(** ** The error monad *)

Lemma bind_Ok {A B} (r : result A) (k : A → result B) (b : B) :
  r ≫= k = Ok b ↔ ∃ a, r = Ok a ∧ k a = Ok b.
Proof.
  destruct r as [a|e]; simpl; split.
  - eauto.
  - intros (a0 & Ha & Hk). by simplify_eq.
  - discriminate.
  - intros (a0 & Ha & _). discriminate.
Qed.

Lemma from_option_Ok {A} (e : Error) (o : option A) (a : A) :
  from_option e o = Ok a ↔ o = Some a.
Proof. destruct o; simpl; split; congruence. Qed.

(** ** [torch.unique] *)

Section unique_facts.
Context `{Lexico A, !StrictOrder (@lexico A _), !TrichotomyT (@lexico A _)}.
Context `{!EqDecision A}.

Lemma insert_sorted_elem (x y : A) (l : list A) :
  y ∈ insert_sorted x l ↔ y = x ∨ y ∈ l.
Proof.
  induction l as [|a l IH]; simpl.
  - rewrite list_elem_of_singleton, elem_of_nil. tauto.
  - destruct (trichotomyT lexico x a) as [[Hlt| ->]|Hgt].
    + rewrite !elem_of_cons. tauto.
    + rewrite !elem_of_cons. tauto.
    + rewrite !elem_of_cons, IH. tauto.
Qed.

Lemma insert_sorted_sorted (x : A) (l : list A) :
  StronglySorted lexico l → StronglySorted lexico (insert_sorted x l).
Proof.
  induction 1 as [|a l Hl IH Ha]; simpl.
  - repeat constructor.
  - destruct (trichotomyT lexico x a) as [[Hlt| ->]|Hgt].
    + constructor; [by constructor|].
      constructor; [done|].
      eapply Forall_impl; [exact Ha|]. intros b Hb. by etrans.
    + by constructor.
    + constructor; [done|].
      apply Forall_forall. intros b Hb.
      apply insert_sorted_elem in Hb as [->|Hb]; [done|].
      by eapply Forall_forall in Ha.
Qed.

Lemma torch_unique_elem (x : A) (l : list A) : x ∈ torch_unique l ↔ x ∈ l.
Proof.
  induction l as [|a l IH]; simpl; [done|].
  rewrite insert_sorted_elem, elem_of_cons, IH. done.
Qed.

Lemma torch_unique_elem_1 (x : A) (l : list A) : x ∈ torch_unique l → x ∈ l.
Proof. apply torch_unique_elem. Qed.

Lemma torch_unique_elem_2 (x : A) (l : list A) : x ∈ l → x ∈ torch_unique l.
Proof. apply torch_unique_elem. Qed.

Lemma torch_unique_sorted (l : list A) : StronglySorted lexico (torch_unique l).
Proof.
  induction l as [|a l IH]; simpl; [constructor|].
  by apply insert_sorted_sorted.
Qed.

Lemma strictly_sorted_NoDup (l : list A) : StronglySorted lexico l → NoDup l.
Proof.
  induction 1 as [|a l Hl IH Ha]; constructor; [|done].
  intros Hin. eapply Forall_forall in Ha; [|exact Hin].
  exact (irreflexivity lexico _ Ha).
Qed.

Lemma torch_unique_NoDup (l : list A) : NoDup (torch_unique l).
Proof. apply strictly_sorted_NoDup, torch_unique_sorted. Qed.

(** A strictly ascending list is determined by its members. *)
Lemma strictly_sorted_ext (l1 l2 : list A) :
  StronglySorted lexico l1 → StronglySorted lexico l2 →
  (∀ x, x ∈ l1 ↔ x ∈ l2) → l1 = l2.
Proof.
  intros H1 H2 Hel.
  apply (StronglySorted_unique_strong lexico); [|done|done|].
  - intros x1 x2 _ _ H12 H21.
    destruct (irreflexivity lexico x1). by etrans.
  - apply NoDup_Permutation; auto using strictly_sorted_NoDup.
Qed.

Lemma torch_unique_ext (l1 l2 : list A) :
  (∀ x, x ∈ l1 ↔ x ∈ l2) → torch_unique l1 = torch_unique l2.
Proof.
  intros Hel. apply strictly_sorted_ext; auto using torch_unique_sorted.
  intros x. by rewrite !torch_unique_elem.
Qed.

Lemma torch_unique_Permutation (l1 l2 : list A) :
  l1 ≡ₚ l2 → torch_unique l1 = torch_unique l2.
Proof. intros Hp. apply torch_unique_ext. intros x. by rewrite Hp. Qed.

Lemma torch_unique_sorted_id (l : list A) :
  StronglySorted lexico l → torch_unique l = l.
Proof.
  intros Hl. apply strictly_sorted_ext; auto using torch_unique_sorted.
  intros x. apply torch_unique_elem.
Qed.

Lemma position_lookup (x : A) (l : list A) :
  x ∈ l → l !! position x l = Some x.
Proof.
  induction l as [|a l IH]; simpl; [by intros ?%elem_of_nil|].
  intros Hin. destruct (decide (x = a)) as [->|Hne]; [done|].
  apply elem_of_cons in Hin as [?|Hin]; [done|]. by apply IH.
Qed.

Lemma position_lt (x : A) (l : list A) : x ∈ l → position x l < length l.
Proof. intros Hin. eapply lookup_lt_Some, position_lookup, Hin. Qed.

Lemma position_NoDup (l : list A) (k : nat) (x : A) :
  NoDup l → l !! k = Some x → position x l = k.
Proof.
  intros Hnd Hk.
  eapply NoDup_lookup; [exact Hnd| |exact Hk].
  apply position_lookup. by eapply list_elem_of_lookup_2.
Qed.

Lemma occurrences_pos (x : A) (l : list A) : x ∈ l → 0 < occurrences x l.
Proof.
  unfold occurrences. intros Hin.
  assert (x ∈ filter (x =.) l) as Hf by (by apply list_elem_of_filter).
  destruct (filter (x =.) l); [by apply elem_of_nil in Hf | simpl; lia].
Qed.

Lemma occurrences_Permutation (x : A) (l1 l2 : list A) :
  l1 ≡ₚ l2 → occurrences x l1 = occurrences x l2.
Proof. unfold occurrences. by intros ->. Qed.
End unique_facts.

(** ** Counting *)

Lemma sum_list_indicator_notin `{EqDecision A} (u : list A) (x : A) :
  x ∉ u → sum_list ((λ a, if decide (a = x) then 1 else 0) <$> u) = 0.
Proof.
  induction u as [|a u IH]; [done|].
  intros Hin%not_elem_of_cons. destruct Hin as [Hne Hin]. csimpl.
  rewrite decide_False by done. by rewrite IH.
Qed.

Lemma sum_list_indicator `{EqDecision A} (u : list A) (x : A) :
  NoDup u → x ∈ u →
  sum_list ((λ a, if decide (a = x) then 1 else 0) <$> u) = 1.
Proof.
  induction 1 as [|a u Ha Hu IH]; [by intros ?%elem_of_nil|].
  intros Hin. csimpl. destruct (decide (a = x)) as [Heq|Hne].
  - subst a. rewrite (sum_list_indicator_notin u x Ha). done.
  - apply elem_of_cons in Hin as [?|Hin]; [congruence|]. by rewrite IH.
Qed.

Lemma sum_list_fmap_add {A} (f g : A → nat) (u : list A) :
  sum_list ((λ a, f a + g a) <$> u) = sum_list (f <$> u) + sum_list (g <$> u).
Proof. induction u as [|a u IH]; csimpl; [done|]. rewrite IH. lia. Qed.

Lemma occurrences_cons `{EqDecision A} (a x : A) (l : list A) :
  occurrences a (x :: l) = (if decide (a = x) then 1 else 0) + occurrences a l.
Proof.
  unfold occurrences. rewrite filter_cons.
  destruct (decide (a = x)); done.
Qed.

(** Over a duplicate-free list that covers [l], the occurrence counts add up
    to the length of [l]. *)
Lemma sum_occurrences `{EqDecision A} (u l : list A) :
  NoDup u → (∀ x, x ∈ l → x ∈ u) →
  sum_list ((λ a, occurrences a l) <$> u) = length l.
Proof.
  intros Hu. induction l as [|x l IH]; intros Hcov.
  - clear. induction u as [|a u IHu]; [done|]. exact IHu.
  - erewrite (list_fmap_ext _ _ u);
      [|intros _ a _; apply occurrences_cons].
    rewrite sum_list_fmap_add, sum_list_indicator, IH; [done| |done|].
    + intros y Hy. apply Hcov. by right.
    + apply Hcov. by left.
Qed.

(** ** The accumulation loop *)

Ltac loop_field :=
  let data := fresh "data" in
  let st := fresh "st" in
  let IH := fresh "IH" in
  intros data; induction data as [|? data IH]; intros st; csimpl;
  [by rewrite ?app_nil_r | rewrite IH; csimpl; by rewrite <- ?app_assoc].

Lemma loop_zs_0 : ∀ data st,
  zs_0 (foldl loop_body st data)
  = zs_0 st ++ ((λ b, source_element <$> rollout b) <$> data).
Proof. loop_field. Qed.

Lemma loop_zs_1 : ∀ data st,
  zs_1 (foldl loop_body st data)
  = zs_1 st ++ ((λ b, target_element <$> rollout b) <$> data).
Proof. loop_field. Qed.

Lemma loop_zs_0_ref : ∀ data st,
  zs_0_ref (foldl loop_body st data)
  = zs_0_ref st ++ ((λ b, fst <$> edge_index b) <$> data).
Proof. loop_field. Qed.

Lemma loop_zs_1_ref : ∀ data st,
  zs_1_ref (foldl loop_body st data)
  = zs_1_ref st ++ ((λ b, snd <$> edge_index b) <$> data).
Proof. loop_field. Qed.

Lemma loop_distances : ∀ data st,
  distances (foldl loop_body st data)
  = distances st ++ ((λ b, distance <$> rollout b) <$> data).
Proof. loop_field. Qed.

Lemma loop_rollout_weights : ∀ data st,
  rollout_weights (foldl loop_body st data)
  = rollout_weights st ++ ((λ b, attention_weight <$> rollout b) <$> data).
Proof. loop_field. Qed.

Lemma loop_atoms_per_elem : ∀ data st,
  atoms_per_elem (foldl loop_body st data)
  = foldl (λ m b, count_atoms (z b) m) (atoms_per_elem st) data.
Proof. loop_field. Qed.

(** ** Atom counts *)

Lemma total_count_comm (j1 j2 : Z) (z1 z2 y : Z) :
  (z1 + (z2 + y) = z2 + (z1 + y))%Z.
Proof. lia. Qed.

Lemma total_count_insert (m : gmap Z Z) (a v : Z) :
  total_count (<[a := v]> m) = (v + total_count (delete a m))%Z.
Proof.
  unfold total_count. rewrite <- insert_delete_eq.
  rewrite map_fold_insert_L; [done| |apply lookup_delete_eq].
  intros. apply total_count_comm; done.
Qed.

Lemma total_count_delete (m : gmap Z Z) (a : Z) :
  total_count m = (default 0 (m !! a) + total_count (delete a m))%Z.
Proof.
  destruct (m !! a) as [v|] eqn:Ha; simpl.
  - unfold total_count. erewrite map_fold_delete_L; [done| |exact Ha].
    intros. apply total_count_comm; done.
  - by rewrite delete_id.
Qed.

Lemma add_count_eq (zb : list Z) (m : gmap Z Z) (a : Z) :
  add_count zb m a = <[a := (default 0 (m !! a) + count_elem a zb)%Z]> m.
Proof.
  unfold add_count. destruct (m !! a) as [v|] eqn:Ha.
  - rewrite decide_True by eauto. by rewrite (lookup_total_correct m a v).
  - rewrite decide_False by (intros [? ?]; congruence).
    rewrite lookup_total_insert_eq. by rewrite insert_insert_eq.
Qed.

Lemma total_count_add_count (zb : list Z) (m : gmap Z Z) (a : Z) :
  total_count (add_count zb m a) = (total_count m + count_elem a zb)%Z.
Proof.
  rewrite add_count_eq, total_count_insert, (total_count_delete m a). lia.
Qed.

Lemma add_count_lookup (zb : list Z) (m : gmap Z Z) (a e : Z) :
  add_count zb m a !! e
  = if decide (e = a) then Some (default 0 (m !! e) + count_elem e zb)%Z
    else m !! e.
Proof.
  rewrite add_count_eq. destruct (decide (e = a)) as [->|Hne].
  - by rewrite lookup_insert_eq.
  - by rewrite lookup_insert_ne.
Qed.

Lemma foldl_add_count_total (zb u : list Z) (m : gmap Z Z) :
  total_count (foldl (add_count zb) m u)
  = (total_count m + Z.of_nat (sum_list ((λ a, occurrences a zb) <$> u)))%Z.
Proof.
  revert m. induction u as [|a u IH]; intros m; csimpl; [lia|].
  rewrite IH, total_count_add_count. unfold count_elem. lia.
Qed.

Lemma foldl_add_count_lookup (zb u : list Z) (m : gmap Z Z) (e : Z) :
  NoDup u →
  foldl (add_count zb) m u !! e
  = if decide (e ∈ u) then Some (default 0 (m !! e) + count_elem e zb)%Z
    else m !! e.
Proof.
  intros Hu. revert m. induction Hu as [|a u Ha Hu IH]; intros m; csimpl.
  - done.
  - rewrite IH, add_count_lookup.
    destruct (decide (e = a)) as [->|Hne].
    + rewrite decide_False by done. rewrite decide_True; [done|]. by left.
    + destruct (decide (e ∈ u)) as [Hin|Hin].
      * rewrite decide_True; [done|]. by right.
      * rewrite decide_False; [done|]. by intros [?|?]%elem_of_cons.
Qed.

(** One batch adds its number of atoms to the total. *)
Lemma count_atoms_total (zb : list Z) (m : gmap Z Z) :
  total_count (count_atoms zb m) = (total_count m + Z.of_nat (length zb))%Z.
Proof.
  unfold count_atoms. rewrite foldl_add_count_total, sum_occurrences; [done| |].
  - apply torch_unique_NoDup.
  - intros x. by rewrite torch_unique_elem.
Qed.

(** One batch adds to every element it contains the number of its atoms of
    that element, and leaves the other entries alone. *)
Lemma count_atoms_lookup (zb : list Z) (m : gmap Z Z) (e : Z) :
  count_atoms zb m !! e
  = if decide (e ∈ zb) then Some (default 0 (m !! e) + count_elem e zb)%Z
    else m !! e.
Proof.
  unfold count_atoms. rewrite foldl_add_count_lookup by apply torch_unique_NoDup.
  destruct (decide (e ∈ zb)) as [Hin|Hin].
  - rewrite decide_True; [done|]. by apply torch_unique_elem.
  - rewrite decide_False; [done|]. by rewrite torch_unique_elem.
Qed.

Lemma occurrences_notin `{EqDecision A} (x : A) (l : list A) :
  x ∉ l → occurrences x l = 0.
Proof.
  unfold occurrences. intros Hin.
  destruct (filter (x =.) l) as [|y l'] eqn:Hf; [done|].
  assert (y ∈ filter (x =.) l) as Hy by (rewrite Hf; left).
  apply list_elem_of_filter in Hy as [<- Hy]. done.
Qed.

Lemma count_batches_total (data : list Batch) (m : gmap Z Z) :
  total_count (foldl (λ m b, count_atoms (z b) m) m data)
  = (total_count m + Z.of_nat (length (all_atoms data)))%Z.
Proof.
  revert m. unfold all_atoms.
  induction data as [|b data IH]; intros m; csimpl; [lia|].
  rewrite IH, count_atoms_total, length_app. lia.
Qed.

Lemma summed_count_notin (data : list Batch) (e : Z) :
  e ∉ all_atoms data → summed_count e data = 0%Z.
Proof.
  unfold all_atoms. induction data as [|b data IH]; csimpl; [done|].
  intros Hin. rewrite IH.
  - unfold count_elem. rewrite occurrences_notin; [done|].
    intros Hb. apply Hin, elem_of_app. by left.
  - intros Hd. apply Hin, elem_of_app. by right.
Qed.

Lemma count_batches_lookup (data : list Batch) (m : gmap Z Z) (e : Z) :
  foldl (λ m b, count_atoms (z b) m) m data !! e
  = if decide (e ∈ all_atoms data)
    then Some (default 0 (m !! e) + summed_count e data)%Z
    else m !! e.
Proof.
  revert m.
  induction data as [|b data IH]; intros m; [done|].
  change (all_atoms (b :: data)) with (z b ++ all_atoms data).
  csimpl. rewrite IH, count_atoms_lookup.
  destruct (decide (e ∈ z b)) as [Hb|Hb],
           (decide (e ∈ all_atoms data)) as [Hd|Hd].
  - rewrite decide_True by (apply elem_of_app; by left).
    simpl. f_equal. lia.
  - rewrite decide_True by (apply elem_of_app; by left).
    rewrite (summed_count_notin data e Hd). f_equal. lia.
  - rewrite decide_True by (apply elem_of_app; by right).
    unfold count_elem. rewrite (occurrences_notin e (z b)) by done.
    done.
  - rewrite decide_False; [done|]. by intros [?|?]%elem_of_app.
Qed.

Lemma loop_atoms_lookup (data : list Batch) (e : Z) :
  atoms_per_elem (foldl loop_body init data) !! e
  = if decide (e ∈ all_atoms data) then Some (summed_count e data) else None.
Proof.
  rewrite loop_atoms_per_elem, count_batches_lookup. case_decide; [|done].
  unfold init; simpl. by rewrite lookup_empty.
Qed.

(** C7. The values of the final element counts add up to the number of atoms
    of all processed batches, and the entry of an element is the sum of its
    per-batch counts over all batches (absent when no batch has the element):
    a later batch adds to the entry, it never replaces it. *)
Theorem atom_counts_summed (data : list Batch) :
  let counts := atoms_per_elem (foldl loop_body init data) in
  total_count counts = Z.of_nat (length (all_atoms data))
  ∧ ∀ e : Z,
      counts !! e = if decide (e ∈ all_atoms data)
                    then Some (summed_count e data) else None.
Proof.
  simpl. split.
  - by rewrite loop_atoms_per_elem, count_batches_total.
  - apply loop_atoms_lookup.
Qed.

(** ** Reshaping and the Cartesian square *)

Lemma reshape_Ok {A} (rows cols : nat) (t : list A) (m : list (list A)) :
  reshape rows cols t = Ok m ↔ length t = rows * cols ∧ m = chunks rows cols t.
Proof.
  unfold reshape. case_decide; split.
  - intros [= <-]. done.
  - intros [_ ->]. done.
  - discriminate.
  - intros [? _]. done.
Qed.

Lemma reshape_Raise {A} (rows cols : nat) (t : list A) (e : Error) :
  reshape rows cols t = Raise e ↔ length t ≠ rows * cols ∧ e = ShapeError.
Proof.
  unfold reshape. case_decide; split.
  - discriminate.
  - intros [? _]. done.
  - intros [= <-]. done.
  - intros [_ ->]. done.
Qed.

Lemma chunks_lookup {A} (rows cols : nat) (t : list A) (i : nat) :
  i < rows → chunks rows cols t !! i = Some (take cols (drop (i * cols) t)).
Proof.
  revert t i. induction rows as [|r IH]; intros t i Hi; [lia|].
  destruct i as [|i]; simpl.
  - done.
  - rewrite IH by lia. by rewrite drop_drop.
Qed.

(** Row-major addressing: [m[i, j]] of the reshaped tensor is entry
    [i * cols + j] of the flat one. *)
Lemma cell_chunks {A} (rows cols : nat) (t : list A) (i j : nat) :
  i < rows → j < cols →
  cell (chunks rows cols t) i j = t !! (i * cols + j).
Proof.
  intros Hi Hj. unfold cell. rewrite chunks_lookup by done. simpl.
  rewrite lookup_take_lt by done. by rewrite lookup_drop.
Qed.

Lemma cprod_cons {A B} (a : A) (l : list A) (k : list B) :
  cprod (a :: l) k = ((a,.) <$> k) ++ cprod l k.
Proof. done. Qed.

Lemma length_cprod {A B} (l : list A) (k : list B) :
  length (cprod l k) = length l * length k.
Proof.
  induction l as [|a l IH]; [done|].
  rewrite cprod_cons, length_app, length_fmap, IH. simpl. lia.
Qed.

Lemma cprod_lookup {A B} (l : list A) (k : list B) (i j : nat) (a : A) (b : B) :
  l !! i = Some a → k !! j = Some b →
  cprod l k !! (i * length k + j) = Some (a, b).
Proof.
  revert i. induction l as [|x l IH]; intros i Hi Hj; [done|].
  rewrite cprod_cons. destruct i as [|i]; simpl in Hi.
  - injection Hi as ->. change (0 * length k + j) with j.
    rewrite lookup_app_l.
    + by rewrite list_lookup_fmap, Hj.
    + rewrite length_fmap. by eapply lookup_lt_Some.
  - rewrite lookup_app_r by (rewrite length_fmap; simpl; lia).
    rewrite length_fmap.
    replace (S i * length k + j - length k) with (i * length k + j)
      by (simpl; lia).
    by apply IH.
Qed.

Lemma cprod_NoDup {A B} (l : list A) (k : list B) :
  NoDup l → NoDup k → NoDup (cprod l k).
Proof.
  intros Hl Hk. induction Hl as [|a l Ha Hl IH]; [constructor|].
  rewrite cprod_cons. apply NoDup_app. split_and!.
  - apply NoDup_fmap_2; [|done]. by intros ?? [= ->].
  - intros [x y] [b [[= -> ->] Hb]]%list_elem_of_fmap.
    intros [Hx _]%list_elem_of_cprod. done.
  - done.
Qed.

(** The square of a strictly ascending list of integers is strictly
    ascending in the lexicographic order. *)
Lemma cprod_sorted (l k : list Z) :
  StronglySorted lexico l → StronglySorted lexico k →
  StronglySorted lexico (cprod l k).
Proof.
  intros Hl Hk. induction Hl as [|a l Hl IH Ha]; [constructor|].
  rewrite cprod_cons. apply StronglySorted_app_2.
  - intros [x1 y1] [x2 y2] [b1 [[= -> ->] _]]%list_elem_of_fmap.
    intros [Hx _]%list_elem_of_cprod. simpl in Hx.
    left. simpl. eapply Forall_forall in Ha; [exact Ha | exact Hx].
  - eapply StronglySorted_fmap; [|exact Hk].
    intros y1 y2 Hy. right. done.
  - exact IH.
Qed.

(** ** Lists *)

Lemma elem_of_length_pos {A} (x : A) (l : list A) : x ∈ l → 0 < length l.
Proof. destruct l; [by intros ?%elem_of_nil | simpl; lia]. Qed.

Lemma zip_fmap_fmap {A B C} (f : A → B) (g : A → C) (l : list A) :
  zip (f <$> l) (g <$> l) = (λ x, (f x, g x)) <$> l.
Proof. induction l as [|x l IH]; csimpl; [done|]. by rewrite IH. Qed.

Lemma filter_fmap {A B} (f : A → B) (P : B → Prop) `{!∀ y, Decision (P y)}
    (l : list A) :
  filter P (f <$> l) = f <$> filter (λ x, P (f x)) l.
Proof.
  induction l as [|x l IH]; csimpl; [done|].
  rewrite !filter_cons, IH. by destruct (decide (P (f x))).
Qed.

Lemma filter_ext_in {A} (P1 P2 : A → Prop)
    `{!∀ x, Decision (P1 x), !∀ x, Decision (P2 x)} (l : list A) :
  (∀ x, x ∈ l → P1 x ↔ P2 x) → filter P1 l = filter P2 l.
Proof.
  induction l as [|x l IH]; intros Hext; [done|].
  rewrite !filter_cons, IH by (intros y Hy; apply Hext; by right).
  assert (P1 x ↔ P2 x) as Hx by (apply Hext; by left).
  destruct (decide (P1 x)), (decide (P2 x)); tauto || done.
Qed.

Lemma bind_fmap {A B C} (f : B → C) (g : A → list B) (l : list A) :
  l ≫= (λ a, f <$> g a) = f <$> (l ≫= g).
Proof.
  induction l as [|a l IH]; csimpl; [done|]. by rewrite IH, fmap_app.
Qed.

Lemma concat_fmap_bind {A B C} (f : B → C) (g : A → list B) (l : list A) :
  concat ((λ a, f <$> g a) <$> l) = f <$> (l ≫= g).
Proof.
  induction l as [|a l IH]; csimpl; [done|]. by rewrite IH, fmap_app.
Qed.

(** ** Scatter *)

Lemma foldl_add_finite (a : Q) (qs : list Q) :
  foldl Float.add (Some a) (Some <$> qs) = Some (foldl Qplus a qs).
Proof. revert a. induction qs as [|q qs IH]; intros a; csimpl; [done|]. apply IH. Qed.

Lemma Float_sum_finite (qs : list Q) : Float.sum (Some <$> qs) = Some (Qsum qs).
Proof. apply foldl_add_finite. Qed.

Lemma Qplus_inject_Z (a b : Z) : (inject_Z a + inject_Z b)%Q = inject_Z (a + b).
Proof. unfold Qplus, inject_Z. simpl. f_equal. lia. Qed.

Lemma foldl_Qplus_inject_Z (a : Z) (cs : list Z) :
  foldl Qplus (inject_Z a) (inject_Z <$> cs) = inject_Z (foldl Z.add a cs).
Proof.
  revert a. induction cs as [|c cs IH]; intros a; csimpl; [done|].
  by rewrite Qplus_inject_Z, IH.
Qed.

Lemma foldl_Qplus_ones (a : Z) (n : nat) :
  foldl Qplus (inject_Z a) (replicate n 1%Q) = inject_Z (a + Z.of_nat n).
Proof.
  revert a. induction n as [|n IH]; intros a; simpl.
  - f_equal. lia.
  - change 1%Q with (inject_Z 1). rewrite Qplus_inject_Z, IH. f_equal. lia.
Qed.

Lemma foldl_scatter_lookup (ps : list (Float.t * nat)) (out : list Float.t) (k : nat) :
  foldl (λ out p, alter (λ acc, Float.add acc p.1) p.2 out) out ps !! k
  = (λ acc, foldl Float.add acc (fst <$> filter (λ p, p.2 = k) ps)) <$> out !! k.
Proof.
  revert out. induction ps as [|p ps IH]; intros out; csimpl.
  - by destruct (out !! k).
  - rewrite IH, filter_cons. destruct (decide (p.2 = k)) as [<-|Hne].
    + rewrite list_lookup_alter_eq. by destruct (out !! p.2).
    + by rewrite list_lookup_alter_ne.
Qed.

Lemma foldl_scatter_length (ps : list (Float.t * nat)) (out : list Float.t) :
  length (foldl (λ out p, alter (λ acc, Float.add acc p.1) p.2 out) out ps)
  = length out.
Proof.
  revert out. induction ps as [|p ps IH]; intros out; csimpl; [done|].
  by rewrite IH, length_alter.
Qed.

Lemma length_scatter_sum (src : list Float.t) (index : list nat) (n : nat) :
  length (scatter_sum src index n) = n.
Proof. unfold scatter_sum. by rewrite foldl_scatter_length, length_replicate. Qed.

Lemma scatter_sum_lookup (src : list Float.t) (index : list nat) (n k : nat) :
  k < n →
  scatter_sum src index n !! k
  = Some (Float.sum (fst <$> filter (λ p, p.2 = k) (zip src index))).
Proof.
  intros Hk. unfold scatter_sum.
  by rewrite foldl_scatter_lookup, lookup_replicate_2.
Qed.

Lemma zip_replicate_l {A B} (x : A) (l : list B) :
  zip (replicate (length l) x) l = (x,.) <$> l.
Proof. induction l as [|y l IH]; csimpl; [done|]. by rewrite IH. Qed.

Lemma Qsum_ones (n : nat) : Qsum (replicate n 1%Q) = inject_Z (Z.of_nat n).
Proof. unfold Qsum. change 0%Q with (inject_Z 0). by rewrite foldl_Qplus_ones. Qed.

Lemma inject_Z_pos_nonzero (n : nat) : 0 < n → Qeq_bool (inject_Z (Z.of_nat n)) 0 = false.
Proof.
  intros Hn. apply not_true_is_false. intros Heq%Qeq_bool_iff.
  unfold Qeq in Heq. simpl in Heq. lia.
Qed.

Lemma inject_Z_pos_not_below_one (n : nat) :
  0 < n → Float.ltb (Some (inject_Z (Z.of_nat n))) Float.one = false.
Proof.
  intros Hn. unfold Float.ltb, Float.one. apply negb_false_iff, Qle_bool_iff.
  change 1%Q with (inject_Z 1). rewrite <- Zle_Qle. lia.
Qed.

Lemma dim_size_eq (ix : list nat) (n : nat) :
  (∀ i, i ∈ ix → i < n) → (0 < n → n - 1 ∈ ix) →
  match ix with [] => 0 | _ => S (max_list ix) end = n.
Proof.
  intros Hlt Hlast. destruct ix as [|i0 ix].
  - destruct n as [|n]; [done|].
    exfalso. eapply elem_of_nil, Hlast. lia.
  - pose proof (max_list_elem_of (i0 :: ix) ltac:(done)) as Hmax.
    apply Hlt in Hmax.
    assert (n - 1 ≤ max_list (i0 :: ix)) by (apply max_list_elem_of_le, Hlast; lia).
    lia.
Qed.

(** *** The attention matrix before reshaping *)

Section attention.
Variable edges : list Edge.

Let pairs : list (Z * Z) := element_pair <$> edges.
Let unique_pairs : list (Z * Z) := (unique_inverse pairs).1.
Let index : list nat := (unique_inverse pairs).2.
Let src : list Float.t := Some <$> (attention_weight <$> edges).

Lemma index_filter (k : nat) (c : Z * Z) :
  unique_pairs !! k = Some c →
  filter (λ e, position (element_pair e) unique_pairs = k) edges
  = filter (λ e, element_pair e = c) edges.
Proof.
  intros Hk. apply filter_ext_in. intros e He.
  assert (element_pair e ∈ unique_pairs) as Hin.
  { apply torch_unique_elem, list_elem_of_fmap. eauto. }
  split.
  - intros <-. apply position_lookup in Hin. congruence.
  - intros ->. eapply position_NoDup; [apply torch_unique_NoDup | exact Hk].
Qed.

Lemma index_dim_size :
  match index with [] => 0 | _ => S (max_list index) end = length unique_pairs.
Proof.
  apply dim_size_eq.
  - intros i (c & -> & Hc)%list_elem_of_fmap.
    apply position_lt. by apply torch_unique_elem.
  - intros Hpos.
    destruct (unique_pairs !! (length unique_pairs - 1)) as [c|] eqn:Hc.
    + apply list_elem_of_fmap. exists c. split.
      * symmetry. eapply position_NoDup; [apply torch_unique_NoDup | exact Hc].
      * apply (torch_unique_elem c), list_elem_of_lookup_2 with (length unique_pairs - 1), Hc.
    + apply lookup_ge_None in Hc. lia.
Qed.

Lemma length_scatter_mean : length (scatter_mean src index) = length unique_pairs.
Proof.
  unfold scatter_mean. rewrite index_dim_size.
  rewrite length_zip_with, length_fmap, !length_scatter_sum. lia.
Qed.

(** Entry [k] of the scattered means is the arithmetic mean of the weights
    of the edges whose element pair is the [k]-th distinct pair. *)
Lemma scatter_mean_lookup (k : nat) (a b : Z) :
  unique_pairs !! k = Some (a, b) →
  scatter_mean src index !! k = Some (Some (Qmean (weights_of a b edges))).
Proof.
  intros Hk. pose proof (lookup_lt_Some _ _ _ Hk) as Hlt.
  unfold scatter_mean. rewrite index_dim_size.
  rewrite lookup_zip_with, list_lookup_fmap, !scatter_sum_lookup by done.
  unfold src, index, pairs, unique_inverse. simpl.
  rewrite zip_replicate_l.
  rewrite <- !list_fmap_compose, zip_fmap_fmap.
  rewrite !filter_fmap, <- !list_fmap_compose. simpl.
  pose proof (index_filter k (a, b) Hk) as Hf.
  unfold unique_pairs, pairs, unique_inverse in Hf. simpl in Hf. rewrite Hf.
  rewrite (list_fmap_ext _ (Some ∘ attention_weight) _) by done.
  rewrite (list_fmap_compose attention_weight Some), Float_sum_finite.
  rewrite (const_fmap _ _ (Some 1%Q)) by done.
  rewrite <- fmap_replicate.
  rewrite Float_sum_finite, Qsum_ones.
  fold (weights_of a b edges).
  assert (length (filter (λ e, element_pair e = (a, b)) edges)
          = length (weights_of a b edges)) as Hlen.
  { unfold weights_of. by rewrite length_fmap. }
  rewrite Hlen.
  assert (0 < length (weights_of a b edges)) as Hpos.
  { rewrite <- Hlen.
    assert ((a, b) ∈ element_pair <$> edges) as Hin.
    { apply torch_unique_elem. eapply list_elem_of_lookup_2, Hk. }
    apply list_elem_of_fmap in Hin as (e & He & Hin).
    assert (e ∈ filter (λ e, element_pair e = (a, b)) edges) as Hfe
      by (by apply list_elem_of_filter).
    by eapply elem_of_length_pos. }
  rewrite inject_Z_pos_not_below_one by done. simpl.
  by rewrite inject_Z_pos_nonzero.
Qed.
End attention.

(** ** The reduction in closed form *)

Lemma torch_cat_fmap {A B} (f : A → list B) (data : list A) :
  torch_cat ([] ++ (f <$> data))
  = if decide (data = []) then Raise EmptyCat else Ok (data ≫= f).
Proof.
  destruct data as [|a data].
  - rewrite decide_True by done. reflexivity.
  - rewrite decide_False by done. csimpl. do 2 f_equal.
    induction data as [|b data IH]; csimpl; [done|]. by rewrite IH.
Qed.

Lemma extract_data_unfold (data : list Batch) :
  let edges := all_edges data in
  let pairs := element_pair <$> edges in
  let elements := torch_unique (flatten pairs) in
  let n := length elements in
  let unique_pairs := torch_unique pairs in
  let bonds := torch_unique (all_bonds data) in
  extract_data data =
    if decide (data = []) then Raise EmptyCat
    else if decide (length unique_pairs = n * n) then
      zs ← from_option IndexError (chunks n n (snd <$> unique_pairs) !! 0);
      index_ref ← apply_z2idx (make_z2idx (sort_values elements)) bonds;
      Ok {| zs := zs;
            attn := chunks n n
                      (scatter_mean (Some <$> (attention_weight <$> edges))
                                    (unique_inverse pairs).2);
            zs_ref := torch_unique (fst <$> bonds);
            counts_ref_square :=
              index_put n index_ref
                (normalize_rows bonds
                   (Float.of_nat <$> (unique_counts (all_bonds data)).2));
            atoms := atoms_per_elem (foldl loop_body init data);
            zs_full := pairs;
            attn_full := Some <$> (attention_weight <$> edges);
            dist := distance <$> edges |}
    else Raise ShapeError.
Proof.
  intros edges pairs elements n unique_pairs bonds. unfold extract_data.
  rewrite loop_zs_0, loop_zs_1, loop_rollout_weights, loop_zs_0_ref,
    loop_zs_1_ref, loop_distances.
  change (zs_0 init) with (@nil (list Z)).
  change (zs_1 init) with (@nil (list Z)).
  change (zs_0_ref init) with (@nil (list Z)).
  change (zs_1_ref init) with (@nil (list Z)).
  change (rollout_weights init) with (@nil (list Q)).
  change (distances init) with (@nil (list Q)).
  rewrite !torch_cat_fmap.
  destruct (decide (data = [])) as [Hd|Hd]; [reflexivity|].
  cbn [mbind result_bind].
  rewrite !bind_fmap. unfold torch_stack. rewrite zip_fmap_fmap, zip_fst_snd.
  fold (all_edges data) (all_bonds data). fold edges.
  change (λ x : Edge, (source_element x, target_element x)) with element_pair.
  fold pairs. unfold unique_inverse, unique_counts.
  fold elements. fold n. fold unique_pairs. fold bonds.
  unfold reshape.
  pose proof (length_scatter_mean edges) as Hlen.
  unfold unique_inverse in Hlen. cbn [fst snd] in Hlen.
  fold pairs in Hlen. fold unique_pairs in Hlen. rewrite Hlen.
  rewrite !length_fmap.
  destruct (decide (length unique_pairs = n * n)) as [Hsq|Hsq]; [|reflexivity].
  cbn [mbind result_bind].
  destruct (from_option IndexError (chunks n n unique_pairs.*2 !! 0))
    as [zs0|e]; reflexivity.
Qed.

(** ** The element set and the square of pairs *)

Lemma elem_of_flatten (t : list (Z * Z)) (a : Z) :
  a ∈ flatten t ↔ ∃ c, c ∈ t ∧ (a = c.1 ∨ a = c.2).
Proof.
  unfold flatten. rewrite elem_of_app, !list_elem_of_fmap. split.
  - intros [(c & -> & Hc)|(c & -> & Hc)]; exists c; auto.
  - intros (c & Hc & [-> | ->]); [left|right]; exists c; auto.
Qed.

Section element_set.
Variable pairs : list (Z * Z).

Let elements : list Z := torch_unique (flatten pairs).
Let n : nat := length elements.
Let unique_pairs : list (Z * Z) := torch_unique pairs.

Lemma unique_pairs_elements (c : Z * Z) :
  c ∈ unique_pairs → c.1 ∈ elements ∧ c.2 ∈ elements.
Proof.
  intros Hc%torch_unique_elem_1.
  split; apply torch_unique_elem_2, elem_of_flatten; exists c; auto.
Qed.

Lemma unique_pairs_sub : unique_pairs ⊆+ cprod elements elements.
Proof.
  apply NoDup_submseteq; [apply torch_unique_NoDup|].
  intros c Hc. apply list_elem_of_cprod. by apply unique_pairs_elements.
Qed.

(** The distinct pairs fill an [n x n] square exactly when they are all
    the pairs of observed elements, and then in row-major order. *)
Lemma square_cprod :
  length unique_pairs = n * n → unique_pairs = cprod elements elements.
Proof.
  intros Hlen. apply strictly_sorted_ext.
  - apply torch_unique_sorted.
  - apply cprod_sorted; apply torch_unique_sorted.
  - intros c. apply elem_of_Permutation_proper.
    apply submseteq_length_Permutation; [apply unique_pairs_sub|].
    rewrite length_cprod. fold n. lia.
Qed.

Lemma square_iff :
  length unique_pairs = n * n
  ↔ ∀ a b, a ∈ elements → b ∈ elements → (a, b) ∈ pairs.
Proof.
  split.
  - intros Hsq%square_cprod a b Ha Hb.
    apply (torch_unique_elem (a, b)). fold unique_pairs. rewrite Hsq.
    by apply list_elem_of_cprod.
  - intros Hall.
    assert (unique_pairs = cprod elements elements) as ->.
    { apply strictly_sorted_ext.
      - apply torch_unique_sorted.
      - apply cprod_sorted; apply torch_unique_sorted.
      - intros [a b]. rewrite list_elem_of_cprod. split.
        + apply unique_pairs_elements.
        + intros [Ha Hb]. apply torch_unique_elem. by apply Hall. }
    by rewrite length_cprod.
Qed.

Lemma first_row_elements :
  unique_pairs = cprod elements elements → 0 < n →
  chunks n n (snd <$> unique_pairs) !! 0 = Some elements.
Proof.
  intros -> Hn. rewrite chunks_lookup by done. simpl. f_equal.
  destruct elements as [|a l] eqn:He; [simpl in *; subst n; simpl in Hn; lia|].
  rewrite cprod_cons, fmap_app, <- list_fmap_compose.
  rewrite (list_fmap_ext _ id (a :: l)) by done.
  rewrite list_fmap_id, drop_0. subst n. by rewrite take_app_length.
Qed.
End element_set.

(** ** The index dictionary *)

Lemma sort_values_sorted_id (l : list Z) :
  StronglySorted lexico l → sort_values l = l.
Proof.
  intros Hl. unfold sort_values. apply (Sorted_unique Z.le).
  - apply Sorted_merge_sort. apply _.
  - apply StronglySorted_Sorted.
    induction Hl as [|a l Hl IH Ha]; constructor; [done|].
    eapply Forall_impl; [exact Ha|].
    intros y Hy. unfold lexico, Z_lexico in Hy. lia.
  - apply merge_sort_Permutation.
Qed.

Lemma foldl_z2idx_lookup (l : list Z) (s : nat) (m : gmap Z nat) (x : Z) :
  NoDup l →
  foldl (λ m p, <[p.2 := p.1]> m) m (zip (seq s (length l)) l) !! x
  = if decide (x ∈ l) then Some (s + position x l) else m !! x.
Proof.
  intros Hl. revert s m. induction Hl as [|a l Ha Hl IH]; intros s m; csimpl.
  - done.
  - rewrite IH. destruct (decide (x = a)) as [->|Hne].
    + rewrite decide_False by done. rewrite decide_True by left.
      rewrite lookup_insert_eq. f_equal. lia.
    + destruct (decide (x ∈ l)) as [Hin|Hin].
      * rewrite decide_True by (by right). f_equal. lia.
      * rewrite decide_False by (by intros [?|?]%elem_of_cons).
        by rewrite lookup_insert_ne.
Qed.

Lemma make_z2idx_lookup (l : list Z) (x : Z) :
  NoDup l →
  make_z2idx l !! x = if decide (x ∈ l) then Some (position x l) else None.
Proof.
  intros Hl. unfold make_z2idx. rewrite foldl_z2idx_lookup by done.
  case_decide; [done|]. apply lookup_empty.
Qed.

Lemma apply_z2idx_Ok (l : list Z) (t : list (Z * Z)) (ix : list (nat * nat)) :
  NoDup l →
  apply_z2idx (make_z2idx l) t = Ok ix
  ↔ (∀ c, c ∈ t → c.1 ∈ l ∧ c.2 ∈ l)
    ∧ ix = (λ c, (position c.1 l, position c.2 l)) <$> t.
Proof.
  intros Hl. unfold apply_z2idx. rewrite from_option_Ok, mapM_Some.
  revert ix. induction t as [|c t IH]; intros ix.
  - split.
    + intros ->%Forall2_nil_inv_l. split; [by intros c ?%elem_of_nil | done].
    + intros [_ ->]. constructor.
  - split.
    + intros (i & ix' & Hc & Ht & ->)%Forall2_cons_inv_l.
      apply IH in Ht as [Hall ->].
      rewrite !make_z2idx_lookup in Hc by done.
      destruct (decide (c.1 ∈ l)) as [H1|]; [|done].
      destruct (decide (c.2 ∈ l)) as [H2|]; [|done].
      simpl in Hc. injection Hc as <-. split; [|done].
      intros c' [->|Hc']%elem_of_cons; auto.
    + intros [Hall ->]. csimpl. constructor.
      * destruct (Hall c ltac:(left)) as [H1 H2].
        rewrite !make_z2idx_lookup by done.
        rewrite !decide_True by done. done.
      * apply IH. split; [|done]. intros c' Hc'. apply Hall. by right.
Qed.

Lemma apply_z2idx_Raise (m : gmap Z nat) (t : list (Z * Z)) (e : Error) :
  apply_z2idx m t = Raise e → e = KeyError.
Proof. unfold apply_z2idx. destruct (mapM _ t); simpl; congruence. Qed.

(** ** Row normalisation *)

Section normalize.
Variable total : Z → Q.

Lemma masked_pending (done : list Z) (a : Z) (zs_ref : list (Z * Z)) (orig : list Q) :
  a ∉ done →
  masked (source_mask a zs_ref) (zip_with (normalized_entry total done) zs_ref orig)
  = Some <$> masked (source_mask a zs_ref) orig.
Proof.
  intros Ha. revert orig. unfold masked, source_mask.
  induction zs_ref as [|c zs_ref IH]; intros [|q orig]; csimpl; try done.
  rewrite !filter_cons. simpl. case_bool_decide as Hc.
  - rewrite !decide_True by done. csimpl. rewrite IH. f_equal.
    unfold normalized_entry. rewrite decide_False; [done|]. by rewrite Hc.
  - rewrite !decide_False by done. apply IH.
Qed.

Lemma masked_update_row (done : list Z) (a : Z) (zs_ref : list (Z * Z)) (orig : list Q) :
  a ∉ done →
  masked_update (source_mask a zs_ref) (λ x, Float.div x (Some (total a)))
    (zip_with (normalized_entry total done) zs_ref orig)
  = zip_with (normalized_entry total (done ++ [a])) zs_ref orig.
Proof.
  intros Ha. revert orig. unfold masked_update, source_mask.
  induction zs_ref as [|c zs_ref IH]; intros [|q orig]; csimpl; try done.
  rewrite IH. f_equal. unfold normalized_entry. case_bool_decide as Hc.
  - rewrite (decide_False (P := c.1 ∈ done)) by (by rewrite Hc).
    rewrite decide_True; [by rewrite Hc|]. apply elem_of_app. right. rewrite Hc. left.
  - destruct (decide (c.1 ∈ done)) as [Hin|Hin].
    + rewrite decide_True; [done|]. apply elem_of_app. by left.
    + rewrite decide_False; [done|].
      intros [?|?%list_elem_of_singleton]%elem_of_app; done.
Qed.
End normalize.

Lemma zip_with_pending (total : Z → Q) (zs_ref : list (Z * Z)) (orig : list Q) :
  length zs_ref = length orig →
  zip_with (normalized_entry total []) zs_ref orig = Some <$> orig.
Proof.
  revert orig. induction zs_ref as [|c zs_ref IH]; intros [|q orig] Hlen;
    csimpl in *; try done.
  rewrite IH by lia. done.
Qed.

(** After the rows in [done] have been divided, every count of such a row is
    the original count over the original row total, and the others are
    untouched. *)
Lemma normalize_fold (zs_ref : list (Z * Z)) (orig : list Q) (done : list Z) :
  length zs_ref = length orig → NoDup done →
  foldl (normalize_row zs_ref) (Some <$> orig) done
  = zip_with (normalized_entry (row_total zs_ref orig) done) zs_ref orig.
Proof.
  intros Hlen. induction done as [|a done IH] using rev_ind; intros Hnd.
  - by rewrite zip_with_pending.
  - apply NoDup_app in Hnd as (Hnd & Hdisj & _).
    assert (a ∉ done) as Ha by (intros Hin; eapply Hdisj; [exact Hin | left]).
    rewrite foldl_snoc, IH by done.
    unfold normalize_row. rewrite masked_pending, Float_sum_finite by done.
    exact (masked_update_row (row_total zs_ref orig) done a zs_ref orig Ha).
Qed.

Lemma masked_fmap {A B} (g : A → bool) (f : A → B) (l : list A) :
  masked (g <$> l) (f <$> l) = f <$> filter (λ x, g x = true) l.
Proof.
  unfold masked. rewrite zip_fmap_fmap, filter_fmap, <- list_fmap_compose. done.
Qed.

Lemma Qsum_inject_nat {A} (f : A → nat) (l : list A) :
  Qsum ((λ x, inject_Z (Z.of_nat (f x))) <$> l)
  = inject_Z (Z.of_nat (sum_list (f <$> l))).
Proof.
  unfold Qsum. change 0%Q with (inject_Z 0).
  rewrite (list_fmap_compose (λ x, Z.of_nat (f x)) inject_Z).
  rewrite foldl_Qplus_inject_Z. f_equal.
  assert (∀ a, foldl Z.add a ((λ x, Z.of_nat (f x)) <$> l)
               = (a + Z.of_nat (sum_list (f <$> l)))%Z) as Hacc.
  { induction l as [|x l IH]; intros a; csimpl; [lia|]. rewrite IH. lia. }
  by rewrite Hacc.
Qed.

Lemma occurrences_filter `{EqDecision A} (P : A → Prop) `{!∀ x, Decision (P x)}
    (x : A) (l : list A) :
  P x → occurrences x (filter P l) = occurrences x l.
Proof.
  intros Hx. unfold occurrences. rewrite list_filter_filter. f_equal.
  apply filter_ext_in. intros y _. split; [by intros [? _] | by intros <-].
Qed.

Section bonds.
Variable bonds : list (Z * Z).

Let unique_bonds : list (Z * Z) := torch_unique bonds.
Let counts : list nat := (λ c, occurrences c bonds) <$> unique_bonds.

(** The counts of the distinct pairs that start at [a] add up to the
    number of bonds that start at [a]. *)
Lemma sum_counts_from (a : Z) :
  sum_list ((λ c, occurrences c bonds) <$> filter (λ c, c.1 = a) unique_bonds)
  = bonds_from a bonds.
Proof.
  unfold bonds_from.
  rewrite <- (sum_occurrences (filter (λ c, c.1 = a) unique_bonds)
                             (filter (λ c, c.1 = a) bonds)).
  - f_equal. apply list_fmap_ext.
    intros _ c [Hc _]%list_elem_of_lookup_2%list_elem_of_filter.
    symmetry. by apply (occurrences_filter (λ c, c.1 = a)).
  - apply NoDup_filter, torch_unique_NoDup.
  - intros c [Hc Hin]%list_elem_of_filter. apply list_elem_of_filter.
    split; [done|]. by apply torch_unique_elem_2.
Qed.

Lemma row_total_bonds (a : Z) :
  row_total unique_bonds
    ((λ c, inject_Z (Z.of_nat (occurrences c bonds))) <$> unique_bonds) a
  = inject_Z (Z.of_nat (bonds_from a bonds)).
Proof.
  unfold row_total, source_mask. rewrite masked_fmap.
  rewrite (filter_ext_in _ (λ c, c.1 = a)).
  - by rewrite Qsum_inject_nat, sum_counts_from.
  - intros c _. apply bool_decide_eq_true.
Qed.

Lemma bonds_from_pos (c : Z * Z) : c ∈ bonds → 0 < bonds_from c.1 bonds.
Proof.
  intros Hc. unfold bonds_from. apply (elem_of_length_pos c).
  by apply list_elem_of_filter.
Qed.

(** Every count ends up divided by the number of bonds of its row, a
    positive number. *)
Lemma normalize_rows_bonds :
  normalize_rows unique_bonds (Float.of_nat <$> counts)
  = (λ c, Some (inject_Z (Z.of_nat (occurrences c bonds))
                / inject_Z (Z.of_nat (bonds_from c.1 bonds)))%Q) <$> unique_bonds.
Proof.
  unfold normalize_rows, counts.
  assert (Float.of_nat <$> ((λ c, occurrences c bonds) <$> unique_bonds)
          = Some <$> ((λ c, inject_Z (Z.of_nat (occurrences c bonds)))
                        <$> unique_bonds)) as ->
    by (by rewrite <- !list_fmap_compose).
  rewrite normalize_fold.
  - rewrite zip_with_fmap_r, zip_with_diag.
    apply list_fmap_ext. intros _ c Hc%list_elem_of_lookup_2.
    unfold normalized_entry. rewrite decide_True.
    + rewrite row_total_bonds. unfold Float.div.
      rewrite inject_Z_pos_nonzero; [done|].
      by apply bonds_from_pos, torch_unique_elem_1.
    + apply torch_unique_elem_2, elem_of_flatten. exists c. auto.
  - by rewrite length_fmap.
  - apply torch_unique_NoDup.
Qed.
End bonds.

(** ** Index assignment *)

Lemma put_step_other (m : list (list Float.t)) (p : nat * nat * Float.t) (i j : nat) :
  p.1 ≠ (i, j) → cell (put_step m p) i j = cell m i j.
Proof.
  destruct p as [[r c] v]. simpl. intros Hne. unfold cell, put_step. simpl.
  destruct (decide (r = i)) as [->|Hr].
  - rewrite list_lookup_alter_eq. destruct (m !! i) as [row|]; simpl; [|done].
    apply list_lookup_insert_ne. congruence.
  - by rewrite list_lookup_alter_ne.
Qed.

Lemma put_step_same (m : list (list Float.t)) (i j : nat) (v : Float.t) :
  is_Some (cell m i j) → cell (put_step m (i, j, v)) i j = Some v.
Proof.
  unfold cell, put_step. simpl. intros [x Hx].
  rewrite list_lookup_alter_eq. destruct (m !! i) as [row|]; simpl in *; [|done].
  apply list_lookup_insert_eq. by eapply lookup_lt_Some.
Qed.

Lemma foldl_put_other (ps : list (nat * nat * Float.t)) (m : list (list Float.t))
    (i j : nat) :
  (i, j) ∉ ps.*1 → cell (foldl put_step m ps) i j = cell m i j.
Proof.
  revert m. induction ps as [|p ps IH]; intros m Hnin; csimpl in *; [done|].
  apply not_elem_of_cons in Hnin as [Hne Hnin].
  rewrite IH by done. apply put_step_other. congruence.
Qed.

Lemma foldl_put_same (ps : list (nat * nat * Float.t)) (m : list (list Float.t))
    (i j : nat) (v : Float.t) :
  NoDup ps.*1 → (i, j, v) ∈ ps → is_Some (cell m i j) →
  cell (foldl put_step m ps) i j = Some v.
Proof.
  revert m. induction ps as [|p ps IH]; intros m Hnd Hin Hm; csimpl in *.
  - by apply elem_of_nil in Hin.
  - apply NoDup_cons in Hnd as [Hp Hnd].
    apply elem_of_cons in Hin as [<-|Hin].
    + rewrite foldl_put_other by done. by apply put_step_same.
    + assert (p.1 ≠ (i, j)) as Hne.
      { intros Heq. apply Hp. rewrite Heq.
        apply list_elem_of_fmap. by exists (i, j, v). }
      apply IH; [done..|]. by rewrite put_step_other.
Qed.

Lemma cell_zeros (n i j : nat) :
  i < n → j < n → cell (replicate n (replicate n Float.zero)) i j = Some Float.zero.
Proof.
  intros Hi Hj. unfold cell. rewrite lookup_replicate_2 by done. simpl.
  by apply lookup_replicate_2.
Qed.

Lemma index_put_assigned (n : nat) (index : list (nat * nat)) (values : list Float.t)
    (k i j : nat) (v : Float.t) :
  NoDup index → length index = length values → i < n → j < n →
  index !! k = Some (i, j) → values !! k = Some v →
  cell (index_put n index values) i j = Some v.
Proof.
  intros Hnd Hlen Hi Hj Hk Hv. unfold index_put.
  apply (foldl_put_same (zip index values)).
  - rewrite fst_zip by lia. done.
  - apply list_elem_of_lookup. exists k.
    rewrite lookup_zip_with, Hk, Hv. done.
  - rewrite cell_zeros by done. eauto.
Qed.

Lemma index_put_unassigned (n : nat) (index : list (nat * nat)) (values : list Float.t)
    (i j : nat) :
  i < n → j < n → (i, j) ∉ index →
  cell (index_put n index values) i j = Some Float.zero.
Proof.
  intros Hi Hj Hnin. unfold index_put.
  rewrite (foldl_put_other (zip index values)).
  - by apply cell_zeros.
  - intros Hin. apply Hnin.
    apply list_elem_of_fmap in Hin as ([ix v] & -> & Hin).
    apply elem_of_zip_l in Hin. done.
Qed.

(** ** Successful runs *)

Lemma observed_elements (data : list Batch) (a : Z) :
  a ∈ torch_unique (flatten (edge_pairs data)) ↔ observed a data.
Proof.
  rewrite torch_unique_elem, elem_of_flatten. unfold edge_pairs, observed. split.
  - intros (c & (e & -> & He)%list_elem_of_fmap & Ha). exists e. auto.
  - intros (e & He & Ha). exists (element_pair e). split; [|done].
    apply list_elem_of_fmap. eauto.
Qed.

Lemma position_pair_inj (l : list Z) (c1 c2 : Z * Z) :
  c1.1 ∈ l → c1.2 ∈ l → c2.1 ∈ l → c2.2 ∈ l →
  (position c1.1 l, position c1.2 l) = (position c2.1 l, position c2.2 l) →
  c1 = c2.
Proof.
  intros H11 H12 H21 H22 [= Ha Hb].
  apply position_lookup in H11, H12, H21, H22.
  rewrite Ha in H11. rewrite Hb in H12.
  destruct c1, c2; simpl in *. congruence.
Qed.

(** What a run that returns has computed. *)
Lemma extract_data_Ok (data : list Batch) (r : Snapshot) :
  extract_data data = Ok r →
  let elements := torch_unique (flatten (edge_pairs data)) in
  let n := length elements in
  let bonds := torch_unique (all_bonds data) in
  data ≠ [] ∧ 0 < n
  ∧ torch_unique (edge_pairs data) = cprod elements elements
  ∧ (∀ c, c ∈ all_bonds data → c.1 ∈ elements ∧ c.2 ∈ elements)
  ∧ zs r = elements
  ∧ attn r = chunks n n
               (scatter_mean (Some <$> (attention_weight <$> all_edges data))
                             (unique_inverse (edge_pairs data)).2)
  ∧ zs_ref r = torch_unique (fst <$> bonds)
  ∧ counts_ref_square r
    = index_put n ((λ c, (position c.1 elements, position c.2 elements)) <$> bonds)
        ((λ c, Some (inject_Z (Z.of_nat (occurrences c (all_bonds data)))
                     / inject_Z (Z.of_nat (bonds_from c.1 (all_bonds data))))%Q)
           <$> bonds)
  ∧ atoms r = atoms_per_elem (foldl loop_body init data)
  ∧ zs_full r = edge_pairs data
  ∧ attn_full r = Some <$> (attention_weight <$> all_edges data)
  ∧ dist r = distance <$> all_edges data.
Proof.
  intros Hr elements n bonds. rewrite extract_data_unfold in Hr.
  fold (edge_pairs data) in Hr. fold elements in Hr. fold n in Hr. fold bonds in Hr.
  destruct (decide (data = [])) as [|Hd]; [done|].
  destruct (decide (length (torch_unique (edge_pairs data)) = n * n))
    as [Hsq|]; [|done].
  apply square_cprod in Hsq. fold elements in Hsq.
  apply bind_Ok in Hr as (zs0 & Hzs & Hr).
  apply bind_Ok in Hr as (index_ref & Hix & Hr).
  assert (0 < n) as Hn.
  { destruct n; [|lia]. by apply from_option_Ok in Hzs. }
  apply from_option_Ok in Hzs.
  pose proof (first_row_elements (edge_pairs data) Hsq Hn) as Hrow.
  change (chunks n n (torch_unique (edge_pairs data)).*2 !! 0 = Some elements)
    in Hrow.
  rewrite Hrow in Hzs. injection Hzs as <-.
  rewrite sort_values_sorted_id in Hix by apply torch_unique_sorted.
  apply apply_z2idx_Ok in Hix as [Hsub ->]; [|apply torch_unique_NoDup].
  unfold unique_counts in Hr. cbn [snd] in Hr.
  pose proof (normalize_rows_bonds (all_bonds data)) as Hnorm.
  fold bonds in Hnorm. fold bonds in Hr. rewrite Hnorm in Hr.
  injection Hr as <-. cbn.
  split_and!; try done.
  intros c Hc. apply Hsub. by apply torch_unique_elem_2.
Qed.

(** ** The bond-probability matrix *)

Lemma bond_cell (elements : list Z) (bonds : list (Z * Z)) (value : Z * Z → Float.t)
    (i j : nat) (a b : Z) :
  NoDup elements →
  (∀ c, c ∈ bonds → c.1 ∈ elements ∧ c.2 ∈ elements) →
  elements !! i = Some a → elements !! j = Some b →
  cell (index_put (length elements)
          ((λ c, (position c.1 elements, position c.2 elements)) <$> torch_unique bonds)
          (value <$> torch_unique bonds)) i j
  = Some (if decide ((a, b) ∈ bonds) then value (a, b) else Float.zero).
Proof.
  intros Hnd Hsub Hi Hj.
  pose proof (lookup_lt_Some _ _ _ Hi) as Hilt.
  pose proof (lookup_lt_Some _ _ _ Hj) as Hjlt.
  assert (∀ c, c ∈ torch_unique bonds → c.1 ∈ elements ∧ c.2 ∈ elements) as Hsub'.
  { intros c Hc. by apply Hsub, torch_unique_elem_1. }
  destruct (decide ((a, b) ∈ bonds)) as [Hin|Hnin].
  - apply torch_unique_elem_2, list_elem_of_lookup in Hin as [k Hk].
    apply index_put_assigned with k; try done.
    + apply NoDup_fmap_2_strong; [|apply torch_unique_NoDup].
      intros c1 c2 H1 H2. apply position_pair_inj; by apply Hsub'.
    + by rewrite !length_fmap.
    + rewrite list_lookup_fmap, Hk. simpl.
      by rewrite (position_NoDup elements i a), (position_NoDup elements j b).
    + by rewrite list_lookup_fmap, Hk.
  - apply index_put_unassigned; try done.
    intros (c & Hc & Hcin)%list_elem_of_fmap. apply Hnin.
    destruct (Hsub' c Hcin) as [H1 H2].
    apply position_lookup in H1, H2. injection Hc as Hc1 Hc2.
    rewrite <- Hc1 in H1. rewrite <- Hc2 in H2.
    apply torch_unique_elem_1 in Hcin. destruct c. simpl in *. congruence.
Qed.

Lemma foldl_put_shape (n : nat) (ps : list (nat * nat * Float.t))
    (m : list (list Float.t)) :
  length m = n → Forall (λ row, length row = n) m →
  length (foldl put_step m ps) = n
  ∧ Forall (λ row, length row = n) (foldl put_step m ps).
Proof.
  revert m. induction ps as [|p ps IH]; intros m Hlen Hrows; csimpl; [done|].
  apply IH; unfold put_step.
  - by rewrite length_alter.
  - apply Forall_alter; [done|]. intros row _ Hrow. by rewrite length_insert.
Qed.

Lemma index_put_row (n : nat) (index : list (nat * nat)) (values : list Float.t)
    (i : nat) :
  i < n →
  ∃ row, index_put n index values !! i = Some row ∧ length row = n.
Proof.
  intros Hi. unfold index_put.
  destruct (foldl_put_shape n (zip index values) (replicate n (replicate n Float.zero)))
    as [Hlen Hrows].
  - apply length_replicate.
  - apply Forall_replicate, length_replicate.
  - destruct (lookup_lt_is_Some_2 (foldl put_step (replicate n (replicate n Float.zero))
                                     (zip index values)) i) as [row Hrow]; [lia|].
    exists row. split; [done|].
    eapply Forall_lookup_1 in Hrows; [exact Hrows | exact Hrow].
Qed.

(** Over the element set, the counts of the pairs that start at [a] add up
    to the number of bonds that start at [a]. *)
Lemma sum_targets (elements : list Z) (bonds : list (Z * Z)) (a : Z) :
  NoDup elements → (∀ c, c ∈ bonds → c.2 ∈ elements) →
  sum_list ((λ b, occurrences (a, b) bonds) <$> elements) = bonds_from a bonds.
Proof.
  intros Hnd Hsub. unfold bonds_from.
  rewrite <- (sum_occurrences ((a,.) <$> elements) (filter (λ c, c.1 = a) bonds)).
  - rewrite <- list_fmap_compose. f_equal. apply list_fmap_ext.
    intros _ b _. simpl. symmetry. by apply (occurrences_filter (λ c, c.1 = a)).
  - apply NoDup_fmap_2; [|done]. by intros ?? [= ->].
  - intros [x y] [Hx Hin]%list_elem_of_filter. simpl in Hx. subst x.
    apply list_elem_of_fmap. exists y. split; [done|]. by apply (Hsub (a, y)).
Qed.

Lemma Qsum_quotients (t : Q) (row : list Q) (counts : list nat) :
  Forall2 (λ q c, q == inject_Z (Z.of_nat c) / t)%Q row counts →
  (Qsum row == inject_Z (Z.of_nat (sum_list counts)) / t)%Q.
Proof.
  intros Hrow. unfold Qsum.
  assert (∀ acc, foldl Qplus acc row
                 == acc + inject_Z (Z.of_nat (sum_list counts)) / t)%Q as Hacc.
  { induction Hrow as [|q c row counts Hq Hrow IH]; intros acc; simpl.
    - unfold Qdiv. rewrite Qmult_0_l. ring.
    - rewrite IH, Hq, Nat2Z.inj_add, inject_Z_plus. unfold Qdiv. ring. }
  rewrite Hacc. ring.
Qed.

(** * The claims *)

(** The interaction matrix, cell by cell. *)
Lemma interaction_cell (data : list Batch) (r : Snapshot)
    (i j : nat) (a b : Z) :
  extract_data data = Ok r →
  zs r !! i = Some a → zs r !! j = Some b →
  weights_of a b (all_edges data) ≠ []
  ∧ cell (attn r) i j = Some (Some (Qmean (weights_of a b (all_edges data)))).
Proof.
  intros Hr Hi Hj.
  destruct (extract_data_Ok data r Hr)
    as (_ & _ & Hsq & _ & Hzs & Hattn & _).
  rewrite Hzs in Hi, Hj.
  pose proof (lookup_lt_Some _ _ _ Hi) as Hilt.
  pose proof (lookup_lt_Some _ _ _ Hj) as Hjlt.
  pose proof (cprod_lookup _ _ i j a b Hi Hj) as Hk. rewrite <- Hsq in Hk.
  split.
  - assert ((a, b) ∈ edge_pairs data) as Hin.
    { eapply torch_unique_elem_1, list_elem_of_lookup_2, Hk. }
    apply list_elem_of_fmap in Hin as (e & He & Hin).
    intros Hnil. eapply elem_of_nil. rewrite <- Hnil. unfold weights_of.
    apply list_elem_of_fmap. exists e. split; [done|].
    by apply list_elem_of_filter.
  - rewrite Hattn, cell_chunks by done.
    by apply (scatter_mean_lookup (all_edges data)).
Qed.

(** C1, as the code has it. Whenever the aggregation returns, cell [(i, j)]
    of the interaction matrix is the arithmetic mean of the attention
    weights of exactly the edges whose element pair is [(zs[i], zs[j])]: the
    pair is compared on its two integer ids, there is at least one such
    edge, and an edge that occurs several times counts that many times in
    the sum and in the divisor.  The mean is that of the exact numbers; the
    float32 tensors of the script carry it with the rounding of the sum, of
    the count and of the quotient. *)
Theorem interaction_cell_mean (data : list Batch) (r : Snapshot)
    (i j : nat) (a b : Z) :
  extract_data data = Ok r →
  zs r !! i = Some a → zs r !! j = Some b →
  weights_of a b (all_edges data) ≠ []
  ∧ cell (attn r) i j = Some (Some (Qmean (weights_of a b (all_edges data)))).
Proof. apply interaction_cell. Qed.

Lemma interaction_cell_mean_witness :
  ∃ r, extract_data dense_run = Ok r
       ∧ zs r !! 0 = Some 1%Z ∧ zs r !! 1 = Some 6%Z
       ∧ weights_of 1 6 (all_edges dense_run) ≠ []
       ∧ cell (attn r) 0 1 = Some (Some (Qmean (weights_of 1 6 (all_edges dense_run)))).
Proof.
  eexists. split; [vm_compute; reflexivity|].
  split; [reflexivity|]. split; [reflexivity|].
  apply (interaction_cell_mean dense_run _ 0 1 1 6); reflexivity.
Defined.

(** The three attention edges of the scenario of the specification do not
    give an interaction matrix: the two edges from hydrogen to carbon have
    the mean 0.3, but no edge joins hydrogen to hydrogen or carbon to
    carbon, the reshape of line 127 raises, and there is no matrix to hold
    the mean. *)
Lemma three_edges_have_no_matrix :
  (Qmean (weights_of 1 6 (all_edges three_edges_run)) == 3 # 10)%Q
  ∧ extract_data three_edges_run = Raise ShapeError
  ∧ ¬ ∃ r, extract_data three_edges_run = Ok r
           ∧ cell (attn r) 0 1
             = Some (Some (Qmean (weights_of 1 6 (all_edges three_edges_run)))).
Proof.
  split_and!.
  - reflexivity.
  - vm_compute. reflexivity.
  - intros (r & Hr & _). vm_compute in Hr. discriminate.
Qed.

(** Where float32 parts from the exact numbers: three samples of the weight
    nearest to 0.85 in one cell.  Their sum is rounded, and the mean comes
    out one unit in the last place above each of the three weights.  A
    count of 2^24 samples is not raised by a further sample. *)
Example float32_mean_is_rounded :
  let w := S754_finite false 14260634 (-24) in
  let w' := S754_finite false 14260635 (-24) in
  scatter_mean32 [w; w; w] [0; 0; 0] = [w']
  ∧ Float32.ltb w w' = true
  ∧ Float32.add (S754_finite false 8388608 1) Float32.one
    = S754_finite false 8388608 1.
Proof. vm_compute. done. Qed.

Lemma missing_pair_dec (data : list Batch) :
  let elements := torch_unique (flatten (edge_pairs data)) in
  (∀ a b, a ∈ elements → b ∈ elements → (a, b) ∈ edge_pairs data)
  ∨ (∃ a b, a ∈ elements ∧ b ∈ elements ∧ (a, b) ∉ edge_pairs data).
Proof.
  intros elements.
  destruct (decide (Forall (λ c, c ∈ edge_pairs data) (cprod elements elements)))
    as [Hall|Hex].
  - left. intros a b Ha Hb. eapply Forall_forall in Hall; [exact Hall|].
    by apply list_elem_of_cprod.
  - right. apply not_Forall_Exists in Hex; [|apply _].
    apply Exists_exists in Hex as ([a b] & [Ha Hb]%list_elem_of_cprod & Hnin).
    exists a, b. done.
Qed.

(** C10. The aggregation fails with a shape error exactly when some ordered
    pair of observed elements never occurs as the element pair of an
    attention edge: the distinct observed pairs are reshaped into an
    [n x n] square, which needs all [n * n] of them. *)
Theorem missing_pair_shape_error (data : list Batch) :
  (∃ a b, observed a data ∧ observed b data
          ∧ ∀ e, e ∈ all_edges data → element_pair e ≠ (a, b))
  ↔ extract_data data = Raise ShapeError.
Proof.
  rewrite extract_data_unfold. fold (edge_pairs data).
  set (elements := torch_unique (flatten (edge_pairs data))).
  pose proof (square_iff (edge_pairs data)) as Hsq. fold elements in Hsq.
  split.
  - intros (a & b & Ha & Hb & Hnone).
    apply observed_elements in Ha, Hb. fold elements in Ha, Hb.
    destruct (decide (data = [])) as [->|Hd].
    { by apply elem_of_nil in Ha. }
    rewrite decide_False; [done|].
    intros Hlen. rewrite Hsq in Hlen. specialize (Hlen a b Ha Hb).
    apply list_elem_of_fmap in Hlen as (e & He & Hin). by eapply Hnone.
  - destruct (decide (data = [])) as [|Hd]; [done|].
    destruct (decide (length (torch_unique (edge_pairs data))
                      = length elements * length elements)) as [Hlen|Hlen].
    + intros Hr. exfalso.
      destruct (chunks _ _ _ !! 0) as [zs0|] in Hr; [|done].
      simpl in Hr.
      destruct (apply_z2idx _ _) as [ix|e] eqn:Hix in Hr; [done|].
      apply apply_z2idx_Raise in Hix. by simplify_eq/=.
    + intros _. destruct (missing_pair_dec data) as [Hall|(a & b & Ha & Hb & Hnin)].
      * by apply Hsq in Hall.
      * exists a, b. split_and!; [by apply observed_elements..|].
        intros e He Heq. apply Hnin. unfold edge_pairs.
        apply list_elem_of_fmap. eauto.
Qed.

(** The scenario of the specification does not produce the element set
    [H, C, O]: the pairs [(H, H)] and [(C, C)] do not occur, and the reshape
    fails.  When all pairs of the attention edges occur, a bond to an element
    that no attention edge touches makes the lookup fail. *)
Lemma element_set_scenario_fails :
  ¬ (∃ r, extract_data spec_scenario = Ok r ∧ zs r = [1; 6; 8]%Z)
  ∧ extract_data spec_scenario = Raise ShapeError
  ∧ bonded 8 oxygen_bond_run
  ∧ extract_data oxygen_bond_run = Raise KeyError.
Proof.
  split_and!.
  - intros (r & Hr & _). vm_compute in Hr. discriminate.
  - vm_compute. reflexivity.
  - exists (1, 8)%Z. split; [|by right]. vm_compute.
    apply list_elem_of_In. simpl. tauto.
  - vm_compute. reflexivity.
Qed.

(** ** Cells of the two matrices *)

Lemma bond_matrix_cell (data : list Batch) (r : Snapshot) (i j : nat) (a b : Z) :
  extract_data data = Ok r →
  zs r !! i = Some a → zs r !! j = Some b →
  cell (counts_ref_square r) i j
  = Some (if decide ((a, b) ∈ all_bonds data)
          then Some (inject_Z (Z.of_nat (occurrences (a, b) (all_bonds data)))
                     / inject_Z (Z.of_nat (bonds_from a (all_bonds data))))%Q
          else Float.zero).
Proof.
  intros Hr Hi Hj.
  destruct (extract_data_Ok data r Hr)
    as (_ & _ & _ & Hsub & Hzs & _ & _ & Hsquare & _).
  rewrite Hzs in Hi, Hj. rewrite Hsquare.
  rewrite (bond_cell _ _ _ i j a b); [done| |done..].
  apply torch_unique_NoDup.
Qed.

Lemma bonds_from_zero (a b : Z) (bonds : list (Z * Z)) :
  bonds_from a bonds = 0 → (a, b) ∉ bonds.
Proof.
  intros Hz Hin. apply bonds_from_pos in Hin. simpl in Hin. lia.
Qed.

(** C3, as the code has it. Whenever the aggregation returns, at every
    position of the two matrices: the interaction cell has at least one
    contributing edge and holds a finite number; the bond-probability cell
    holds a finite number, so that no count was divided by zero; and in a row
    whose source element has no bond the cell holds the number zero, the
    initial value of the matrix, which nothing marks as undefined. *)
Theorem empty_rows_hold_zero (data : list Batch) (r : Snapshot)
    (i j : nat) (a b : Z) :
  extract_data data = Ok r →
  zs r !! i = Some a → zs r !! j = Some b →
  (weights_of a b (all_edges data) ≠ []
   ∧ ∃ q, cell (attn r) i j = Some (Some q))
  ∧ (∃ q, cell (counts_ref_square r) i j = Some (Some q))
  ∧ (bonds_from a (all_bonds data) = 0 →
     cell (counts_ref_square r) i j = Some (Some 0%Q)).
Proof.
  intros Hr Hi Hj.
  destruct (interaction_cell data r i j a b Hr Hi Hj) as [Hne Hcell].
  rewrite (bond_matrix_cell data r i j a b Hr Hi Hj).
  split_and!; [done|eauto| |].
  - case_decide; eauto.
  - intros Hz. rewrite decide_False; [done|]. by apply bonds_from_zero.
Qed.

Lemma empty_rows_hold_zero_witness :
  ∃ r, extract_data dense_run = Ok r
       ∧ zs r !! 1 = Some 6%Z ∧ zs r !! 0 = Some 1%Z
       ∧ (weights_of 6 1 (all_edges dense_run) ≠ []
          ∧ ∃ q, cell (attn r) 1 0 = Some (Some q))
       ∧ (∃ q, cell (counts_ref_square r) 1 0 = Some (Some q))
       ∧ (bonds_from 6 (all_bonds dense_run) = 0 →
          cell (counts_ref_square r) 1 0 = Some (Some 0%Q)).
Proof.
  eexists. split; [vm_compute; reflexivity|].
  split; [reflexivity|]. split; [reflexivity|].
  apply (empty_rows_hold_zero dense_run _ 1 0 6 1); reflexivity.
Defined.

(** In the dense run no bond starts at carbon, and the carbon row of the
    bond-probability matrix holds the number zero, not a missing value. *)
Lemma empty_row_stored_as_zero :
  ∃ r, extract_data dense_run = Ok r
       ∧ zs r !! 1 = Some 6%Z
       ∧ bonds_from 6 (all_bonds dense_run) = 0
       ∧ cell (counts_ref_square r) 1 0 = Some (Some 0%Q)
       ∧ cell (counts_ref_square r) 1 1 = Some (Some 0%Q)
       ∧ cell (counts_ref_square r) 1 0 ≠ Some None.
Proof.
  eexists. split; [vm_compute; reflexivity|].
  split_and!; [reflexivity..|discriminate].
Qed.

(** C4. Whenever the aggregation returns, in a row of the bond-probability
    matrix whose source element has at least one bond, cell [(i, j)] is the
    number of bonds with the pair [(zs[i], zs[j])] over the number of bonds
    that start at [zs[i]], and the cells of the row add up to one. *)
Theorem bond_probability_rows (data : list Batch) (r : Snapshot) (i : nat) (a : Z) :
  extract_data data = Ok r →
  zs r !! i = Some a →
  0 < bonds_from a (all_bonds data) →
  (∀ j b, zs r !! j = Some b →
     ∃ q, cell (counts_ref_square r) i j = Some (Some q)
          ∧ (q == inject_Z (Z.of_nat (occurrences (a, b) (all_bonds data)))
                  / inject_Z (Z.of_nat (bonds_from a (all_bonds data))))%Q)
  ∧ ∃ row, counts_ref_square r !! i = Some (Some <$> row)
           ∧ (Qsum row == 1)%Q.
Proof.
  intros Hr Hi Hpos.
  set (bonds := all_bonds data) in *.
  set (t := inject_Z (Z.of_nat (bonds_from a bonds))).
  set (value := λ b : Z,
         if decide ((a, b) ∈ bonds)
         then (inject_Z (Z.of_nat (occurrences (a, b) bonds)) / t)%Q else 0%Q).
  assert (∀ b, value b == inject_Z (Z.of_nat (occurrences (a, b) bonds)) / t)%Q
    as Hvalue.
  { intros b. unfold value. case_decide as Hin; [reflexivity|].
    rewrite occurrences_notin by done. unfold Qdiv. by rewrite Qmult_0_l. }
  assert (∀ j b, zs r !! j = Some b →
            cell (counts_ref_square r) i j = Some (Some (value b))) as Hcell.
  { intros j b Hj. rewrite (bond_matrix_cell data r i j a b Hr Hi Hj).
    unfold value. fold bonds. by case_decide. }
  split.
  - intros j b Hj. exists (value b). auto.
  - destruct (extract_data_Ok data r Hr)
      as (_ & _ & _ & Hsub & Hzs & _ & _ & Hsquare & _).
    fold bonds in Hsub, Hsquare.
    set (elements := torch_unique (flatten (edge_pairs data))) in *.
    pose proof (lookup_lt_Some _ _ _ Hi) as Hilt. rewrite Hzs in Hilt.
    destruct (index_put_row (length elements)
                ((λ c, (position c.1 elements, position c.2 elements))
                   <$> torch_unique bonds)
                ((λ c, Some (inject_Z (Z.of_nat (occurrences c bonds))
                             / inject_Z (Z.of_nat (bonds_from c.1 bonds)))%Q)
                   <$> torch_unique bonds) i Hilt) as (frow & Hrow & Hlen).
    rewrite <- Hsquare in Hrow.
    exists (value <$> elements). split.
    + etrans; [exact Hrow|]. f_equal. apply list_eq. intros j.
      rewrite !list_lookup_fmap.
      destruct (elements !! j) as [b|] eqn:Hj; simpl.
      * rewrite <- Hzs in Hj. specialize (Hcell j b Hj).
        unfold cell in Hcell. rewrite Hrow in Hcell. exact Hcell.
      * apply lookup_ge_None. apply lookup_ge_None in Hj. lia.
    + rewrite (Qsum_quotients t (value <$> elements)
                 ((λ b, occurrences (a, b) bonds) <$> elements)).
      * rewrite sum_targets.
        -- fold t. apply Qmult_inv_r. unfold t. intros Hz.
           unfold Qeq in Hz. simpl in Hz. lia.
        -- apply torch_unique_NoDup.
        -- intros c Hc. by apply Hsub.
      * apply Forall2_fmap, Forall_Forall2_diag, Forall_forall.
        intros b _. apply Hvalue.
Qed.

(** The numbers of the dense run: the mean attention from hydrogen to
    carbon is 0.3, and of the four bonds that start at hydrogen three go to
    carbon and one to hydrogen. *)
Example dense_run_values :
  ∃ r, extract_data dense_run = Ok r
       ∧ zs r = [1; 6]%Z
       ∧ (∃ q, cell (attn r) 0 1 = Some (Some q) ∧ (q == 3 # 10)%Q)
       ∧ (∃ q, cell (attn r) 1 0 = Some (Some q) ∧ (q == 6 # 10)%Q)
       ∧ (∃ q, cell (counts_ref_square r) 0 0 = Some (Some q) ∧ (q == 1 # 4)%Q)
       ∧ (∃ q, cell (counts_ref_square r) 0 1 = Some (Some q) ∧ (q == 3 # 4)%Q)
       ∧ atoms r = {[ 1%Z := 4%Z; 6%Z := 4%Z ]}.
Proof.
  eexists. split; [vm_compute; reflexivity|].
  split; [reflexivity|].
  split_and!; try (eexists; split; [reflexivity|]; reflexivity).
  vm_compute. reflexivity.
Qed.

Lemma bond_probability_rows_witness :
  ∃ r, extract_data dense_run = Ok r
       ∧ zs r !! 0 = Some 1%Z
       ∧ 0 < bonds_from 1 (all_bonds dense_run)
       ∧ (∀ j b, zs r !! j = Some b →
            ∃ q, cell (counts_ref_square r) 0 j = Some (Some q)
                 ∧ (q == inject_Z (Z.of_nat (occurrences (1, b)%Z (all_bonds dense_run)))
                         / inject_Z (Z.of_nat (bonds_from 1 (all_bonds dense_run))))%Q)
       ∧ ∃ row, counts_ref_square r !! 0 = Some (Some <$> row)
                ∧ (Qsum row == 1)%Q.
Proof.
  eexists. split; [vm_compute; reflexivity|].
  split; [reflexivity|]. split; [vm_compute; lia|].
  apply (bond_probability_rows dense_run _ 0 1); [reflexivity..|vm_compute; lia].
Defined.

(** ** Batch order *)

Lemma foldl_Qplus_acc (a : Q) (l : list Q) :
  (foldl Qplus a l == a + Qsum l)%Q.
Proof.
  unfold Qsum. revert a. induction l as [|q l IH]; intros a; simpl.
  - ring.
  - rewrite IH, (IH (0 + q)%Q). ring.
Qed.

Lemma Qsum_cons (q : Q) (l : list Q) : (Qsum (q :: l) == q + Qsum l)%Q.
Proof. unfold Qsum at 1. simpl. rewrite foldl_Qplus_acc. ring. Qed.

Lemma Qsum_Permutation (l1 l2 : list Q) : l1 ≡ₚ l2 → (Qsum l1 == Qsum l2)%Q.
Proof.
  induction 1 as [|q l1 l2 _ IH|q1 q2 l|l1 l2 l3 _ IH1 _ IH2].
  - reflexivity.
  - by rewrite !Qsum_cons, IH.
  - rewrite !Qsum_cons. ring.
  - by rewrite IH1.
Qed.

Lemma Qmean_Permutation (l1 l2 : list Q) : l1 ≡ₚ l2 → (Qmean l1 == Qmean l2)%Q.
Proof.
  intros Hp. unfold Qmean.
  by rewrite (Qsum_Permutation l1 l2 Hp), (Permutation_length Hp).
Qed.

Lemma summed_count_Permutation (e : Z) (data1 data2 : list Batch) :
  data1 ≡ₚ data2 → summed_count e data1 = summed_count e data2.
Proof.
  unfold summed_count.
  induction 1 as [|b l1 l2 _ IH|b1 b2 l|l1 l2 l3 _ IH1 _ IH2]; simpl.
  - done.
  - by rewrite IH.
  - lia.
  - by rewrite IH1.
Qed.

Lemma loop_atoms_Permutation (data1 data2 : list Batch) :
  data1 ≡ₚ data2 →
  atoms_per_elem (foldl loop_body init data1)
  = atoms_per_elem (foldl loop_body init data2).
Proof.
  intros Hp. apply map_eq. intros e. rewrite !loop_atoms_lookup.
  rewrite (summed_count_Permutation e data1 data2 Hp).
  assert (e ∈ all_atoms data1 ↔ e ∈ all_atoms data2) as Hiff.
  { unfold all_atoms. by rewrite Hp. }
  destruct (decide (e ∈ all_atoms data1)), (decide (e ∈ all_atoms data2)); tauto || done.
Qed.

Lemma chunks_Forall2 {A} (R : A → A → Prop) (rows cols : nat) (l1 l2 : list A) :
  Forall2 R l1 l2 → Forall2 (Forall2 R) (chunks rows cols l1) (chunks rows cols l2).
Proof.
  revert l1 l2. induction rows as [|rows IH]; intros l1 l2 Hl; simpl.
  - constructor.
  - constructor; [by apply Forall2_take|]. by apply IH, Forall2_drop.
Qed.

Lemma matrix_equiv_refl (m : list (list Float.t)) : matrix_equiv m m.
Proof.
  unfold matrix_equiv. apply Forall_Forall2_diag, Forall_forall. intros row _.
  apply Forall_Forall2_diag, Forall_forall. intros [q|] _; constructor.
  reflexivity.
Qed.

(** The scattered means of two orderings of the same edges. *)
Lemma scatter_mean_Permutation (edges1 edges2 : list Edge) :
  edges1 ≡ₚ edges2 →
  Forall2 (option_Forall2 Qeq)
    (scatter_mean (Some <$> (attention_weight <$> edges1))
                  (unique_inverse (element_pair <$> edges1)).2)
    (scatter_mean (Some <$> (attention_weight <$> edges2))
                  (unique_inverse (element_pair <$> edges2)).2).
Proof.
  intros Hp.
  assert (torch_unique (element_pair <$> edges1)
          = torch_unique (element_pair <$> edges2)) as Hu.
  { apply torch_unique_Permutation. by rewrite Hp. }
  apply Forall2_same_length_lookup_2.
  - rewrite !length_scatter_mean. unfold unique_inverse. simpl. by rewrite Hu.
  - intros k x y Hx Hy.
    assert (k < length (torch_unique (element_pair <$> edges1))) as Hk.
    { apply lookup_lt_Some in Hx. by rewrite length_scatter_mean in Hx. }
    apply lookup_lt_is_Some_2 in Hk as [[a b] Hk].
    pose proof (scatter_mean_lookup edges1 k a b Hk) as Hx'.
    rewrite Hu in Hk.
    pose proof (scatter_mean_lookup edges2 k a b Hk) as Hy'.
    assert (x = Some (Qmean (weights_of a b edges1))) as ->.
    { apply (inj Some). etrans; [symmetry; exact Hx | exact Hx']. }
    assert (y = Some (Qmean (weights_of a b edges2))) as ->.
    { apply (inj Some). etrans; [symmetry; exact Hy | exact Hy']. }
    constructor.
    apply Qmean_Permutation. unfold weights_of. by rewrite Hp.
Qed.

(** C9. The aggregation is a function of its input, and it does not depend
    on the order of the batches: two runs on the same batches in two orders
    either raise the same exception, or return the same element sets, the
    same atom counts, and matrices of the same shape with the same cells
    missing and equal numbers in the others. *)
Theorem aggregation_order_independent (data1 data2 : list Batch) :
  data1 ≡ₚ data2 → result_equiv (extract_data data1) (extract_data data2).
Proof.
  intros Hp. rewrite !extract_data_unfold.
  assert (all_edges data1 ≡ₚ all_edges data2) as Hedges
    by (unfold all_edges; by rewrite Hp).
  assert (all_bonds data1 ≡ₚ all_bonds data2) as Hbonds
    by (unfold all_bonds; by rewrite Hp).
  assert (torch_unique (element_pair <$> all_edges data1)
          = torch_unique (element_pair <$> all_edges data2)) as Hu
    by (apply torch_unique_Permutation; by rewrite Hedges).
  assert (torch_unique (flatten (element_pair <$> all_edges data1))
          = torch_unique (flatten (element_pair <$> all_edges data2))) as He
    by (apply torch_unique_Permutation; unfold flatten; by rewrite Hedges).
  assert (torch_unique (all_bonds data1) = torch_unique (all_bonds data2)) as Hb
    by (by apply torch_unique_Permutation).
  assert ((unique_counts (all_bonds data1)).2 = (unique_counts (all_bonds data2)).2)
    as Hc.
  { unfold unique_counts. simpl. rewrite Hb. apply list_fmap_ext.
    intros _ c _. by apply occurrences_Permutation. }
  rewrite Hu, He, Hb, Hc, (loop_atoms_Permutation data1 data2 Hp).
  destruct (decide (data1 = [])) as [->|Hd1].
  { apply Permutation_nil in Hp as ->. by rewrite decide_True. }
  rewrite (decide_False (P := data2 = [])).
  2: { intros ->. by apply Permutation_nil_r in Hp. }
  case_decide; [|done].
  destruct (chunks _ _ _ !! 0) as [zs0|]; [|done]. simpl.
  destruct (apply_z2idx _ _) as [ix|e]; [|done]. simpl.
  split_and!; try done.
  - apply chunks_Forall2. by apply scatter_mean_Permutation.
  - apply matrix_equiv_refl.
Qed.

Lemma aggregation_order_independent_witness :
  dense_run ≡ₚ reverse dense_run
  ∧ result_equiv (extract_data dense_run) (extract_data (reverse dense_run)).
Proof.
  split; [by rewrite reverse_Permutation|].
  apply aggregation_order_independent. by rewrite reverse_Permutation.
Defined.

(** ** The rolling mean *)

Lemma length_rolling_mean (window : nat) (s : list Float.t) :
  length (rolling_mean window s) = length s.
Proof. unfold rolling_mean. by rewrite length_fmap, length_seq. Qed.

Lemma length_shift_left (periods : nat) (s : list Float.t) :
  length (shift_left periods s) = length s.
Proof.
  unfold shift_left. rewrite length_app, length_drop, length_replicate. lia.
Qed.

Lemma rolling_mean_lookup (window : nat) (s : list Float.t) (k : nat) :
  k < length s → rolling_mean window s !! k = Some (window_mean window s (S k)).
Proof.
  intros Hk. unfold rolling_mean. rewrite list_lookup_fmap.
  by rewrite (lookup_seq_lt 0 (length s) k Hk).
Qed.

Lemma shift_left_lookup (periods : nat) (s : list Float.t) (k : nat) :
  shift_left periods s !! k
  = if decide (k + periods < length s) then s !! (periods + k)
    else if decide (k < length s) then Some None else None.
Proof.
  unfold shift_left. destruct (decide (k + periods < length s)) as [Hin|Hout].
  - rewrite lookup_app_l by (rewrite length_drop; lia). apply lookup_drop.
  - rewrite lookup_app_r by (rewrite length_drop; lia). rewrite length_drop.
    case_decide.
    + apply lookup_replicate_2. lia.
    + apply lookup_replicate_None. lia.
Qed.

(** The value the curve reports at position [k]: the mean of the [window]
    samples that start one position later. *)
Lemma rolling_shift_lookup (window : nat) (s : list Float.t) (k : nat) :
  shift_left window (rolling_mean window s) !! k
  = if decide (k < length s) then Some (forward_mean window s (S k)) else None.
Proof.
  rewrite shift_left_lookup, length_rolling_mean.
  destruct (decide (k + window < length s)) as [Hin|Hout].
  - rewrite decide_True by lia. rewrite rolling_mean_lookup by lia. f_equal.
    unfold window_mean, forward_mean.
    destruct (decide (0 < window)) as [Hw|Hw].
    + rewrite !decide_True by lia.
      by replace (S (window + k) - window) with (S k) by lia.
    + rewrite !decide_False by lia. done.
  - case_decide; [|done]. f_equal. unfold forward_mean.
    rewrite decide_False by lia. done.
Qed.

Lemma forward_mean_defined (window : nat) (s : list Float.t) (start : nat) :
  Forall is_Some s →
  is_Some (forward_mean window s start) ↔ 0 < window ∧ start + window ≤ length s.
Proof.
  intros Hs. unfold forward_mean. case_decide as Hc; [|split; [by intros [? ?] | tauto]].
  split; [done|]. intros _.
  assert (∃ qs, take window (drop start s) = Some <$> qs) as [qs ->].
  { assert (Forall is_Some (take window (drop start s))) as Hall
      by (by apply Forall_take, Forall_drop).
    induction Hall as [|x l [q ->] _ [qs ->]]; [by exists []|].
    by exists (q :: qs). }
  rewrite Float_sum_finite. unfold Float.div, Float.of_nat.
  rewrite inject_Z_pos_nonzero by lia. eauto.
Qed.

(** ** Sorting routines that meet the contract *)

Section insertion_argsort.
Variable before : Q → Q → bool.
Hypothesis before_le : ∀ x y, before x y = true → (x <= y)%Q.
Hypothesis not_before_ge : ∀ x y, before x y = false → (y <= x)%Q.
Variable d : list Q.

Let key (i : nat) : Q := default 0%Q (d !! i).
Let ordered (i j : nat) : Prop := (key i <= key j)%Q.

Lemma insert_index_Permutation (i : nat) (l : list nat) :
  insert_index before d i l ≡ₚ i :: l.
Proof.
  induction l as [|j l IH]; simpl; [done|].
  destruct (before _ _); [done|]. rewrite IH. apply Permutation_swap.
Qed.

Lemma insert_index_sorted (i : nat) (l : list nat) :
  StronglySorted ordered l → StronglySorted ordered (insert_index before d i l).
Proof.
  induction 1 as [|j l Hl IH Hj]; simpl.
  - repeat constructor.
  - destruct (before _ _) eqn:Hb.
    + apply before_le in Hb. constructor; [by constructor|].
      constructor; [exact Hb|].
      eapply Forall_impl; [exact Hj|]. intros x Hx.
      unfold ordered in *. by eapply Qle_trans.
    + apply not_before_ge in Hb. constructor; [done|].
      rewrite insert_index_Permutation. by constructor.
Qed.

Lemma insertion_argsort_Permutation :
  insertion_argsort before d ≡ₚ seq 0 (length d).
Proof.
  unfold insertion_argsort. induction (seq 0 (length d)) as [|i l IH]; simpl.
  - done.
  - by rewrite insert_index_Permutation, IH.
Qed.

Lemma insertion_argsort_sorted :
  Sorted Qle ((λ i, default 0%Q (d !! i)) <$> insertion_argsort before d).
Proof.
  apply StronglySorted_Sorted.
  eapply StronglySorted_fmap with (R1 := ordered); [done|].
  unfold insertion_argsort. induction (seq 0 (length d)) as [|i l IH]; simpl.
  - constructor.
  - by apply insert_index_sorted.
Qed.
End insertion_argsort.

Lemma argsort_stable_contract : sort_contract argsort_stable.
Proof.
  intros d. split.
  - apply insertion_argsort_Permutation.
  - apply insertion_argsort_sorted.
    + intros x y. apply Qle_bool_imp_le.
    + intros x y Hb. apply Qlt_le_weak, Qnot_le_lt.
      intros Hle%Qle_bool_iff. congruence.
Qed.

(** ** Selection and gathering *)

Lemma pair_mask_spec (z1 z2 : Z) (c : Z * Z) :
  (bool_decide (c.1 = z1) && bool_decide (c.2 = z2))
  || (bool_decide (c.1 = z2) && bool_decide (c.2 = z1)) = true
  ↔ same_unordered_pair z1 z2 c.
Proof.
  destruct c as [c1 c2]. unfold same_unordered_pair. simpl.
  rewrite orb_true_iff, !andb_true_iff, !bool_decide_eq_true. split.
  - intros [[-> ->]|[-> ->]]; [done|]. apply set_eq. intros x.
    rewrite !elem_of_union, !elem_of_singleton. tauto.
  - intros Heq.
    assert (c1 = z1 ∨ c1 = z2) as H1.
    { assert (c1 ∈ ({[z1; z2]} : gset Z)) as Hin.
      { rewrite <- Heq. apply elem_of_union. left. by apply elem_of_singleton. }
      by rewrite elem_of_union, !elem_of_singleton in Hin. }
    assert (c2 = z1 ∨ c2 = z2) as H2.
    { assert (c2 ∈ ({[z1; z2]} : gset Z)) as Hin.
      { rewrite <- Heq. apply elem_of_union. right. by apply elem_of_singleton. }
      by rewrite elem_of_union, !elem_of_singleton in Hin. }
    assert (z1 = c1 ∨ z1 = c2) as H3.
    { assert (z1 ∈ ({[c1; c2]} : gset Z)) as Hin.
      { rewrite Heq. apply elem_of_union. left. by apply elem_of_singleton. }
      by rewrite elem_of_union, !elem_of_singleton in Hin. }
    assert (z2 = c1 ∨ z2 = c2) as H4.
    { assert (z2 ∈ ({[c1; c2]} : gset Z)) as Hin.
      { rewrite Heq. apply elem_of_union. right. by apply elem_of_singleton. }
      by rewrite elem_of_union, !elem_of_singleton in Hin. }
    lia.
Qed.

Lemma select_Ok {A} (mask : list bool) (t : list A) :
  length mask = length t → select mask t = Ok (masked mask t).
Proof. intros Hlen. unfold select. by rewrite decide_True. Qed.

Lemma masked_selected (z1 z2 : Z) (pairs : list (Z * Z)) (a : list Float.t)
    (d : list Q) :
  length a = length pairs → length d = length pairs →
  zip (masked (pair_mask z1 z2 pairs) d) (masked (pair_mask z1 z2 pairs) a)
  = (λ x, (x.2, x.1.2))
      <$> filter (λ x, same_unordered_pair z1 z2 x.1.1) (zip (zip pairs a) d)
  ∧ length (masked (pair_mask z1 z2 pairs) d)
    = length (masked (pair_mask z1 z2 pairs) a).
Proof.
  revert a d. unfold masked, pair_mask.
  induction pairs as [|c pairs IH]; intros [|w a] [|x d] Ha Hd;
    csimpl in *; try done.
  destruct (IH a d) as [IHzip IHlen]; [lia..|].
  rewrite !filter_cons. simpl.
  destruct (decide (same_unordered_pair z1 z2 c)) as [Hc|Hc].
  - rewrite (proj2 (pair_mask_spec z1 z2 c) Hc).
    rewrite !decide_True by done. csimpl. by rewrite IHzip, IHlen.
  - assert ((bool_decide (c.1 = z1) && bool_decide (c.2 = z2))
            || (bool_decide (c.1 = z2) && bool_decide (c.2 = z1)) = false) as ->.
    { apply not_true_is_false. by rewrite pair_mask_spec. }
    rewrite !decide_False by done. done.
Qed.

Lemma gather_Ok {A} (t : list A) (index : list nat) :
  Forall (λ i, i < length t) index →
  ∃ t', gather t index = Ok t' ∧ Forall2 (λ i x, t !! i = Some x) index t'.
Proof.
  intros Hall. unfold gather.
  assert (∃ t', Forall2 (λ i x, t !! i = Some x) index t') as [t' Ht'].
  { induction Hall as [|i index Hi _ [t' IH]]; [by exists []|].
    apply lookup_lt_is_Some_2 in Hi as [x Hx]. exists (x :: t'). by constructor. }
  exists t'. split; [|done]. apply from_option_Ok. by apply mapM_Some.
Qed.

Lemma gathered_fmap {A} (t : list A) (index : list nat) (t' : list A) :
  Forall2 (λ i x, t !! i = Some x) index t' →
  Some <$> t' = (t !!.) <$> index.
Proof. induction 1 as [|i x index t' Hx _ IH]; csimpl; [done|]. by rewrite IH, Hx. Qed.

Lemma lookup_seq_all {A} (t : list A) : (t !!.) <$> seq 0 (length t) = Some <$> t.
Proof.
  apply list_eq. intros k. rewrite !list_lookup_fmap.
  destruct (decide (k < length t)) as [Hk|Hk].
  - rewrite (lookup_seq_lt 0 (length t) k Hk). simpl.
    by destruct (lookup_lt_is_Some_2 t k Hk) as [x ->].
  - rewrite (lookup_seq_ge 0 (length t) k) by lia.
    by rewrite (lookup_ge_None_2 t k) by lia.
Qed.

(** Gathering along a permutation of the positions permutes the tensor. *)
Lemma gathered_Permutation {A} (t : list A) (index : list nat) (t' : list A) :
  index ≡ₚ seq 0 (length t) →
  Forall2 (λ i x, t !! i = Some x) index t' → t' ≡ₚ t.
Proof.
  intros Hp Hg%gathered_fmap.
  assert (Some <$> t' ≡ₚ Some <$> t) as Hsome.
  { rewrite Hg, Hp. by rewrite lookup_seq_all. }
  assert (∀ l : list A, omap id (Some <$> l) = l) as Hid.
  { induction l as [|x l IH]; csimpl; [done|]. by rewrite IH. }
  rewrite <- (Hid t'), <- (Hid t). by rewrite Hsome.
Qed.

Lemma gathered_zip {A B} (t1 : list A) (t2 : list B) (index : list nat)
    (t1' : list A) (t2' : list B) :
  Forall2 (λ i x, t1 !! i = Some x) index t1' →
  Forall2 (λ i y, t2 !! i = Some y) index t2' →
  Forall2 (λ i p, zip t1 t2 !! i = Some p) index (zip t1' t2').
Proof.
  intros H1. revert t2'. induction H1 as [|i x index t1' Hx _ IH]; intros t2' H2.
  - apply Forall2_nil_inv_l in H2 as ->. constructor.
  - apply Forall2_cons_inv_l in H2 as (y & t2'' & Hy & H2 & ->). csimpl.
    constructor; [|by apply IH].
    by rewrite lookup_zip_with, Hx, Hy.
Qed.

Lemma gathered_default (t : list Q) (index : list nat) (t' : list Q) :
  Forall2 (λ i x, t !! i = Some x) index t' →
  t' = (λ i, default 0%Q (t !! i)) <$> index.
Proof. induction 1 as [|i x index t' Hx _ IH]; csimpl; [done|]. by rewrite <- IH, Hx. Qed.

(** ** The curve *)

Lemma sorted_samples_Ok (sort_indices : list Q → list nat) (z1 z2 : Z) (s : Snapshot) :
  sort_contract sort_indices →
  length (attn_full s) = length (zs_full s) →
  length (dist s) = length (zs_full s) →
  ∃ d a, sorted_samples sort_indices z1 z2 s = Ok (d, a)
         ∧ zip d a ≡ₚ selected_samples z1 z2 s
         ∧ length d = length a
         ∧ Sorted Qle d
         ∧ a ≡ₚ masked (pair_mask z1 z2 (zs_full s)) (attn_full s).
Proof.
  intros Hsort Ha Hd. unfold sorted_samples, sorted_values, argsort.
  set (mask := pair_mask z1 z2 (zs_full s)).
  assert (length mask = length (zs_full s)) as Hmask
    by (unfold mask, pair_mask; by rewrite length_fmap).
  rewrite !select_Ok by lia. cbn [mbind result_bind].
  destruct (masked_selected z1 z2 (zs_full s) (attn_full s) (dist s) Ha Hd)
    as [Hzip Hlen].
  fold mask in Hzip, Hlen.
  destruct (Hsort (masked mask (dist s))) as [Hperm Hsorted].
  assert (Forall (λ i, i < length (masked mask (dist s)))
            (sort_indices (masked mask (dist s)))) as Hrange.
  { rewrite Hperm. apply Forall_seq. lia. }
  destruct (gather_Ok (masked mask (dist s)) _ Hrange) as (d' & Hgd & Hd').
  rewrite Hlen in Hrange.
  destruct (gather_Ok (masked mask (attn_full s)) _ Hrange) as (a' & Hga & Ha').
  rewrite Hga. cbn [mbind result_bind]. rewrite Hgd. cbn [mbind result_bind].
  exists d', a'. split_and!.
  - done.
  - unfold selected_samples, samples. rewrite <- Hzip.
    apply (gathered_Permutation _ (sort_indices (masked mask (dist s)))).
    + rewrite length_zip_with, <- Hlen, Nat.min_id. exact Hperm.
    + by apply gathered_zip.
  - apply Forall2_length in Hd', Ha'. lia.
  - by rewrite (gathered_default _ _ _ Hd').
  - apply (gathered_Permutation _ (sort_indices (masked mask (dist s)))); [|done].
    by rewrite Hperm, Hlen.
Qed.

Lemma smooth_Ok (sort_indices : list Q → list nat) (z1 z2 : Z) (ma_width : nat)
    (s : Snapshot) :
  sort_contract sort_indices →
  length (attn_full s) = length (zs_full s) →
  length (dist s) = length (zs_full s) →
  Forall is_Some (attn_full s) →
  ∃ curve, smooth sort_indices z1 z2 ma_width s = Ok curve
           ∧ length curve = length (selected_samples z1 z2 s)
           ∧ ∀ k p, curve !! k = Some p →
               (is_Some p.2 ↔ 0 < ma_width ∧ k + ma_width < length curve).
Proof.
  intros Hsort Ha Hd Hfin.
  destruct (sorted_samples_Ok sort_indices z1 z2 s Hsort Ha Hd)
    as (d & a & Hs & Hzip & Hlen & _ & Hperm).
  unfold smooth. rewrite Hs. cbn [mbind result_bind fst snd].
  eexists. split; [done|].
  assert (length (zip d (shift_left ma_width (rolling_mean ma_width a))) = length a)
    as Hcurve.
  { rewrite length_zip_with, length_shift_left, length_rolling_mean. lia. }
  split.
  - rewrite Hcurve, <- (Permutation_length Hzip), length_zip_with. lia.
  - intros k [x v] Hk. rewrite Hcurve. simpl.
    apply lookup_zip_with_Some in Hk as (x' & v' & [= <- <-] & _ & Hv).
    rewrite rolling_shift_lookup in Hv. case_decide as Hlt; [|done].
    injection Hv as <-. rewrite forward_mean_defined.
    + split; intros [? ?]; split; lia.
    + rewrite Hperm. unfold masked.
      apply Forall_fmap, Forall_forall. intros [b q] Hin%list_elem_of_filter.
      destruct Hin as [_ Hin]. apply elem_of_zip_r in Hin. simpl.
      eapply Forall_forall in Hfin; [exact Hfin | exact Hin].
Qed.

(** C5, as the code has it. The rolling mean of width [window] shifted left
    by [window] positions reports at position [k] the mean of the [window]
    samples that start at position [k + 1], missing when fewer than [window]
    samples follow position [k]: the window of the specification that starts
    at a sample's own position, taken one position later and not shifted
    back by half a window. *)
Theorem rolling_shift_forward_mean (window : nat) (s : list Float.t) (k : nat) :
  shift_left window (rolling_mean window s) !! k
  = if decide (k < length s) then Some (forward_mean window s (S k)) else None.
Proof. apply rolling_shift_lookup. Qed.

(** With a window of one sample the centred mean of the specification is
    the series itself, and the code reports the series moved up by one
    position, its last entry missing. *)
Lemma centered_mean_differs :
  centered_mean_spec 1 [Some 1; Some 2; Some 3]%Q
  ≠ shift_left 1 (rolling_mean 1 [Some 1; Some 2; Some 3]%Q)
  ∧ centered_mean_spec 1 [Some 1; Some 2; Some 3]%Q !! 2 = Some (Some (3 / 1)%Q)
  ∧ shift_left 1 (rolling_mean 1 [Some 1; Some 2; Some 3]%Q) !! 2 = Some None.
Proof.
  split_and!.
  - intros Heq. apply (f_equal (λ l, l !! 2)) in Heq. vm_compute in Heq.
    discriminate.
  - reflexivity.
  - reflexivity.
Qed.

(** The raw arrays of a snapshot written by [extract_data] have one length,
    and the weights are finite. *)
Lemma extract_data_raw_arrays (data : list Batch) (s : Snapshot) :
  extract_data data = Ok s →
  length (attn_full s) = length (zs_full s)
  ∧ length (dist s) = length (zs_full s)
  ∧ Forall is_Some (attn_full s).
Proof.
  intros Hs.
  destruct (extract_data_Ok data s Hs)
    as (_ & _ & _ & _ & _ & _ & _ & _ & _ & Hzs & Hattn & Hdist).
  rewrite Hzs, Hattn, Hdist. unfold edge_pairs. rewrite !length_fmap.
  split_and!; [done..|]. apply Forall_fmap, Forall_forall. intros q _. by eexists.
Qed.

(** C6, as the code has it. For a snapshot whose three raw arrays have one
    length and whose weights are finite, and a sorting routine that meets
    the contract of [torch.sort], the curve is computed without an exception
    and has one point per selected sample; the point at position [k] holds a
    value exactly when the window is not empty and [k + ma_width] is still a
    position of the curve.  So the missing values are the last [ma_width]
    positions, none at the start, and all positions when at most [ma_width]
    samples are selected. *)
Theorem curve_length_and_missing_tail (sort_indices : list Q → list nat)
    (z1 z2 : Z) (ma_width : nat) (s : Snapshot) :
  sort_contract sort_indices →
  length (attn_full s) = length (zs_full s) →
  length (dist s) = length (zs_full s) →
  Forall is_Some (attn_full s) →
  ∃ curve, smooth sort_indices z1 z2 ma_width s = Ok curve
           ∧ length curve = length (selected_samples z1 z2 s)
           ∧ ∀ k p, curve !! k = Some p →
               (is_Some p.2 ↔ 0 < ma_width ∧ k + ma_width < length curve).
Proof. apply smooth_Ok. Qed.

Lemma curve_length_and_missing_tail_witness :
  ∃ s, extract_data curve_run = Ok s
       ∧ sort_contract argsort_stable
       ∧ length (attn_full s) = length (zs_full s)
       ∧ length (dist s) = length (zs_full s)
       ∧ Forall is_Some (attn_full s)
       ∧ ∃ curve, smooth argsort_stable 1 6 2 s = Ok curve
                  ∧ length curve = length (selected_samples 1 6 s)
                  ∧ ∀ k p, curve !! k = Some p →
                      (is_Some p.2 ↔ 0 < 2 ∧ k + 2 < length curve).
Proof.
  eexists. split; [vm_compute; reflexivity|].
  split; [apply argsort_stable_contract|].
  split; [reflexivity|]. split; [reflexivity|].
  split; [repeat constructor; eauto|].
  apply curve_length_and_missing_tail.
  - apply argsort_stable_contract.
  - reflexivity.
  - reflexivity.
  - repeat constructor; eauto.
Defined.

(** Three hydrogen-carbon samples and a window of two: the first position
    holds a value and the second does not, where the first and last
    [window - 1] positions would be missing and the second present. *)
Lemma boundary_positions_differ :
  ∃ s curve, extract_data curve_run = Ok s
             ∧ smooth argsort_stable 1 6 2 s = Ok curve
             ∧ length curve = 3
             ∧ (∃ p, curve !! 0 = Some p ∧ is_Some p.2)
             ∧ (∃ p, curve !! 1 = Some p ∧ p.2 = None).
Proof.
  eexists. eexists. split; [vm_compute; reflexivity|].
  split; [vm_compute; reflexivity|].
  split; [reflexivity|].
  split; eexists; (split; [reflexivity|]); simpl; eauto.
Qed.

(** ** Equal distances under the stable sort *)









(** The samples of the curve run between hydrogen and carbon: the weights
    0.4 and 0.6, both at distance 1.2, stay in this order behind the weight
    0.2 at distance 1. *)
Example curve_run_sorted :
  ∃ s, extract_data curve_run = Ok s
       ∧ selected_samples 1 6 s
         = [((12 # 10)%Q, Some (4 # 10)%Q); ((12 # 10)%Q, Some (6 # 10)%Q);
            (1%Q, Some (2 # 10)%Q)]
       ∧ sorted_samples argsort_stable 1 6 s
         = Ok ([1%Q; (12 # 10)%Q; (12 # 10)%Q],
               [Some (2 # 10)%Q; Some (4 # 10)%Q; Some (6 # 10)%Q]).
Proof.
  eexists. split; [vm_compute; reflexivity|].
  split; vm_compute; reflexivity.
Qed.

(** * Further properties of [extract_data] *)

(** ** When the reduction returns, and what it raises *)

Lemma elements_nil (pairs : list (Z * Z)) :
  torch_unique (flatten pairs) = [] ↔ pairs = [].
Proof.
  split; [|by intros ->].
  destruct pairs as [|c pairs]; [done|]. intros Hnil. exfalso.
  assert (c.1 ∈ torch_unique (flatten (c :: pairs))) as Hin.
  { apply torch_unique_elem_2, elem_of_flatten. exists c. split; [left|auto]. }
  rewrite Hnil in Hin. by apply elem_of_nil in Hin.
Qed.

Lemma all_edges_nil_elements (data : list Batch) :
  length (torch_unique (flatten (edge_pairs data))) = 0 ↔ all_edges data = [].
Proof.
  rewrite length_zero_iff_nil, elements_nil. unfold edge_pairs. split.
  - apply fmap_nil_inv.
  - by intros ->.
Qed.

Lemma bonds_observed_dec (data : list Batch) :
  (∀ a, bonded a data → observed a data)
  ∨ (∃ a, bonded a data ∧ ¬ observed a data).
Proof.
  set (elements := torch_unique (flatten (edge_pairs data))).
  destruct (decide (Forall (λ a, a ∈ elements) (flatten (all_bonds data))))
    as [Hall|Hex].
  - left. intros a Ha. apply observed_elements.
    eapply Forall_forall in Hall; [exact Hall|]. by apply elem_of_flatten.
  - right. apply not_Forall_Exists in Hex; [|apply _].
    apply Exists_exists in Hex as (a & Ha & Hnin). exists a. split.
    + by apply elem_of_flatten.
    + intros Hobs. by apply Hnin, observed_elements.
Qed.

(** The outcome of a run whose attention edges fill the square of pairs:
    the bonds decide between a result and a key error. *)
Lemma extract_data_square (data : list Batch) :
  all_edges data ≠ [] →
  (∀ a b, observed a data → observed b data →
     ∃ e, e ∈ all_edges data ∧ element_pair e = (a, b)) →
  ((∀ a, bonded a data → observed a data) → ∃ r, extract_data data = Ok r)
  ∧ ((∃ a, bonded a data ∧ ¬ observed a data) →
     extract_data data = Raise KeyError).
Proof.
  intros Hne Hpairs.
  set (elements := torch_unique (flatten (edge_pairs data))).
  assert (data ≠ []) as Hd by (by intros ->).
  assert (0 < length elements) as Hn.
  { destruct (length elements) eqn:Hlen; [|lia].
    by apply all_edges_nil_elements in Hlen. }
  assert (length (torch_unique (edge_pairs data))
          = length elements * length elements) as Hsq.
  { apply square_iff. intros a b Ha Hb.
    destruct (Hpairs a b) as (e & He & Hpair); [by apply observed_elements..|].
    unfold edge_pairs. apply list_elem_of_fmap. eauto. }
  pose proof (first_row_elements (edge_pairs data)
                (square_cprod (edge_pairs data) Hsq) Hn) as Hrow.
  rewrite extract_data_unfold. fold (edge_pairs data). fold elements.
  rewrite decide_False, decide_True by done.
  fold elements in Hrow. rewrite Hrow. cbn [from_option mbind result_bind].
  rewrite sort_values_sorted_id by apply torch_unique_sorted.
  split.
  - intros Hsub.
    destruct (apply_z2idx (make_z2idx elements) (torch_unique (all_bonds data)))
      as [ix|e] eqn:Hix; [eauto|]. exfalso.
    assert (apply_z2idx (make_z2idx elements) (torch_unique (all_bonds data))
            = Ok ((λ c, (position c.1 elements, position c.2 elements))
                    <$> torch_unique (all_bonds data))) as Hok.
    { apply apply_z2idx_Ok; [apply torch_unique_NoDup|]. split; [|done].
      intros c Hc%torch_unique_elem_1.
      split; apply observed_elements, Hsub; exists c; auto. }
    congruence.
  - intros (a & (c & Hc & Ha) & Hnobs).
    destruct (apply_z2idx (make_z2idx elements) (torch_unique (all_bonds data)))
      as [ix|e] eqn:Hix.
    + exfalso. apply apply_z2idx_Ok in Hix as [Hsub _]; [|apply torch_unique_NoDup].
      destruct (Hsub c (torch_unique_elem_2 _ _ Hc)) as [H1 H2].
      apply Hnobs, observed_elements. by destruct Ha as [-> | ->].
    + apply apply_z2idx_Raise in Hix. by subst e.
Qed.

Lemma extract_data_no_edges (data : list Batch) :
  data ≠ [] → all_edges data = [] → extract_data data = Raise IndexError.
Proof.
  intros Hd Hnil. rewrite extract_data_unfold, Hnil.
  by rewrite decide_False.
Qed.

(** X1. The reduction returns exactly when there is an attention edge, every
    ordered pair of observed elements is the element pair of an attention
    edge, and every element at an end point of a bond is observed. *)
Theorem extract_data_returns_iff (data : list Batch) :
  (∃ r, extract_data data = Ok r)
  ↔ all_edges data ≠ []
    ∧ (∀ a b, observed a data → observed b data →
         ∃ e, e ∈ all_edges data ∧ element_pair e = (a, b))
    ∧ (∀ a, bonded a data → observed a data).
Proof.
  split.
  - intros [r Hr].
    destruct (extract_data_Ok data r Hr) as (_ & Hn & Hsq & Hsub & _).
    split_and!.
    + intros Hnil. apply all_edges_nil_elements in Hnil. lia.
    + intros a b Ha%observed_elements Hb%observed_elements.
      assert ((a, b) ∈ edge_pairs data) as Hin.
      { apply torch_unique_elem_1. rewrite Hsq. by apply list_elem_of_cprod. }
      apply list_elem_of_fmap in Hin as (e & He & Hin). eauto.
    + intros a (c & Hc & Ha). apply observed_elements.
      destruct (Hsub c Hc). by destruct Ha as [-> | ->].
  - intros (Hne & Hpairs & Hsub).
    by apply (extract_data_square data Hne Hpairs).
Qed.

(** X2. Without a batch the concatenation of line 124 raises; with batches
    but no attention edge at all, the reshape succeeds on empty tensors and
    the indexing [zs[1, 0]] of line 128 raises. *)
Theorem extract_data_empty_inputs (data : list Batch) :
  (extract_data data = Raise EmptyCat ↔ data = [])
  ∧ (extract_data data = Raise IndexError ↔ data ≠ [] ∧ all_edges data = []).
Proof.
  rewrite extract_data_unfold. fold (edge_pairs data).
  set (elements := torch_unique (flatten (edge_pairs data))).
  destruct (decide (data = [])) as [->|Hd].
  { split; split; try done. by intros [? _]. }
  destruct (decide (length (torch_unique (edge_pairs data))
                    = length elements * length elements)) as [Hsq|Hsq].
  2: { split; split; try done. intros [_ Hnil]. exfalso. apply Hsq.
       unfold elements, edge_pairs. by rewrite Hnil. }
  destruct (decide (all_edges data = [])) as [Hnil|Hne].
  - unfold elements, edge_pairs. rewrite Hnil. split; split; done.
  - assert (0 < length elements) as Hn.
    { destruct (length elements) eqn:Hlen; [|lia].
      by apply all_edges_nil_elements in Hlen. }
    pose proof (first_row_elements (edge_pairs data)
                  (square_cprod (edge_pairs data) Hsq) Hn) as Hrow.
    fold elements in Hrow. rewrite Hrow. cbn [from_option mbind result_bind].
    destruct (apply_z2idx _ _) as [ix|e] eqn:Hix; cbn [mbind result_bind].
    + split; split; try done. by intros [_ ?].
    + apply apply_z2idx_Raise in Hix. subst e.
      split; split; try done. by intros [_ ?].
Qed.

(** X3. A key error is raised exactly when the attention edges would let the
    reduction through and some element at an end point of a bond is at the
    end point of no attention edge. *)
Theorem extract_data_key_error_iff (data : list Batch) :
  extract_data data = Raise KeyError
  ↔ all_edges data ≠ []
    ∧ (∀ a b, observed a data → observed b data →
         ∃ e, e ∈ all_edges data ∧ element_pair e = (a, b))
    ∧ ∃ a, bonded a data ∧ ¬ observed a data.
Proof.
  split.
  - intros Hr.
    destruct (decide (all_edges data = [])) as [Hnil|Hne].
    { destruct (decide (data = [])) as [->|Hd]; [done|].
      rewrite extract_data_no_edges in Hr by done. done. }
    destruct (missing_pair_dec data) as [Hall|(a & b & Ha & Hb & Hnin)].
    + assert (∀ a b, observed a data → observed b data →
                ∃ e, e ∈ all_edges data ∧ element_pair e = (a, b)) as Hpairs.
      { intros a b Ha%observed_elements Hb%observed_elements.
        specialize (Hall a b Ha Hb).
        apply list_elem_of_fmap in Hall as (e & He & Hin). eauto. }
      split_and!; [done..|].
      destruct (bonds_observed_dec data) as [Hsub|Hex]; [|done].
      destruct (proj1 (extract_data_square data Hne Hpairs) Hsub) as [r Hok].
      congruence.
    + exfalso.
      assert (extract_data data = Raise ShapeError) as Hshape.
      { rewrite extract_data_unfold. fold (edge_pairs data).
        rewrite decide_False by (by intros ->).
        rewrite decide_False; [done|].
        intros Hsq. apply Hnin.
        by apply (proj1 (square_iff (edge_pairs data)) Hsq). }
      congruence.
  - intros (Hne & Hpairs & Hex).
    by apply (extract_data_square data Hne Hpairs).
Qed.

(** ** The four outcomes of a run with batches *)

Lemma extract_data_missing_pair (data : list Batch) (a b : Z) :
  observed a data → observed b data →
  (∀ e, e ∈ all_edges data → element_pair e ≠ (a, b)) →
  extract_data data = Raise ShapeError.
Proof.
  intros Ha Hb Hnone.
  assert (data ≠ []) as Hd.
  { intros ->. destruct Ha as (e & He & _). by apply elem_of_nil in He. }
  rewrite extract_data_unfold. fold (edge_pairs data).
  rewrite decide_False by done. rewrite decide_False; [done|].
  intros Hsq.
  assert ((a, b) ∈ edge_pairs data) as Hin.
  { apply (proj1 (square_iff (edge_pairs data)) Hsq); by apply observed_elements. }
  apply list_elem_of_fmap in Hin as (e & He & Hin). by apply (Hnone e).
Qed.

Lemma extract_data_outcome (data : list Batch) :
  data ≠ [] →
  (all_edges data = [] ∧ extract_data data = Raise IndexError)
  ∨ (all_edges data ≠ []
     ∧ (∃ a b, observed a data ∧ observed b data
               ∧ ∀ e, e ∈ all_edges data → element_pair e ≠ (a, b))
     ∧ extract_data data = Raise ShapeError)
  ∨ (all_edges data ≠ []
     ∧ (∀ a b, observed a data → observed b data →
          ∃ e, e ∈ all_edges data ∧ element_pair e = (a, b))
     ∧ ((∃ a, bonded a data ∧ ¬ observed a data)
        ∧ extract_data data = Raise KeyError
        ∨ (∀ a, bonded a data → observed a data)
          ∧ ∃ r, extract_data data = Ok r)).
Proof.
  intros Hd.
  destruct (decide (all_edges data = [])) as [Hnil|Hne].
  { left. split; [done|]. by apply extract_data_no_edges. }
  right.
  destruct (missing_pair_dec data) as [Hall|(a & b & Ha & Hb & Hnin)].
  - right. split; [done|].
    assert (∀ a b, observed a data → observed b data →
              ∃ e, e ∈ all_edges data ∧ element_pair e = (a, b)) as Hpairs.
    { intros a b Ha%observed_elements Hb%observed_elements.
      specialize (Hall a b Ha Hb).
      apply list_elem_of_fmap in Hall as (e & He & Hin). eauto. }
    split; [done|].
    destruct (extract_data_square data Hne Hpairs) as [Hok Hkey].
    destruct (bonds_observed_dec data) as [Hsub|Hex]; [right|left]; auto.
  - left. split; [done|].
    apply observed_elements in Ha, Hb.
    assert (∀ e, e ∈ all_edges data → element_pair e ≠ (a, b)) as Hnone.
    { intros e He Heq. apply Hnin. unfold edge_pairs.
      apply list_elem_of_fmap. eauto. }
    split; [by exists a, b|]. by apply (extract_data_missing_pair data a b).
Qed.

(** C2, as the code has it. Whenever the aggregation returns, [zs] is the
    strictly ascending sequence of the distinct elements at the end points of
    the attention edges, and every element at an end point of a bond is among
    them: the elements of the bonds are looked up in the set, never added
    to it.  A run with a bond at an element that no attention edge touches
    does not return: it raises, and what it raises is the key error of the
    lookup exactly when there is an attention edge and every ordered pair of
    observed elements is the pair of one; otherwise the indexing or the
    reshape has raised before. *)
Theorem element_set_of_attention_edges (data : list Batch) :
  (∀ r, extract_data data = Ok r →
     StronglySorted Z.lt (zs r)
     ∧ (∀ a, a ∈ zs r ↔ observed a data)
     ∧ (∀ a, bonded a data → a ∈ zs r))
  ∧ ((∃ a, bonded a data ∧ ¬ observed a data) →
     ∃ err, extract_data data = Raise err
          ∧ (err = KeyError ∨ err = ShapeError ∨ err = IndexError)
          ∧ (err = KeyError
             ↔ all_edges data ≠ []
               ∧ ∀ a b, observed a data → observed b data →
                   ∃ e, e ∈ all_edges data ∧ element_pair e = (a, b))
          ∧ (err = IndexError ↔ all_edges data = [])).
Proof.
  split.
  - intros r Hr.
    destruct (extract_data_Ok data r Hr) as (_ & _ & _ & Hsub & Hzs & _).
    rewrite Hzs. split_and!.
    + pose proof (torch_unique_sorted (flatten (edge_pairs data))) as Hs.
      exact Hs.
    + intros a. apply observed_elements.
    + intros a (c & Hc & [-> | ->]); by apply Hsub.
  - intros (a & Ha & Hnobs).
    assert (data ≠ []) as Hd.
    { intros ->. destruct Ha as (c & Hc & _). by apply elem_of_nil in Hc. }
    destruct (extract_data_outcome data Hd)
      as [[Hnil Hr]|[(Hne & (a' & b' & Ha' & Hb' & Hnone) & Hr)
                    |(Hne & Hpairs & [[_ Hr]|[Hsub _]])]].
    + exists IndexError. split; [done|]. split; [auto|]. split; [|done].
      split; [done|]. by intros [? _].
    + exists ShapeError. split; [done|]. split; [auto|]. split.
      * split; [done|]. intros [_ Hpairs].
        destruct (Hpairs a' b' Ha' Hb') as (e & He & Hpair).
        exfalso. by apply (Hnone e).
      * done.
    + exists KeyError. split; [done|]. split; [auto|]. split; [|done].
      split; done.
    + by apply Hsub in Ha.
Qed.

Lemma element_set_of_attention_edges_witness :
  (∃ r, extract_data dense_run = Ok r
        ∧ StronglySorted Z.lt (zs r)
        ∧ (∀ a, a ∈ zs r ↔ observed a dense_run)
        ∧ (∀ a, bonded a dense_run → a ∈ zs r))
  ∧ (∃ a, bonded a oxygen_bond_run ∧ ¬ observed a oxygen_bond_run)
  ∧ ∃ err, extract_data oxygen_bond_run = Raise err
         ∧ (err = KeyError ∨ err = ShapeError ∨ err = IndexError)
         ∧ (err = KeyError
            ↔ all_edges oxygen_bond_run ≠ []
              ∧ ∀ a b, observed a oxygen_bond_run → observed b oxygen_bond_run →
                  ∃ e, e ∈ all_edges oxygen_bond_run ∧ element_pair e = (a, b))
         ∧ (err = IndexError ↔ all_edges oxygen_bond_run = []).
Proof.
  assert (∃ a, bonded a oxygen_bond_run ∧ ¬ observed a oxygen_bond_run) as Hex.
  { exists 8%Z. split.
    - exists (1, 8)%Z. split; [|by right]. vm_compute.
      apply list_elem_of_In. simpl. tauto.
    - intros Hobs%observed_elements. vm_compute in Hobs.
      apply list_elem_of_In in Hobs. simpl in Hobs.
      destruct Hobs as [?|[?|[]]]; discriminate. }
  split; [|split; [exact Hex|]].
  - eexists. split; [vm_compute; reflexivity|].
    apply (proj1 (element_set_of_attention_edges dense_run)). reflexivity.
  - exact (proj2 (element_set_of_attention_edges oxygen_bond_run) Hex).
Defined.

(** ** Shapes and raw arrays *)

Lemma length_chunks {A} (rows cols : nat) (t : list A) :
  length (chunks rows cols t) = rows.
Proof. revert t. induction rows as [|rows IH]; intros t; simpl; [done|]. by rewrite IH. Qed.

Lemma chunks_rows {A} (rows cols : nat) (t : list A) :
  length t = rows * cols → Forall (λ row, length row = cols) (chunks rows cols t).
Proof.
  intros Hlen. apply Forall_lookup. intros i row Hrow.
  assert (i < rows) as Hi.
  { apply lookup_lt_Some in Hrow. by rewrite length_chunks in Hrow. }
  rewrite chunks_lookup in Hrow by done. injection Hrow as <-.
  rewrite length_take, length_drop. nia.
Qed.

(** X4. Both matrices of a result are square, with one row and one column
    per element of [zs]. *)
Theorem matrices_square (data : list Batch) (r : Snapshot) :
  extract_data data = Ok r →
  length (attn r) = length (zs r)
  ∧ Forall (λ row, length row = length (zs r)) (attn r)
  ∧ length (counts_ref_square r) = length (zs r)
  ∧ Forall (λ row, length row = length (zs r)) (counts_ref_square r).
Proof.
  intros Hr.
  destruct (extract_data_Ok data r Hr)
    as (_ & _ & Hsq & _ & Hzs & Hattn & _ & Hsquare & _).
  rewrite Hzs, Hattn, Hsquare.
  set (elements := torch_unique (flatten (edge_pairs data))) in *.
  split_and!.
  - apply length_chunks.
  - apply chunks_rows.
    etrans; [apply (length_scatter_mean (all_edges data))|].
    unfold unique_inverse. simpl. fold (edge_pairs data).
    by rewrite Hsq, length_cprod.
  - apply foldl_put_shape; [apply length_replicate|].
    apply Forall_replicate, length_replicate.
  - apply foldl_put_shape; [apply length_replicate|].
    apply Forall_replicate, length_replicate.
Qed.

Lemma matrices_square_witness :
  ∃ r, extract_data dense_run = Ok r
       ∧ length (attn r) = length (zs r)
       ∧ Forall (λ row, length row = length (zs r)) (attn r)
       ∧ length (counts_ref_square r) = length (zs r)
       ∧ Forall (λ row, length row = length (zs r)) (counts_ref_square r).
Proof.
  eexists. split; [vm_compute; reflexivity|].
  apply (matrices_square dense_run). reflexivity.
Defined.

Lemma extract_data_samples (data : list Batch) (r : Snapshot) :
  extract_data data = Ok r →
  samples r
  = (λ e, (element_pair e, Some (attention_weight e), distance e))
      <$> all_edges data.
Proof.
  intros Hr.
  destruct (extract_data_Ok data r Hr)
    as (_ & _ & _ & _ & _ & _ & _ & _ & _ & Hzs & Hattn & Hdist).
  unfold samples. rewrite Hzs, Hattn, Hdist. unfold edge_pairs.
  rewrite <- list_fmap_compose, zip_fmap_fmap.
  rewrite (zip_fmap_fmap _ distance). done.
Qed.

(** X5. The raw arrays of a result hold one sample per attention edge, in
    the order of the batches and of the edges within a batch: element pair,
    weight and distance of the edge, nothing aggregated. *)
Theorem raw_arrays_retained (data : list Batch) (r : Snapshot) :
  extract_data data = Ok r →
  samples r
  = (λ e, (element_pair e, Some (attention_weight e), distance e))
      <$> all_edges data.
Proof. apply extract_data_samples. Qed.

Lemma raw_arrays_retained_witness :
  ∃ r, extract_data dense_run = Ok r
       ∧ samples r
         = (λ e, (element_pair e, Some (attention_weight e), distance e))
             <$> all_edges dense_run.
Proof.
  eexists. split; [vm_compute; reflexivity|].
  apply (raw_arrays_retained dense_run). reflexivity.
Defined.

(** ** The reference element ids *)

(** X6. [zs_ref] is the strictly ascending sequence of the distinct elements
    at which a bond starts; all of them are in [zs], and the two sequences
    are equal exactly when a bond starts at every observed element. *)
Theorem reference_elements (data : list Batch) (r : Snapshot) :
  extract_data data = Ok r →
  StronglySorted Z.lt (zs_ref r)
  ∧ (∀ a, a ∈ zs_ref r ↔ ∃ c, c ∈ all_bonds data ∧ c.1 = a)
  ∧ (∀ a, a ∈ zs_ref r → a ∈ zs r)
  ∧ (zs_ref r = zs r
     ↔ ∀ a, observed a data → ∃ c, c ∈ all_bonds data ∧ c.1 = a).
Proof.
  intros Hr.
  destruct (extract_data_Ok data r Hr)
    as (_ & _ & _ & Hsub & Hzs & _ & Hzs_ref & _).
  assert (∀ a, a ∈ zs_ref r ↔ ∃ c, c ∈ all_bonds data ∧ c.1 = a) as Hmem.
  { intros a. rewrite Hzs_ref, torch_unique_elem, list_elem_of_fmap. split.
    - intros (c & -> & Hc%torch_unique_elem_1). eauto.
    - intros (c & Hc & <-). exists c. split; [done|].
      by apply torch_unique_elem_2. }
  assert (∀ a, a ∈ zs_ref r → a ∈ zs r) as Hincl.
  { intros a (c & Hc & <-)%Hmem. rewrite Hzs. by apply Hsub. }
  split_and!; [|done|done|].
  - rewrite Hzs_ref.
    pose proof (torch_unique_sorted ((torch_unique (all_bonds data)).*1)) as Hs.
    exact Hs.
  - split.
    + intros Heq a Ha. apply Hmem. rewrite Heq, Hzs. by apply observed_elements.
    + intros Hall. rewrite Hzs_ref, Hzs. apply strictly_sorted_ext.
      * apply torch_unique_sorted.
      * apply torch_unique_sorted.
      * intros a. rewrite <- Hzs_ref, <- Hzs. split; [apply Hincl|].
        intros Ha. apply Hmem, Hall. apply observed_elements. by rewrite <- Hzs.
Qed.

Lemma reference_elements_witness :
  ∃ r, extract_data dense_run = Ok r
       ∧ StronglySorted Z.lt (zs_ref r)
       ∧ (∀ a, a ∈ zs_ref r ↔ ∃ c, c ∈ all_bonds dense_run ∧ c.1 = a)
       ∧ (∀ a, a ∈ zs_ref r → a ∈ zs r)
       ∧ (zs_ref r = zs r
          ↔ ∀ a, observed a dense_run → ∃ c, c ∈ all_bonds dense_run ∧ c.1 = a).
Proof.
  eexists. split; [vm_compute; reflexivity|].
  apply (reference_elements dense_run). reflexivity.
Defined.

(** ** Ranges of the matrix entries *)




Lemma occurrences_le_bonds_from (a b : Z) (bonds : list (Z * Z)) :
  occurrences (a, b) bonds ≤ bonds_from a bonds.
Proof.
  rewrite <- (occurrences_filter (λ c, c.1 = a) (a, b) bonds) by done.
  unfold occurrences, bonds_from. apply length_filter.
Qed.

(** X8. Every cell of the bond-probability matrix is a number between zero
    and one, and it is positive exactly when a bond with the pair of the
    cell exists. *)
Theorem bond_cell_probability (data : list Batch) (r : Snapshot)
    (i j : nat) (a b : Z) :
  extract_data data = Ok r →
  zs r !! i = Some a → zs r !! j = Some b →
  ∃ q, cell (counts_ref_square r) i j = Some (Some q)
       ∧ (0 <= q ∧ q <= 1)%Q
       ∧ ((0 < q)%Q ↔ (a, b) ∈ all_bonds data).
Proof.
  intros Hr Hi Hj. rewrite (bond_matrix_cell data r i j a b Hr Hi Hj).
  destruct (decide ((a, b) ∈ all_bonds data)) as [Hin|Hnin].
  - eexists. split; [done|].
    pose proof (bonds_from_pos (all_bonds data) (a, b) Hin) as Htot.
    pose proof (occurrences_pos (a, b) (all_bonds data) Hin) as Hocc.
    pose proof (occurrences_le_bonds_from a b (all_bonds data)) as Hle.
    simpl in Htot.
    assert (0 < inject_Z (Z.of_nat (bonds_from a (all_bonds data))))%Q as Hpos.
    { change 0%Q with (inject_Z 0). rewrite <- Zlt_Qlt. lia. }
    split_and!.
    + apply Qle_shift_div_l; [done|]. rewrite Qmult_0_l.
      change 0%Q with (inject_Z 0). rewrite <- Zle_Qle. lia.
    + apply Qle_shift_div_r; [done|]. rewrite Qmult_1_l.
      rewrite <- Zle_Qle. lia.
    + split; [done|]. intros _.
      apply Qlt_shift_div_l; [done|]. rewrite Qmult_0_l.
      change 0%Q with (inject_Z 0). rewrite <- Zlt_Qlt. lia.
  - exists 0%Q. split; [done|]. split_and!; [done..|].
    split; [|done]. intros Hlt. by apply Qlt_irrefl in Hlt.
Qed.

Lemma bond_cell_probability_witness :
  ∃ r, extract_data dense_run = Ok r
       ∧ zs r !! 0 = Some 1%Z ∧ zs r !! 1 = Some 6%Z
       ∧ ∃ q, cell (counts_ref_square r) 0 1 = Some (Some q)
              ∧ (0 <= q ∧ q <= 1)%Q
              ∧ ((0 < q)%Q ↔ (1, 6)%Z ∈ all_bonds dense_run).
Proof.
  eexists. split; [vm_compute; reflexivity|].
  split; [reflexivity|]. split; [reflexivity|].
  apply (bond_cell_probability dense_run _ 0 1 1 6); reflexivity.
Defined.

(** ** Batch size *)

Lemma occurrences_app `{EqDecision A} (x : A) (l1 l2 : list A) :
  occurrences x (l1 ++ l2) = occurrences x l1 + occurrences x l2.
Proof. unfold occurrences. by rewrite filter_app, length_app. Qed.

(** The count recorded for an element is the number of its atoms. *)
Lemma summed_count_occurrences (e : Z) (data : list Batch) :
  summed_count e data = Z.of_nat (occurrences e (all_atoms data)).
Proof.
  unfold summed_count, all_atoms. induction data as [|b data IH]; csimpl; [done|].
  rewrite IH, occurrences_app. unfold count_elem. lia.
Qed.

Lemma loop_atoms_multiset (data1 data2 : list Batch) :
  all_atoms data1 ≡ₚ all_atoms data2 →
  atoms_per_elem (foldl loop_body init data1)
  = atoms_per_elem (foldl loop_body init data2).
Proof.
  intros Hp. apply map_eq. intros e.
  rewrite !loop_atoms_lookup, !summed_count_occurrences.
  rewrite (occurrences_Permutation e _ _ Hp).
  assert (e ∈ all_atoms data1 ↔ e ∈ all_atoms data2) as Hiff by (by rewrite Hp).
  destruct (decide (e ∈ all_atoms data1)), (decide (e ∈ all_atoms data2)); tauto || done.
Qed.

(** X9. The result does not depend on how the atoms, attention edges and
    bonds are cut into batches: two non-empty sequences of batches with the
    same atoms, the same attention edges and the same bonds overall, in any
    order, raise the same exception or return the same element sets, the
    same atom counts and equal matrices. *)
Theorem batching_independent (data1 data2 : list Batch) :
  data1 ≠ [] → data2 ≠ [] →
  all_atoms data1 ≡ₚ all_atoms data2 →
  all_edges data1 ≡ₚ all_edges data2 →
  all_bonds data1 ≡ₚ all_bonds data2 →
  result_equiv (extract_data data1) (extract_data data2).
Proof.
  intros Hd1 Hd2 Hatoms Hedges Hbonds. rewrite !extract_data_unfold.
  assert (torch_unique (element_pair <$> all_edges data1)
          = torch_unique (element_pair <$> all_edges data2)) as Hu
    by (apply torch_unique_Permutation; by rewrite Hedges).
  assert (torch_unique (flatten (element_pair <$> all_edges data1))
          = torch_unique (flatten (element_pair <$> all_edges data2))) as He
    by (apply torch_unique_Permutation; unfold flatten; by rewrite Hedges).
  assert (torch_unique (all_bonds data1) = torch_unique (all_bonds data2)) as Hb
    by (by apply torch_unique_Permutation).
  assert ((unique_counts (all_bonds data1)).2 = (unique_counts (all_bonds data2)).2)
    as Hc.
  { unfold unique_counts. simpl. rewrite Hb. apply list_fmap_ext.
    intros _ c _. by apply occurrences_Permutation. }
  rewrite Hu, He, Hb, Hc, (loop_atoms_multiset data1 data2 Hatoms).
  rewrite (decide_False (P := data1 = [])), (decide_False (P := data2 = []))
    by done.
  case_decide; [|done].
  destruct (chunks _ _ _ !! 0) as [zs0|]; [|done]. simpl.
  destruct (apply_z2idx _ _) as [ix|e]; [|done]. simpl.
  split_and!; try done.
  - apply chunks_Forall2. by apply scatter_mean_Permutation.
  - apply matrix_equiv_refl.
Qed.

Lemma batching_independent_witness :
  dense_run ≠ [] ∧ merged dense_run ≠ []
  ∧ all_atoms dense_run ≡ₚ all_atoms (merged dense_run)
  ∧ all_edges dense_run ≡ₚ all_edges (merged dense_run)
  ∧ all_bonds dense_run ≡ₚ all_bonds (merged dense_run)
  ∧ result_equiv (extract_data dense_run) (extract_data (merged dense_run)).
Proof.
  split; [discriminate|]. split; [discriminate|].
  split; [reflexivity|]. split; [reflexivity|]. split; [reflexivity|].
  apply batching_independent; [discriminate|discriminate|reflexivity..].
Defined.

(** * Properties of [visualize] *)

(** ** Element symbols *)

Lemma num2elem_lookup (a : Z) :
  is_Some (num2elem !! a) ↔ a ∈ [1; 6; 7; 8; 9]%Z.
Proof.
  unfold num2elem. rewrite !elem_of_cons, elem_of_nil. split.
  - intros [x Hx].
    repeat (apply lookup_insert_Some in Hx as [[<- _]|[_ Hx]]; [tauto|]).
    apply lookup_singleton_Some in Hx as [<- _]. tauto.
  - intros [->|[->|[->|[->|[->|[]]]]]]; by eexists.
Qed.

Lemma num2elem_inj (a b : Z) (x : string) :
  num2elem !! a = Some x → num2elem !! b = Some x → a = b.
Proof.
  intros Ha Hb.
  assert (is_Some (num2elem !! a)) as Ha' by eauto.
  assert (is_Some (num2elem !! b)) as Hb' by eauto.
  apply num2elem_lookup in Ha', Hb'.
  rewrite !elem_of_cons, elem_of_nil in Ha', Hb'.
  destruct Ha' as [->|[->|[->|[->|[->|[]]]]]];
    destruct Hb' as [->|[->|[->|[->|[->|[]]]]]];
    vm_compute in Ha, Hb; congruence.
Qed.

Lemma element_symbols_Ok (zs : list Z) (l : list string) :
  element_symbols zs = Ok l ↔ Forall2 (λ a x, num2elem !! a = Some x) zs l.
Proof. unfold element_symbols. by rewrite from_option_Ok, mapM_Some. Qed.

Lemma element_symbols_total (zs : list Z) :
  Forall (λ a, a ∈ [1; 6; 7; 8; 9]%Z) zs → ∃ l, element_symbols zs = Ok l.
Proof.
  intros Hall.
  assert (∃ l, Forall2 (λ a x, num2elem !! a = Some x) zs l) as [l Hl].
  { induction Hall as [|a zs Ha _ [l IH]]; [by exists []|].
    apply num2elem_lookup in Ha as [x Hx]. exists (x :: l). by constructor. }
  exists l. by apply element_symbols_Ok.
Qed.

Lemma element_symbols_Raise (zs : list Z) (e : Error) :
  element_symbols zs = Raise e → e = KeyError.
Proof. unfold element_symbols. destruct (mapM _ zs); simpl; congruence. Qed.

Lemma zs_observed (data : list Batch) (s : Snapshot) :
  extract_data data = Ok s → ∀ a, a ∈ zs s ↔ observed a data.
Proof.
  intros Hs a.
  destruct (extract_data_Ok data s Hs) as (_ & _ & _ & _ & Hzs & _).
  rewrite Hzs. apply observed_elements.
Qed.

(** X10. For a snapshot written by [extract_data], the panels are computed
    exactly when every observed element is one of hydrogen, carbon,
    nitrogen, oxygen and fluorine; any other atomic number raises a key
    error before anything is drawn.  The tick labels then name the rows of
    the attention matrix one by one, and no two ticks share a label. *)
Theorem panels_need_known_elements (data : list Batch) (s : Snapshot)
    (normalize_attention : bool) :
  extract_data data = Ok s →
  ((∃ p, visualize_panels normalize_attention s = Ok p)
   ↔ ∀ a, observed a data → a ∈ [1; 6; 7; 8; 9]%Z)
  ∧ (visualize_panels normalize_attention s = Raise KeyError
     ↔ ∃ a, observed a data ∧ a ∉ [1; 6; 7; 8; 9]%Z)
  ∧ ∀ p, visualize_panels normalize_attention s = Ok p →
      Forall2 (λ a x, num2elem !! a = Some x) (zs s) (elements p)
      ∧ NoDup (elements p).
Proof.
  intros Hs.
  pose proof (zs_observed data s Hs) as Hobs.
  assert (∀ a, a ∈ zs_ref s → a ∈ zs s) as Href.
  { destruct (extract_data_Ok data s Hs) as (_ & _ & _ & Hsub & Hzs & _ & Hzr & _).
    intros a. rewrite Hzr, Hzs. intros Ha%torch_unique_elem_1.
    apply list_elem_of_fmap in Ha as (c & -> & Hc%torch_unique_elem_1).
    by apply Hsub. }
  assert ((∀ a, observed a data → a ∈ [1; 6; 7; 8; 9]%Z)
          → ∃ p, visualize_panels normalize_attention s = Ok p) as Hok.
  { intros Hknown. unfold visualize_panels.
    destruct (element_symbols_total (zs s)) as [l ->].
    { apply Forall_forall. intros a Ha. by apply Hknown, Hobs. }
    destruct (element_symbols_total (zs_ref s)) as [l' ->].
    { apply Forall_forall. intros a Ha. by apply Hknown, Hobs, Href. }
    simpl. eauto. }
  assert (∀ p, visualize_panels normalize_attention s = Ok p →
            Forall2 (λ a x, num2elem !! a = Some x) (zs s) (elements p)) as Hlab.
  { intros p Hp. unfold visualize_panels in Hp.
    apply bind_Ok in Hp as (l & Hl & Hp).
    apply bind_Ok in Hp as (l' & Hl' & Hp). injection Hp as <-. simpl.
    by apply element_symbols_Ok. }
  assert ((∃ p, visualize_panels normalize_attention s = Ok p)
          → ∀ a, observed a data → a ∈ [1; 6; 7; 8; 9]%Z) as Hknown.
  { intros [p Hp] a Ha%Hobs. apply Hlab in Hp.
    apply list_elem_of_lookup in Ha as [i Hi].
    destruct (Forall2_lookup_l _ _ _ i a Hp Hi) as (x & _ & Hx).
    apply num2elem_lookup. eauto. }
  split_and!.
  - by split.
  - split.
    + intros Hraise.
      destruct (decide (Forall (λ a, a ∈ [1; 6; 7; 8; 9]%Z) (zs s))) as [Hall|Hex].
      * destruct Hok as [p Hp]; [|congruence].
        intros a Ha%Hobs. eapply Forall_forall in Hall; [exact Hall | exact Ha].
      * apply not_Forall_Exists in Hex; [|apply _].
        apply Exists_exists in Hex as (a & Ha & Hnin). exists a.
        split; [by apply Hobs | done].
    + intros (a & Ha & Hnin).
      destruct (visualize_panels normalize_attention s) as [p|e] eqn:Hp.
      * exfalso. apply Hnin. apply Hknown; eauto.
      * f_equal. unfold visualize_panels in Hp.
        destruct (element_symbols (zs s)) as [l|e1] eqn:Hl; simpl in Hp.
        -- destruct (element_symbols (zs_ref s)) as [l'|e2] eqn:Hl'; simpl in Hp;
             [done|].
           apply element_symbols_Raise in Hl'. congruence.
        -- apply element_symbols_Raise in Hl. congruence.
  - intros p Hp. split; [by apply Hlab|].
    apply Hlab in Hp.
    assert (NoDup (zs s)) as Hnd.
    { destruct (extract_data_Ok data s Hs) as (_ & _ & _ & _ & Hzs & _).
      rewrite Hzs. apply torch_unique_NoDup. }
    clear -Hp Hnd. induction Hp as [|a x zs l Hx Hp IH]; [constructor|].
    apply NoDup_cons in Hnd as [Ha Hnd]. constructor; [|by apply IH].
    intros Hin. apply Ha.
    apply list_elem_of_lookup in Hin as [i Hi].
    destruct (Forall2_lookup_r _ _ _ i x Hp Hi) as (b & Hb & Hbx).
    rewrite (num2elem_inj a b x Hx Hbx). by eapply list_elem_of_lookup_2.
Qed.

Lemma panels_need_known_elements_witness :
  ∃ s, extract_data dense_run = Ok s
       ∧ ((∃ p, visualize_panels true s = Ok p)
          ↔ ∀ a, observed a dense_run → a ∈ [1; 6; 7; 8; 9]%Z)
       ∧ (visualize_panels true s = Raise KeyError
          ↔ ∃ a, observed a dense_run ∧ a ∉ [1; 6; 7; 8; 9]%Z)
       ∧ ∀ p, visualize_panels true s = Ok p →
           Forall2 (λ a x, num2elem !! a = Some x) (zs s) (elements p)
           ∧ NoDup (elements p).
Proof.
  eexists. split; [vm_compute; reflexivity|].
  apply (panels_need_known_elements dense_run). reflexivity.
Defined.

(** ** Normalised attention scores *)

Lemma Qsum_nonneg (l : list Q) : Forall (λ q, 0 < q)%Q l → (0 <= Qsum l)%Q.
Proof.
  induction 1 as [|q l Hq _ IH]; [by unfold Qsum|].
  rewrite Qsum_cons. apply Qlt_le_weak in Hq.
  change 0%Q with (0 + 0)%Q. by apply Qplus_le_compat.
Qed.

Lemma Qsum_pos (l : list Q) : l ≠ [] → Forall (λ q, 0 < q)%Q l → (0 < Qsum l)%Q.
Proof.
  intros Hne Hall. destruct Hall as [|q l Hq Hall]; [done|].
  rewrite Qsum_cons. apply Qsum_nonneg in Hall.
  change 0%Q with (0 + 0)%Q. by apply Qplus_lt_le_compat.
Qed.

Lemma Qmean_pos (l : list Q) : l ≠ [] → Forall (λ q, 0 < q)%Q l → (0 < Qmean l)%Q.
Proof.
  intros Hne Hall. unfold Qmean. apply Qlt_shift_div_l.
  - change 0%Q with (inject_Z 0). rewrite <- Zlt_Qlt. destruct l; [done|]. simpl. lia.
  - rewrite Qmult_0_l. by apply Qsum_pos.
Qed.

Lemma Qsum_div (t : Q) (l : list Q) :
  (Qsum ((λ q, q / t) <$> l) == Qsum l / t)%Q.
Proof.
  induction l as [|q l IH]; csimpl.
  - unfold Qsum, Qdiv. simpl. by rewrite Qmult_0_l.
  - rewrite !Qsum_cons, IH. unfold Qdiv. ring.
Qed.

(** A row of positive numbers divided by its sum adds up to one. *)
Lemma normalize_row_sum (qs : list Q) :
  qs ≠ [] → Forall (λ q, 0 < q)%Q qs →
  (λ x, Float.div x (Float.sum (Some <$> qs))) <$> (Some <$> qs)
  = Some <$> ((λ q, q / Qsum qs)%Q <$> qs)
  ∧ (Qsum ((λ q, q / Qsum qs)%Q <$> qs) == 1)%Q.
Proof.
  intros Hne Hall. pose proof (Qsum_pos qs Hne Hall) as Hpos.
  assert (¬ (Qsum qs == 0)%Q) as Hnz.
  { intros Hz. rewrite Hz in Hpos. by apply Qlt_irrefl in Hpos. }
  split.
  - rewrite Float_sum_finite, <- !list_fmap_compose. apply list_fmap_ext.
    intros _ q _. simpl.
    destruct (Qeq_bool (Qsum qs) 0) eqn:Hb; [|done].
    by apply Qeq_bool_iff in Hb.
  - rewrite Qsum_div. by apply Qmult_inv_r.
Qed.

(** The rows of the interaction matrix of a result. *)
Lemma interaction_row (data : list Batch) (r : Snapshot) (i : nat) (a : Z) :
  extract_data data = Ok r → zs r !! i = Some a →
  attn r !! i
  = Some (Some <$> ((λ b, Qmean (weights_of a b (all_edges data))) <$> zs r)).
Proof.
  intros Hr Hi.
  destruct (extract_data_Ok data r Hr) as (_ & _ & _ & _ & Hzs & Hattn & _).
  pose proof (lookup_lt_Some _ _ _ Hi) as Hilt.
  assert (∃ row, attn r !! i = Some row ∧ length row ≤ length (zs r))
    as (row & Hrow & Hlen).
  { rewrite Hattn, <- Hzs, chunks_lookup by done. eexists. split; [done|].
    rewrite length_take. lia. }
  rewrite Hrow. f_equal. apply list_eq. intros j.
  rewrite !list_lookup_fmap.
  destruct (zs r !! j) as [b|] eqn:Hj; simpl.
  - destruct (interaction_cell data r i j a b Hr Hi Hj) as [_ Hcell].
    unfold cell in Hcell. by rewrite Hrow in Hcell.
  - apply lookup_ge_None. apply lookup_ge_None in Hj. lia.
Qed.

(** X11. With [normalize_attention], and all attention weights positive,
    every row of the attention panel consists of finite numbers that add up
    to one: no row sum is zero, and no cell becomes [nan]. *)
Theorem normalized_rows_sum_to_one (data : list Batch) (s : Snapshot)
    (p : Panels) (i : nat) :
  extract_data data = Ok s →
  (∀ e, e ∈ all_edges data → 0 < attention_weight e)%Q →
  visualize_panels true s = Ok p →
  i < length (zs s) →
  ∃ row, weights p !! i = Some (Some <$> row) ∧ (Qsum row == 1)%Q.
Proof.
  intros Hs Hpos Hp Hi.
  unfold visualize_panels in Hp.
  apply bind_Ok in Hp as (l & _ & Hp). apply bind_Ok in Hp as (l' & _ & Hp).
  injection Hp as <-. simpl.
  apply lookup_lt_is_Some_2 in Hi as [a Ha].
  pose proof (interaction_row data s i a Hs Ha) as Hrow.
  set (qs := (λ b, Qmean (weights_of a b (all_edges data))) <$> zs s) in *.
  assert (qs ≠ []) as Hne.
  { intros Hnil. apply fmap_nil_inv in Hnil. by rewrite Hnil in Ha. }
  assert (Forall (λ q, 0 < q)%Q qs) as Hall.
  { apply Forall_fmap, Forall_lookup. intros j b Hj. simpl.
    destruct (interaction_cell data s i j a b Hs Ha Hj) as [Hw _].
    apply Qmean_pos; [done|]. unfold weights_of.
    apply Forall_fmap, Forall_forall. intros e [_ He]%list_elem_of_filter.
    by apply Hpos. }
  destruct (normalize_row_sum qs Hne Hall) as [Heq Hsum].
  exists ((λ q, q / Qsum qs)%Q <$> qs). split; [|done].
  unfold normalize_weights. rewrite list_lookup_fmap, Hrow. simpl. by rewrite Heq.
Qed.

Lemma normalized_rows_sum_to_one_witness :
  ∃ s p, extract_data dense_run = Ok s
         ∧ (∀ e, e ∈ all_edges dense_run → 0 < attention_weight e)%Q
         ∧ visualize_panels true s = Ok p
         ∧ 0 < length (zs s)
         ∧ ∃ row, weights p !! 0 = Some (Some <$> row) ∧ (Qsum row == 1)%Q.
Proof.
  assert (∀ e, e ∈ all_edges dense_run → 0 < attention_weight e)%Q as Hb.
  { apply Forall_forall. vm_compute all_edges. repeat constructor. }
  eexists. eexists. split; [vm_compute; reflexivity|].
  split; [exact Hb|]. split; [vm_compute; reflexivity|].
  split; [simpl; lia|].
  eapply (normalized_rows_sum_to_one dense_run); [reflexivity|exact Hb|reflexivity|simpl; lia].
Defined.

(** ** The curve of [visualize] *)

Lemma selected_samples_edges (data : list Batch) (s : Snapshot) (z1 z2 : Z) :
  extract_data data = Ok s →
  selected_samples z1 z2 s
  = (λ e, (distance e, Some (attention_weight e)))
      <$> filter (λ e, same_unordered_pair z1 z2 (element_pair e)) (all_edges data).
Proof.
  intros Hs. unfold selected_samples.
  rewrite (extract_data_samples data s Hs), filter_fmap, <- list_fmap_compose.
  done.
Qed.

(** X12. The curve that [visualize] draws, with its window of 1000 samples:
    for a snapshot written by [extract_data] it has one point per attention
    edge between hydrogen and carbon, and the point at position [k] has a
    value exactly when more than [k + 1000] such edges exist.  With at most
    1000 of them no point of the curve has a value. *)
Theorem visualize_curve_window (sort_indices : list Q → list nat)
    (data : list Batch) (s : Snapshot) :
  sort_contract sort_indices →
  extract_data data = Ok s →
  ∃ curve, visualize_curve sort_indices s = Ok curve
           ∧ length curve = length (hydrogen_carbon_edges data)
           ∧ (∀ k p, curve !! k = Some p →
                (is_Some p.2 ↔ k + 1000 < length (hydrogen_carbon_edges data)))
           ∧ (length (hydrogen_carbon_edges data) ≤ 1000 →
              Forall (λ p, p.2 = None) curve).
Proof.
  intros Hsort Hs.
  destruct (extract_data_raw_arrays data s Hs) as (Ha & Hd & Hfin).
  destruct (smooth_Ok sort_indices 1 6 1000 s Hsort Ha Hd Hfin)
    as (curve & Hcurve & Hlen & Hdef).
  rewrite (selected_samples_edges data s 1 6 Hs), length_fmap in Hlen.
  fold (hydrogen_carbon_edges data) in Hlen.
  exists curve. split; [exact Hcurve|]. split; [exact Hlen|].
  assert (∀ k p, curve !! k = Some p →
            (is_Some p.2 ↔ k + 1000 < length (hydrogen_carbon_edges data)))
    as Hdef'.
  { intros k p Hk. rewrite (Hdef k p Hk), Hlen. split; [by intros [_ ?]|].
    intros ?. split; [lia|done]. }
  split; [exact Hdef'|].
  intros Hfew. apply Forall_lookup. intros k p Hk.
  destruct (p.2) as [v|] eqn:Hv; [|done]. exfalso.
  assert (is_Some p.2) as Hsome by (rewrite Hv; eauto).
  apply (Hdef' k p Hk) in Hsome. lia.
Qed.

Lemma visualize_curve_window_witness :
  ∃ s, sort_contract argsort_stable
       ∧ extract_data curve_run = Ok s
       ∧ ∃ curve, visualize_curve argsort_stable s = Ok curve
                  ∧ length curve = length (hydrogen_carbon_edges curve_run)
                  ∧ (∀ k p, curve !! k = Some p →
                       (is_Some p.2
                        ↔ k + 1000 < length (hydrogen_carbon_edges curve_run)))
                  ∧ (length (hydrogen_carbon_edges curve_run) ≤ 1000 →
                     Forall (λ p, p.2 = None) curve).
Proof.
  eexists. split; [apply argsort_stable_contract|].
  split; [vm_compute; reflexivity|].
  apply (visualize_curve_window argsort_stable curve_run).
  - apply argsort_stable_contract.
  - reflexivity.
Defined.





(** * Properties of [check_radius.py] *)

Lemma length_concat_imap {A B} (f : nat → A → list B) (g : A → nat) (l : list A) :
  (∀ i x, length (f i x) = g x) →
  length (concat (imap f l)) = sum_list (g <$> l).
Proof.
  revert f. induction l as [|x l IH]; intros f Hf; csimpl; [done|].
  rewrite length_app, Hf, (IH (f ∘ S)); [done|]. intros i y. apply Hf.
Qed.

Lemma length_radius_graph (within : list (list nat)) (k : nat) :
  length (radius_graph within k)
  = sum_list ((λ ns, length ns `min` k) <$> within).
Proof.
  unfold radius_graph. apply length_concat_imap.
  intros i ns. rewrite length_fmap, length_take. lia.
Qed.

Lemma capped_sums (within : list (list nat)) :
  sum_list ((λ ns, length ns `min` 32) <$> within)
  ≤ sum_list ((λ ns, length ns `min` 1024) <$> within)
  ∧ (sum_list ((λ ns, length ns `min` 1024) <$> within)
     = sum_list ((λ ns, length ns `min` 32) <$> within)
     ↔ Forall (λ ns, length ns ≤ 32) within).
Proof.
  induction within as [|ns within [IHle IHeq]]; csimpl.
  - split; [lia|]. split; [constructor | done].
  - split; [lia|]. rewrite Forall_cons. split.
    + intros Heq. split; [lia|]. apply IHeq. lia.
    + intros [Hns Hall%IHeq]. lia.
Qed.

Lemma shape_error_crowded (within : list (list nat)) :
  shape_error within = true ↔ crowded within.
Proof.
  unfold shape_error, crowded.
  rewrite bool_decide_eq_true, !length_radius_graph.
  destruct (capped_sums within) as [_ Heq]. rewrite Heq. split.
  - intros Hex%not_Forall_Exists; [|apply _].
    eapply Exists_impl; [exact Hex|]. intros ns Hns. simpl in Hns. lia.
  - intros Hex Hall. apply Exists_exists in Hex as (ns & Hin & Hns).
    eapply Forall_forall in Hall; [|exact Hin]. simpl in Hall. lia.
Qed.

Lemma foldl_count_errors (dl : list (list (list nat))) (n : nat) :
  foldl (λ errors within, if shape_error within then errors + 1 else errors) n dl
  = n + length (filter crowded dl).
Proof.
  revert n. induction dl as [|within dl IH]; intros n; simpl; [lia|].
  rewrite IH, filter_cons.
  destruct (decide (crowded within)) as [Hc|Hc].
  - rewrite (proj2 (shape_error_crowded within) Hc). simpl. lia.
  - destruct (shape_error within) eqn:Hs; [|done].
    by apply shape_error_crowded in Hs.
Qed.

(** X14. The check flags a batch exactly when some atom has more than 32
    atoms within the cutoff, the default [max_num_neighbors]; the number of
    errors it reports is the number of such batches; and with an empty
    loader the report divides by zero. *)
Theorem check_radius_counts_crowded (dl : list (list (list nat))) :
  (∀ within, shape_error within = true ↔ crowded within)
  ∧ count_errors dl = length (filter crowded dl)
  ∧ (report dl = None ↔ dl = [])
  ∧ ∀ errors total ratio, report dl = Some (errors, total, ratio) →
      errors = length (filter crowded dl) ∧ total = length dl
      ∧ (0 <= ratio ∧ ratio <= 1)%Q.
Proof.
  assert (count_errors dl = length (filter crowded dl)) as Hcount.
  { unfold count_errors. by rewrite foldl_count_errors. }
  split_and!.
  - apply shape_error_crowded.
  - exact Hcount.
  - unfold report. rewrite <- length_zero_iff_nil.
    case_decide; split; done.
  - intros errors total ratio. unfold report. case_decide as Hlen; [done|].
    intros [= <- <- <-]. split; [exact Hcount|]. split; [done|].
    assert (0 < inject_Z (Z.of_nat (length dl)))%Q as Hpos.
    { change 0%Q with (inject_Z 0). rewrite <- Zlt_Qlt. lia. }
    pose proof (length_filter crowded dl) as Hle. rewrite <- Hcount in Hle.
    split.
    + apply Qle_shift_div_l; [done|]. rewrite Qmult_0_l.
      change 0%Q with (inject_Z 0). rewrite <- Zle_Qle. lia.
    + apply Qle_shift_div_r; [done|]. rewrite Qmult_1_l.
      rewrite <- Zle_Qle. lia.
Qed.

(** * Properties of the guessed bonds *)

Lemma foldl_guess_Raise {Pos} (guessBonds : list (string * Pos) → list (nat * nat))
    (atoms : list (AtomRow Pos)) (e : Error) (mols : list nat) :
  foldl (guess_step guessBonds atoms) (Raise e) mols = Raise e.
Proof. induction mols as [|m mols IH]; simpl; [done|exact IH]. Qed.

Lemma filter_none {A} (P : A → Prop) `{!∀ x, Decision (P x)} (l : list A) :
  (∀ x, x ∈ l → ¬ P x) → filter P l = [].
Proof.
  induction l as [|x l IH]; intros Hl; [done|].
  rewrite filter_cons, decide_False by (apply Hl; left).
  apply IH. intros y Hy. apply Hl. by right.
Qed.

Lemma filter_ext_elem {A} (P Q : A → Prop)
    `{!∀ x, Decision (P x), !∀ x, Decision (Q x)} (l : list A) :
  (∀ x, x ∈ l → P x ↔ Q x) → filter P l = filter Q l.
Proof.
  induction l as [|x l IH]; intros Hl; [done|].
  rewrite !filter_cons.
  assert (P x ↔ Q x) as Hx by (apply Hl; left).
  rewrite IH by (intros y Hy; apply Hl; by right).
  destruct (decide (P x)), (decide (Q x)); tauto || done.
Qed.

Lemma length_filter_split {A} (P Q R : A → Prop)
    `{!∀ x, Decision (P x), !∀ x, Decision (Q x), !∀ x, Decision (R x)}
    (l : list A) :
  (∀ x, x ∈ l → P x ↔ Q x ∨ R x) → (∀ x, x ∈ l → Q x → R x → False) →
  length (filter P l) = length (filter Q l) + length (filter R l).
Proof.
  induction l as [|x l IH]; intros Hl Hd; [done|].
  rewrite !filter_cons.
  assert (P x ↔ Q x ∨ R x) as Hx by (apply Hl; left).
  assert (Q x → R x → False) as Hx' by (apply Hd; left).
  assert (length (filter P l) = length (filter Q l) + length (filter R l)) as IH'.
  { apply IH; intros y Hy; [apply Hl | apply Hd]; by right. }
  destruct (decide (P x)), (decide (Q x)), (decide (R x)); simpl; try tauto; lia.
Qed.

Lemma elem_of_concat {A} (x : A) (ls : list (list A)) :
  x ∈ concat ls ↔ ∃ l, x ∈ l ∧ l ∈ ls.
Proof.
  induction ls as [|l0 ls IH]; simpl.
  - split; [by intros ?%elem_of_nil|]. by intros (l & _ & ?%elem_of_nil).
  - rewrite elem_of_app, IH. split.
    + intros [Hx|(l & Hx & Hl)].
      * exists l0. split; [done|left].
      * exists l. split; [done|by right].
    + intros (l & Hx & [Heq|Hl]%elem_of_cons).
      * left. by rewrite <- Heq.
      * right. eauto.
Qed.

Lemma nonempty_elem {A} (l : list A) : l ≠ [] → ∃ a, a ∈ l.
Proof. destruct l as [|a l]; [done|]. intros _. exists a. left. Qed.

Section guess_bonds_facts.
Context {Pos : Type}.
Variable guessBonds : list (string * Pos) → list (nat * nat).
Variable atoms : list (AtomRow Pos).

Lemma guess_fold_inv (mols : list nat) (off : nat) (acc : list (list (nat * nat)))
    (off' : nat) (acc' : list (list (nat * nat))) :
  foldl (guess_step guessBonds atoms) (Ok (off, acc)) mols = Ok (off', acc') →
  ∃ ls, acc' = acc ++ ls
    ∧ Forall2 (λ mo l, ∃ bonds,
          molecule_bonds guessBonds (molecule atoms mo.1) = Ok bonds
          ∧ l = shift_bonds mo.2 bonds)
        (with_offsets atoms off mols) ls.
Proof.
  revert off acc. induction mols as [|m mols IH]; intros off acc; simpl.
  - intros [= <- <-]. exists []. split; [by rewrite app_nil_r | constructor].
  - destruct (molecule_bonds guessBonds (molecule atoms m)) as [bonds|e] eqn:Hm;
      simpl.
    + intros (ls & -> & Hls)%IH.
      exists (shift_bonds off bonds :: ls). split; [by rewrite <- app_assoc|].
      constructor; [|done]. exists bonds. done.
    + by rewrite foldl_guess_Raise.
Qed.

Lemma guess_fold_total (mols : list nat) (off : nat) (acc : list (list (nat * nat))) :
  (∀ m, m ∈ mols → ∃ bonds, molecule_bonds guessBonds (molecule atoms m) = Ok bonds) →
  ∃ off' ls,
    foldl (guess_step guessBonds atoms) (Ok (off, acc)) mols = Ok (off', acc ++ ls)
    ∧ length ls = length mols.
Proof.
  revert off acc. induction mols as [|m mols IH]; intros off acc Hall; simpl.
  - exists off, []. by rewrite app_nil_r.
  - destruct (Hall m) as [bonds Hm]; [left|]. rewrite Hm. simpl.
    destruct (IH (off + length (molecule atoms m))
                (acc ++ [shift_bonds off bonds])) as (off' & ls & Hf & Hlen).
    { intros m' Hm'. apply Hall. by right. }
    exists off', (shift_bonds off bonds :: ls).
    rewrite Hf, <- app_assoc. simpl. by rewrite Hlen.
Qed.

Lemma molecule_bonds_Raise (mol : list (AtomRow Pos)) (e : Error) :
  molecule_bonds guessBonds mol = Raise e → e = KeyError.
Proof.
  unfold molecule_bonds.
  destruct (element_symbols (atom_z <$> mol)) as [names|e'] eqn:Hn; simpl.
  - discriminate.
  - intros [= <-]. by apply element_symbols_Raise in Hn.
Qed.

Lemma guess_fold_fail (mols : list nat) (off : nat) (acc : list (list (nat * nat)))
    (m : nat) (e : Error) :
  m ∈ mols → molecule_bonds guessBonds (molecule atoms m) = Raise e →
  foldl (guess_step guessBonds atoms) (Ok (off, acc)) mols = Raise KeyError.
Proof.
  revert off acc. induction mols as [|m0 mols IH]; intros off acc Hin Hm.
  - by apply elem_of_nil in Hin.
  - simpl.
    destruct (molecule_bonds guessBonds (molecule atoms m0)) as [bonds|e0] eqn:Hm0;
      simpl.
    + apply IH; [|done]. apply elem_of_cons in Hin as [->|Hin]; [congruence|done].
    + apply molecule_bonds_Raise in Hm0 as ->. apply foldl_guess_Raise.
Qed.

Lemma molecule_bonds_known (mol : list (AtomRow Pos)) :
  (∃ bonds, molecule_bonds guessBonds mol = Ok bonds)
  ↔ Forall (λ a, atom_z a ∈ [1; 6; 7; 8; 9]%Z) mol.
Proof.
  unfold molecule_bonds. split.
  - intros [bonds (names & Hn & _)%bind_Ok].
    apply element_symbols_Ok in Hn. apply Forall_forall. intros a Ha.
    apply list_elem_of_lookup in Ha as [i Hi].
    assert ((atom_z <$> mol) !! i = Some (atom_z a)) as Hz
      by (by rewrite list_lookup_fmap, Hi).
    destruct (Forall2_lookup_l _ _ _ i _ Hn Hz) as (x & _ & Hx).
    apply num2elem_lookup. eauto.
  - intros Hall. destruct (element_symbols_total (atom_z <$> mol)) as [l ->].
    { by apply Forall_fmap. }
    simpl. eauto.
Qed.

Lemma molecule_lookup (m i : nat) (a : AtomRow Pos) :
  StronglySorted (λ a b, atom_batch a ≤ atom_batch b) atoms →
  molecule atoms m !! i = Some a →
  atoms !! (i + atoms_before atoms m) = Some a.
Proof.
  unfold molecule, atoms_before. clear guessBonds. intros Hs. revert i.
  induction Hs as [|x l Hl IH Hx]; intros i; [done|].
  rewrite Forall_forall in Hx. rewrite !filter_cons.
  destruct (lt_eq_lt_dec (atom_batch x) m) as [[Hlt|Heq]|Hgt].
  - rewrite decide_False, decide_True by lia. simpl.
    intros Hi%IH. by rewrite Nat.add_succ_r.
  - rewrite decide_True, decide_False by lia.
    rewrite (filter_none (λ a, atom_batch a < m)) in *.
    2,3: intros y Hy%Hx; lia.
    simpl in *. rewrite Nat.add_0_r. destruct i as [|i]; simpl; [done|].
    intros Hi%IH. by rewrite Nat.add_0_r in Hi.
  - rewrite decide_False by lia. rewrite filter_none; [done|].
    intros y Hy%Hx. lia.
Qed.

Lemma with_offsets_before (mols : list nat) (off : nat) :
  StronglySorted lt mols →
  (∀ a, a ∈ atoms → atom_batch a ∈ mols ∨ ∀ m, m ∈ mols → atom_batch a < m) →
  off = length (filter (λ a, atom_batch a ∉ mols) atoms) →
  ∀ m o, (m, o) ∈ with_offsets atoms off mols → o = atoms_before atoms m.
Proof.
  intros Hsorted. revert off.
  induction Hsorted as [|m0 mols Hsorted IH Hm0]; intros off Hcover Hoff m o;
    simpl.
  - by intros ?%elem_of_nil.
  - rewrite Forall_forall in Hm0.
    intros [[= -> ->]|Hin]%elem_of_cons.
    + rewrite Hoff. unfold atoms_before. f_equal. apply filter_ext_elem.
      intros a Ha. rewrite elem_of_cons. split.
      * intros Hnot. destruct (Hcover a Ha) as [Hin|Hlt].
        -- apply elem_of_cons in Hin. tauto.
        -- apply Hlt. left.
      * intros Hlt [Heq|Hin%Hm0]; lia.
    + eapply (IH (off + length (molecule atoms m0))); [| |exact Hin].
      * intros a Ha. destruct (Hcover a Ha) as [[->|Hin']%elem_of_cons|Hlt].
        -- right. intros m' Hm'%Hm0. done.
        -- by left.
        -- right. intros m' Hm'. apply Hlt. by right.
      * rewrite Hoff. unfold molecule. symmetry. apply length_filter_split.
        -- intros a Ha. rewrite elem_of_cons.
           destruct (decide (atom_batch a = m0)) as [->|Hne].
           ++ split; [auto|]. intros _ Hin'%Hm0. lia.
           ++ tauto.
        -- intros a Ha Hnot Heq. apply Hnot. rewrite Heq. left.
Qed.

Lemma StronglySorted_atom_batch :
  Sorted le (atom_batch <$> atoms) →
  StronglySorted (λ a b : AtomRow Pos, atom_batch a ≤ atom_batch b) atoms.
Proof.
  intros Hs%Sorted_StronglySorted; [|intros x y z; lia].
  clear guessBonds. induction atoms as [|a l IH]; [constructor|].
  csimpl in Hs. apply StronglySorted_inv in Hs as [Hs Ha].
  constructor; [by apply IH|]. rewrite Forall_fmap in Ha.
  eapply Forall_impl; [exact Ha|]. intros b Hb. exact Hb.
Qed.

Lemma guess_edge_index_Ok (edge_index : list (nat * nat)) :
  guess_edge_index guessBonds atoms = Ok edge_index →
  ∀ g, g ∈ edge_index
       ↔ ∃ m bonds i j,
           m ∈ atom_batch <$> atoms
           ∧ molecule_bonds guessBonds (molecule atoms m) = Ok bonds
           ∧ (i, j) ∈ bonds
           ∧ g = (i + atoms_before atoms m, j + atoms_before atoms m).
Proof.
  unfold guess_edge_index. intros ([off' acc'] & Hf & Hcat)%bind_Ok.
  apply guess_fold_inv in Hf as (ls & -> & Hls). simpl in Hcat.
  assert (edge_index = concat ls) as ->.
  { unfold torch_cat in Hcat. destruct ls; [done|]. by injection Hcat. }
  clear Hcat.
  assert (∀ m o, (m, o) ∈ with_offsets atoms 0 (torch_unique (atom_batch <$> atoms))
            → o = atoms_before atoms m) as Hoff.
  { apply with_offsets_before.
    - exact (torch_unique_sorted (atom_batch <$> atoms)).
    - intros a Ha. left. apply torch_unique_elem_2, list_elem_of_fmap. eauto.
    - rewrite filter_none; [done|]. intros a Ha Hnot. apply Hnot.
      apply torch_unique_elem_2, list_elem_of_fmap. eauto. }
  assert (∀ m o, (m, o) ∈ with_offsets atoms 0 (torch_unique (atom_batch <$> atoms))
            → m ∈ atom_batch <$> atoms) as Hmem.
  { intros m o Hin. apply torch_unique_elem_1.
    revert Hin. generalize 0 (torch_unique (atom_batch <$> atoms)).
    intros off mols. revert off.
    induction mols as [|m0 mols IH]; intros off; simpl.
    - by intros ?%elem_of_nil.
    - intros [[= -> ->]|Hin]%elem_of_cons; [left|right; eauto]. }
  assert (∀ m, m ∈ torch_unique (atom_batch <$> atoms) →
            ∃ o, (m, o) ∈ with_offsets atoms 0 (torch_unique (atom_batch <$> atoms)))
    as Hall.
  { generalize 0 (torch_unique (atom_batch <$> atoms)).
    intros off mols. revert off.
    induction mols as [|m0 mols IH]; intros off m; simpl.
    - by intros ?%elem_of_nil.
    - intros [->|Hin]%elem_of_cons.
      + eexists. left.
      + destruct (IH (off + length (molecule atoms m0)) m Hin) as [o Ho].
        exists o. by right. }
  intros g. split.
  - intros (l & Hg & Hl)%elem_of_concat.
    apply list_elem_of_lookup in Hl as [k Hk].
    destruct (Forall2_lookup_r _ _ _ k l Hls Hk) as ([m o] & Hmo & bonds & Hb & ->).
    apply list_elem_of_lookup_2 in Hmo.
    apply list_elem_of_fmap in Hg as ([i j] & -> & Hij). simpl.
    exists m, bonds, i, j. rewrite <- (Hoff m o Hmo). eauto.
  - intros (m & bonds & i & j & Hm & Hb & Hij & ->).
    destruct (Hall m) as [o Ho]; [by apply torch_unique_elem_2|].
    apply list_elem_of_lookup in Ho as Hk. destruct Hk as [k Hk].
    destruct (Forall2_lookup_l _ _ _ k _ Hls Hk) as (l & Hl & bonds' & Hb' & ->).
    simpl in Hb'. rewrite Hb in Hb'. injection Hb' as <-.
    apply elem_of_concat. exists (shift_bonds o bonds).
    split; [|by eapply list_elem_of_lookup_2].
    rewrite <- (Hoff m o Ho). apply list_elem_of_fmap. by exists (i, j).
Qed.

Lemma guess_edge_index_cases :
  match guess_edge_index guessBonds atoms with
  | Ok _ => atoms ≠ [] ∧ Forall (λ a, atom_z a ∈ [1; 6; 7; 8; 9]%Z) atoms
  | Raise EmptyCat => atoms = []
  | Raise KeyError => Exists (λ a, atom_z a ∉ [1; 6; 7; 8; 9]%Z) atoms
  | Raise _ => False
  end.
Proof.
  destruct (decide (atoms = [])) as [Hnil|Hne].
  { rewrite Hnil. reflexivity. }
  destruct (decide (Forall (λ a, atom_z a ∈ [1; 6; 7; 8; 9]%Z) atoms)) as [Hk|Hk].
  - destruct (guess_fold_total (torch_unique (atom_batch <$> atoms)) 0 [])
      as (off' & ls & Hf & Hlen).
    { intros m _. apply molecule_bonds_known. unfold molecule.
      rewrite Forall_forall in *. intros a [_ Ha]%list_elem_of_filter. auto. }
    unfold guess_edge_index. rewrite Hf. simpl.
    destruct ls as [|l ls]; [|done]. simpl in Hlen.
    destruct (nonempty_elem atoms Hne) as [a Ha].
    assert (atom_batch a ∈ torch_unique (atom_batch <$> atoms)) as Hin.
    { apply torch_unique_elem_2, list_elem_of_fmap. eauto. }
    symmetry in Hlen. apply length_zero_iff_nil in Hlen.
    rewrite Hlen in Hin. by apply elem_of_nil in Hin.
  - apply not_Forall_Exists in Hk; [|apply _].
    pose proof Hk as Hex. apply Exists_exists in Hex as (a & Ha & Hz).
    destruct (molecule_bonds guessBonds (molecule atoms (atom_batch a)))
      as [bonds|e] eqn:Hm.
    { exfalso. apply Hz.
      assert (Forall (λ a, atom_z a ∈ [1; 6; 7; 8; 9]%Z)
                (molecule atoms (atom_batch a))) as Hall
        by (apply molecule_bonds_known; eauto).
      rewrite Forall_forall in Hall. apply Hall.
      by apply list_elem_of_filter. }
    unfold guess_edge_index.
    rewrite (guess_fold_fail _ 0 [] (atom_batch a) e); [done| |done].
    apply torch_unique_elem_2, list_elem_of_fmap. eauto.
Qed.
End guess_bonds_facts.

(** X15. When the atoms of a batch are ordered by molecule, the guessed
    [edge_index] consists exactly of the bonds guessed in each molecule,
    moved by the number of atoms of the molecules before it, and the moved
    index of an atom of a molecule addresses that same atom in the batch. *)
Theorem guessed_bonds_address_their_atoms {Pos : Type}
    (guessBonds : list (string * Pos) → list (nat * nat))
    (atoms : list (AtomRow Pos)) (edge_index : list (nat * nat)) :
  Sorted le (atom_batch <$> atoms) →
  guess_edge_index guessBonds atoms = Ok edge_index →
  (∀ g, g ∈ edge_index
        ↔ ∃ m bonds i j,
            m ∈ atom_batch <$> atoms
            ∧ molecule_bonds guessBonds (molecule atoms m) = Ok bonds
            ∧ (i, j) ∈ bonds
            ∧ g = (i + atoms_before atoms m, j + atoms_before atoms m))
  ∧ ∀ m i a, molecule atoms m !! i = Some a →
             atoms !! (i + atoms_before atoms m) = Some a.
Proof.
  intros Hsorted Hei. split.
  - by apply guess_edge_index_Ok.
  - intros m i a. by apply molecule_lookup, StronglySorted_atom_batch.
Qed.

Lemma guessed_bonds_address_their_atoms_witness :
  Sorted le (atom_batch <$> two_molecules)
  ∧ guess_edge_index first_two_bonded two_molecules
    = Ok [(0, 1); (1, 0); (2, 3); (3, 2)]
  ∧ (∀ g, g ∈ [(0, 1); (1, 0); (2, 3); (3, 2)]
          ↔ ∃ m bonds i j,
              m ∈ atom_batch <$> two_molecules
              ∧ molecule_bonds first_two_bonded (molecule two_molecules m) = Ok bonds
              ∧ (i, j) ∈ bonds
              ∧ g = (i + atoms_before two_molecules m,
                     j + atoms_before two_molecules m))
  ∧ ∀ m i a, molecule two_molecules m !! i = Some a →
             two_molecules !! (i + atoms_before two_molecules m) = Some a.
Proof.
  assert (Sorted le (atom_batch <$> two_molecules)) as Hsorted
    by (repeat constructor).
  assert (guess_edge_index first_two_bonded two_molecules
          = Ok [(0, 1); (1, 0); (2, 3); (3, 2)]) as Hei
    by (vm_compute; reflexivity).
  split; [exact Hsorted|]. split; [exact Hei|].
  exact (guessed_bonds_address_their_atoms first_two_bonded two_molecules _
           Hsorted Hei).
Defined.

(** X16. Bond guessing returns exactly for a batch that has atoms, all of
    elements in [num2elem]; it raises the error of [torch.cat] for a batch
    without atoms and a [KeyError] as soon as one atom has another element. *)
Theorem guess_edge_index_failures {Pos : Type}
    (guessBonds : list (string * Pos) → list (nat * nat))
    (atoms : list (AtomRow Pos)) :
  ((∃ edge_index, guess_edge_index guessBonds atoms = Ok edge_index)
   ↔ atoms ≠ [] ∧ Forall (λ a, atom_z a ∈ [1; 6; 7; 8; 9]%Z) atoms)
  ∧ (guess_edge_index guessBonds atoms = Raise EmptyCat ↔ atoms = [])
  ∧ (guess_edge_index guessBonds atoms = Raise KeyError
     ↔ Exists (λ a, atom_z a ∉ [1; 6; 7; 8; 9]%Z) atoms).
Proof.
  pose proof (guess_edge_index_cases guessBonds atoms) as Hc.
  assert (Exists (λ a, atom_z a ∉ [1; 6; 7; 8; 9]%Z) atoms →
          ¬ Forall (λ a, atom_z a ∈ [1; 6; 7; 8; 9]%Z) atoms) as Hex.
  { intros (a & Ha & Hz)%Exists_exists Hall.
    rewrite Forall_forall in Hall. by apply Hz, Hall. }
  assert (Exists (λ a, atom_z a ∉ [1; 6; 7; 8; 9]%Z) atoms → atoms ≠ []) as Hne.
  { intros Hu ->. by apply Exists_nil in Hu. }
  destruct (guess_edge_index guessBonds atoms) as [edge_index|[]].
  - destruct Hc as [Hc1 Hc2]. split_and!.
    + split; [done|eauto].
    + split; [done|]. intros Hn. done.
    + split; [done|]. intros Hu%Hex. done.
  - split_and!.
    + split; [by intros [? ?]|]. by intros [? _].
    + done.
    + split; [done|]. by intros Hu%Hne.
  - done.
  - done.
  - split_and!.
    + split; [by intros [? ?]|]. intros [_ Hf]. by apply Hex in Hc.
    + split; [done|]. intros Hn. by apply Hne in Hc.
    + done.
Qed.

Lemma gather_total {A} (t : list A) (index : list nat) :
  Forall (λ i, i < length t) index → ∃ r, gather t index = Ok r.
Proof.
  intros Hall. unfold gather.
  destruct (mapM (λ i, t !! i) index) as [r|] eqn:Hr; simpl; [eauto|].
  assert (is_Some (mapM (λ i, t !! i) index)) as [r Hr'].
  { apply mapM_is_Some. eapply Forall_impl; [exact Hall|].
    intros i Hi. by apply lookup_lt_is_Some. }
  congruence.
Qed.

Lemma gather_lookup {A} (t : list A) (index : list nat) (r : list A) :
  gather t index = Ok r →
  length r = length index ∧ ∀ k i, index !! k = Some i → r !! k = t !! i.
Proof.
  unfold gather. intros Hr%from_option_Ok. apply mapM_Some in Hr. split.
  - symmetry. by eapply Forall2_length.
  - intros k i Hk. destruct (Forall2_lookup_l _ _ _ k i Hr Hk) as (x & -> & Hx).
    done.
Qed.

Section guessed_batch_facts.
Context {Pos : Type}.
Variable guessBonds : list (string * Pos) → list (nat * nat).
Variable atoms : list (AtomRow Pos).
Hypothesis guessBonds_in_range :
  ∀ mol, Forall (λ b, b.1 < length mol ∧ b.2 < length mol) (guessBonds mol).

Lemma molecule_bonds_in_range (mol : list (AtomRow Pos)) (bonds : list (nat * nat)) :
  molecule_bonds guessBonds mol = Ok bonds →
  Forall (λ b, b.1 < length mol ∧ b.2 < length mol) bonds.
Proof.
  unfold molecule_bonds. intros (names & Hn & [= <-])%bind_Ok.
  apply element_symbols_Ok, Forall2_length in Hn.
  rewrite length_fmap in Hn.
  pose proof (guessBonds_in_range (zip names (atom_pos <$> mol))) as Hr.
  rewrite length_zip_with, length_fmap, <- Hn, Nat.min_id in Hr. exact Hr.
Qed.

Lemma guessed_bonds_atoms (bonds : list (nat * nat)) (g : nat * nat) :
  Sorted le (atom_batch <$> atoms) →
  guess_edge_index guessBonds atoms = Ok bonds →
  g ∈ bonds →
  ∃ m i j x y,
    molecule atoms m !! i = Some x ∧ molecule atoms m !! j = Some y
    ∧ g = (i + atoms_before atoms m, j + atoms_before atoms m)
    ∧ atoms !! g.1 = Some x ∧ atoms !! g.2 = Some y.
Proof.
  intros Hsorted%StronglySorted_atom_batch Hb Hg.
  apply (guess_edge_index_Ok _ _ _ Hb) in Hg
    as (m & local & i & j & _ & Hm & Hij & ->).
  apply molecule_bonds_in_range in Hm. rewrite Forall_forall in Hm.
  destruct (Hm _ Hij) as [Hi Hj]. simpl in Hi, Hj.
  apply lookup_lt_is_Some in Hi as [x Hx], Hj as [y Hy].
  exists m, i, j, x, y. simpl. split_and!; try done.
  - by apply molecule_lookup.
  - by apply molecule_lookup.
Qed.

Lemma guessed_batch_pairs (edges : list Edge) (bonds : list (nat * nat)) :
  Sorted le (atom_batch <$> atoms) →
  guess_edge_index guessBonds atoms = Ok bonds →
  ∃ batch,
    guessed_batch guessBonds atoms edges = Ok batch
    ∧ z batch = atom_z <$> atoms
    ∧ rollout batch = edges
    ∧ length (edge_index batch) = length bonds
    ∧ ∀ k g, bonds !! k = Some g →
        ∃ m i j x y,
          molecule atoms m !! i = Some x ∧ molecule atoms m !! j = Some y
          ∧ g = (i + atoms_before atoms m, j + atoms_before atoms m)
          ∧ edge_index batch !! k = Some (atom_z x, atom_z y).
Proof.
  intros Hsorted Hb.
  pose proof (λ g, guessed_bonds_atoms bonds g Hsorted Hb) as Hat.
  destruct (gather_total (atom_z <$> atoms) (fst <$> bonds)) as [zs0 H0].
  { apply Forall_fmap, Forall_forall. intros g Hg.
    destruct (Hat g Hg) as (m & i & j & x & y & _ & _ & _ & Hx & _).
    simpl. rewrite length_fmap. by eapply lookup_lt_Some. }
  destruct (gather_total (atom_z <$> atoms) (snd <$> bonds)) as [zs1 H1].
  { apply Forall_fmap, Forall_forall. intros g Hg.
    destruct (Hat g Hg) as (m & i & j & x & y & _ & _ & _ & _ & Hy).
    simpl. rewrite length_fmap. by eapply lookup_lt_Some. }
  unfold guessed_batch, bond_elements. rewrite Hb. simpl. rewrite H0. simpl.
  rewrite H1. simpl. eexists. split; [done|]. simpl.
  apply gather_lookup in H0 as [Hl0 H0], H1 as [Hl1 H1].
  rewrite length_fmap in Hl0, Hl1.
  split; [done|]. split; [done|]. split.
  { rewrite length_zip_with. lia. }
  intros k g Hk.
  destruct (Hat g) as (m & i & j & x & y & Hmx & Hmy & Hg & Hx & Hy).
  { by eapply list_elem_of_lookup_2. }
  exists m, i, j, x, y. split_and!; try done.
  rewrite lookup_zip_with.
  rewrite (H0 k g.1), (H1 k g.2) by (by rewrite list_lookup_fmap, Hk).
  by rewrite !list_lookup_fmap, Hx, Hy.
Qed.
End guessed_batch_facts.

(** X17. With the atoms ordered by molecule and a bond guesser that answers
    with indices of the atoms it was given, reading the elements at the end
    points of the guessed bonds never fails, and every reference pair is the
    pair of elements of two atoms of one and the same molecule. *)
Theorem guessed_bonds_stay_in_molecule {Pos : Type}
    (guessBonds : list (string * Pos) → list (nat * nat))
    (atoms : list (AtomRow Pos)) (edges : list Edge) (bonds : list (nat * nat)) :
  (∀ mol, Forall (λ b, b.1 < length mol ∧ b.2 < length mol) (guessBonds mol)) →
  Sorted le (atom_batch <$> atoms) →
  guess_edge_index guessBonds atoms = Ok bonds →
  ∃ batch,
    guessed_batch guessBonds atoms edges = Ok batch
    ∧ z batch = atom_z <$> atoms
    ∧ rollout batch = edges
    ∧ length (edge_index batch) = length bonds
    ∧ ∀ k g, bonds !! k = Some g →
        ∃ m i j x y,
          molecule atoms m !! i = Some x ∧ molecule atoms m !! j = Some y
          ∧ g = (i + atoms_before atoms m, j + atoms_before atoms m)
          ∧ edge_index batch !! k = Some (atom_z x, atom_z y).
Proof. intros Hrange Hsorted Hb. by apply guessed_batch_pairs. Qed.

Lemma guessed_bonds_stay_in_molecule_witness :
  (∀ mol, Forall (λ b, b.1 < length mol ∧ b.2 < length mol) (first_two_bonded mol))
  ∧ Sorted le (atom_batch <$> two_molecules)
  ∧ guess_edge_index first_two_bonded two_molecules
    = Ok [(0, 1); (1, 0); (2, 3); (3, 2)]
  ∧ ∃ batch,
      guessed_batch first_two_bonded two_molecules [] = Ok batch
      ∧ z batch = atom_z <$> two_molecules
      ∧ rollout batch = []
      ∧ length (edge_index batch) = 4
      ∧ ∀ k g, [(0, 1); (1, 0); (2, 3); (3, 2)] !! k = Some g →
          ∃ m i j x y,
            molecule two_molecules m !! i = Some x
            ∧ molecule two_molecules m !! j = Some y
            ∧ g = (i + atoms_before two_molecules m,
                   j + atoms_before two_molecules m)
            ∧ edge_index batch !! k = Some (atom_z x, atom_z y).
Proof.
  assert (∀ mol, Forall (λ b, b.1 < length mol ∧ b.2 < length mol)
                   (first_two_bonded mol)) as Hrange.
  { intros mol. unfold first_two_bonded. case_decide; repeat constructor; simpl; lia. }
  assert (Sorted le (atom_batch <$> two_molecules)) as Hsorted
    by (repeat constructor).
  assert (guess_edge_index first_two_bonded two_molecules
          = Ok [(0, 1); (1, 0); (2, 3); (3, 2)]) as Hb
    by (vm_compute; reflexivity).
  split; [exact Hrange|]. split; [exact Hsorted|]. split; [exact Hb|].
  exact (guessed_bonds_stay_in_molecule first_two_bonded two_molecules [] _
           Hrange Hsorted Hb).
Defined.
